(** * Survey statistics engine ([src/utilities.py]): model and properties

    The Python module derives tables from a long-format survey table with
    pandas and then plots them.  This development embeds the derivations
    (everything up to the plotting calls) as Rocq functions and proves the
    properties of the derived tables, of the panels and labels handed to the
    plots, and of the errors the functions raise by themselves.

    Conventions.
    - A Python [float] / numpy [float64] is a binary64 value of
      [SpecFloat.spec_float] (precision 53, [emax] 1024); all arithmetic is the
      IEEE arithmetic of [SpecFloat], so [NaN] and the infinities are values.
    - A Python [int] / numpy [int64] count is a [nat] or a [Z].
    - A missing value ([None], [NaN] in an object column) is [None] of an
      [option].
    - pandas routines are written out after their documented behaviour; the two
      whose numeric algorithm is not part of this repository
      ([Series.quantile], [pd.to_numeric]) and [str.isnumeric] are fields of
      the class [Pandas]; Python's [int] and [float] on a text are fields of
      the class [Builtins].
    - A function that can raise returns an [option], a sum, or its result
      together with the exception. *)

From Stdlib Require Import ZArith String Ascii List Bool Lia.
From Stdlib Require Import Floats.SpecFloat.
From Stdlib Require Import Rbase Rfunctions Rbasic_fun Lra.
From Stdlib Require Import Sorting.Permutation Sorting.Sorted.
From stdpp Require Import base option list gmap strings sorting.

Open Scope string_scope.
Open Scope list_scope.
Open Scope Z_scope.

(** ** Binary64 arithmetic *)

Module F64.

Definition prec : Z := 53.
Definition emax : Z := 1024.

Definition float : Type := spec_float.

Definition nan : float := S754_nan.
Definition inf : float := S754_infinity false.
Definition neg_inf : float := S754_infinity true.

(** Conversion of an integer to binary64 (round to nearest even), as numpy does
    when an [int64] operand meets a true division. *)
Definition of_Z (z : Z) : float := binary_normalize prec emax z 0 false.
Definition of_nat (n : nat) : float := of_Z (Z.of_nat n).

Definition add : float -> float -> float := SFadd prec emax.
Definition sub : float -> float -> float := SFsub prec emax.
Definition mul : float -> float -> float := SFmul prec emax.
Definition div : float -> float -> float := SFdiv prec emax.
Definition sqrt : float -> float := SFsqrt prec emax.
Definition ltb : float -> float -> bool := SFltb.
Definition eqb : float -> float -> bool := SFeqb.

(** The binary64 value a decimal literal [n / 10^k] denotes: both operands are
    exact for the literals of the source, and the division rounds once. *)
Definition decimal (n : Z) (k : Z) : float := div (of_Z n) (of_Z (10 ^ k)).

Definition is_nan (x : float) : bool :=
  match x with S754_nan => true | _ => false end.


Definition is_finite (x : float) : bool :=
  match x with S754_zero _ | S754_finite _ _ _ => true | _ => false end.

(** Python's [int(x)]: truncation toward zero; [ValueError] on [NaN] and
    [OverflowError] on an infinity, both [None] here. *)
Definition to_int (x : float) : option Z :=
  match x with
  | S754_zero _ => Some 0
  | S754_finite s m e => Some (cond_Zopp s (Z.shiftl (Zpos m) e))
  | S754_infinity _ | S754_nan => None
  end.

(** The real number a binary64 value denotes; 0 for [NaN] and the
    infinities, which denote none. *)
Definition to_R (x : float) : R :=
  match x with
  | S754_finite s m e => (IZR (cond_Zopp s (Zpos m)) * powerRZ 2 e)%R
  | _ => 0%R
  end.

(** Equality of hash-table keys in pandas ([unique], [value_counts]): numeric
    equality, with every [NaN] equal to every [NaN]. *)
Definition key_eqb (x y : float) : bool :=
  eqb x y || (is_nan x && is_nan y).

End F64.

(** ** Series helpers *)

(** The loop [if value not in acc: acc.append(value)]. *)
Definition append_new {A} (same : A -> A -> bool) (acc : list A) (x : A) : list A :=
  if existsb (same x) acc then acc else acc ++ [x].

(** [Series.unique()]: distinct values in order of first appearance. *)
Definition unique {A} (same : A -> A -> bool) (l : list A) : list A :=
  fold_left (append_new same) l [].

(** [Series.count()]: number of non-null cells. *)
Definition count_notnull {A} (l : list (option A)) : nat :=
  length (omap id l).

(** Number of cells equal to [k]. *)
Definition occurrences {A} `{EqDecision A} (k : A) (l : list A) : nat :=
  length (filter (λ x, x = k) l).

(** Stable insertion into a list sorted by decreasing count. *)
Fixpoint insert_desc (x : string * nat) (l : list (string * nat)) : list (string * nat) :=
  match l with
  | [] => [x]
  | y :: l' => if (y.2 <=? x.2)%nat then x :: l else y :: insert_desc x l'
  end.

Definition sort_desc (l : list (string * nat)) : list (string * nat) :=
  foldr insert_desc [] l.

(** [Series.value_counts()]: nulls dropped, one entry per distinct value,
    most frequent first.  pandas leaves the order of equal counts to its
    sort; here they keep the order of first appearance, and no property
    below depends on it. *)
Definition value_counts (l : list (option string)) : list (string * nat) :=
  let vals := omap id l in
  sort_desc (map (λ k, (k, occurrences k vals)) (unique String.eqb vals)).

(** ** The survey table *)

Record SurveyRecord := {
  UserID : Z;
  QuestionID : Z;
  AnswerText : option string;
  SurveyID : Z
}.

Definition SurveyTable : Type := list SurveyRecord.

(** [df[df["QuestionID"] == q]["AnswerText"]] *)
Definition answers_of (df : SurveyTable) (q : Z) : list (option string) :=
  map AnswerText (filter (λ r, QuestionID r = q) df).

(** ** Prevalence estimator ([create_prevalence_barplot]) *)

(** A row of [top_3_diagnoses] after the three column assignments. *)
Record PrevalenceEstimate := {
  p_AnswerText : string;
  p_count : nat;
  PrevalenceRate : F64.float;
  p_Percentage : F64.float;
  p_CI : F64.float
}.

(** The three column assignments of the source, for one row of the
    [value_counts] frame, with the survey wave's respondent count and the
    confidence multiplier. *)
Definition prevalence_row (z : F64.float) (respondents : nat) (kc : string * nat)
  : PrevalenceEstimate :=
  let rate := F64.div (F64.of_nat kc.2) (F64.of_nat respondents) in
  {| p_AnswerText := kc.1;
     p_count := kc.2;
     PrevalenceRate := rate;
     p_Percentage := F64.mul rate (F64.of_Z 100);
     p_CI := F64.mul
             (F64.mul z
                (F64.sqrt
                   (F64.div (F64.mul rate (F64.sub (F64.of_Z 1) rate))
                      (F64.of_nat respondents))))
             (F64.of_Z 100) |}.

(** [df[(df["QuestionID"] == q1) & (df["SurveyID"] == wave)]["AnswerText"].count()] *)
Definition respondents_in (wave : Z) (df : SurveyTable) (q1 : Z) : nat :=
  count_notnull
    (map AnswerText (filter (λ r, QuestionID r = q1 ∧ SurveyID r = wave) df)).

(** The literal [1.6456] of the source. *)
Definition z_90 : F64.float := F64.decimal 16456 4.

Definition create_prevalence_barplot (df : SurveyTable) (q1 q2 : Z)
  : list PrevalenceEstimate :=
  let respondents := respondents_in 2016 df q1 in
  let top_3_diagnoses := take 3 (value_counts (answers_of df q2)) in
  map (prevalence_row z_90 respondents) top_3_diagnoses.

(** The estimator as the specification words it: the survey wave, the number
    of categories and the confidence multiplier are arguments. *)
Definition prevalence_estimator_spec (df : SurveyTable) (reference target : Z)
    (wave : Z) (N : nat) (z : F64.float) : list PrevalenceEstimate :=
  map (prevalence_row z (respondents_in wave df reference))
      (take N (value_counts (answers_of df target))).

(** ** Grouped counts *)

(** Order of group keys: by survey wave, then by answer text. *)
Definition key_le (a b : Z * string) : Prop :=
  a.1 < b.1 ∨ (a.1 = b.1 ∧ String.leb a.2 b.2 = true).

#[global] Instance key_le_dec : RelDecision key_le.
Proof. intros a b. unfold key_le. apply _. Defined.

Definition key_eqb (a b : Z * string) : bool :=
  (a.1 =? b.1) && String.eqb a.2 b.2.

(** Order of the rows of a count frame: the order of their keys. *)
Definition row_le (a b : (Z * string) * nat) : Prop := key_le a.1 b.1.

#[global] Instance row_le_dec : RelDecision row_le.
Proof. intros a b. unfold row_le. apply _. Defined.

(** Order of column labels. *)
Definition str_le (a b : string) : Prop := String.leb a b = true.

#[global] Instance str_le_dec : RelDecision str_le.
Proof. intros a b. unfold str_le. apply _. Defined.

(** The group key of a row; a row with a null answer belongs to no group
    ([groupby] drops null keys). *)
Definition group_key (r : SurveyRecord) : option (Z * string) :=
  (λ a, (SurveyID r, a)) <$> AnswerText r.

(** [groupby(["SurveyID", "AnswerText"]).size().reset_index(name="Count")]:
    one row per observed key, in key order. *)
Definition groupby_size (df : SurveyTable) : list ((Z * string) * nat) :=
  let keys := omap group_key df in
  map (λ k, (k, occurrences k keys)) (merge_sort key_le (unique key_eqb keys)).

(** ** Distribution aggregator ([create_gender_barplot]) *)

Record DistributionRow := {
  d_SurveyID : Z;
  d_AnswerText : string;
  d_Count : nat;
  d_Percentage : F64.float
}.

(** The total of [Count] over the rows of one survey wave. *)
Definition wave_total (counts : list ((Z * string) * nat)) (k : Z) : nat :=
  sum_list (map snd (filter (λ r, r.1.1 = k) counts)).

(** [groupby("SurveyID")["Count"].transform("sum")]: for every row the total
    of [Count] over the rows of its survey wave. *)
Definition transform_sum (counts : list ((Z * string) * nat)) : list nat :=
  map (λ row, wave_total counts row.1.1) counts.

(** [Count / gender_sum * 100] *)
Definition percentage (count sum : nat) : F64.float :=
  F64.mul (F64.div (F64.of_nat count) (F64.of_nat sum)) (F64.of_Z 100).

(** The row of the result for one row of [gender_counts]. *)
Definition distribution_row (counts : list ((Z * string) * nat))
    (row : (Z * string) * nat) : DistributionRow :=
  {| d_SurveyID := row.1.1;
     d_AnswerText := row.1.2;
     d_Count := row.2;
     d_Percentage := percentage row.2 (wave_total counts row.1.1) |}.

(** The sorted count frame of the gender question. *)
Definition gender_counts (df : SurveyTable) : list ((Z * string) * nat) :=
  let gender_df := filter (λ r, QuestionID r = 2) df in
  merge_sort row_le (groupby_size gender_df).

Definition create_gender_barplot (df : SurveyTable) : list DistributionRow :=
  let gender_counts := gender_counts df in
  let gender_sum := transform_sum gender_counts in
  zip_with
    (λ row s, {| d_SurveyID := row.1.1;
                 d_AnswerText := row.1.2;
                 d_Count := row.2;
                 d_Percentage := percentage row.2 s |})
    gender_counts gender_sum.

(** The rows of a distribution table that belong to one survey wave. *)
Definition partition (k : Z) (t : list DistributionRow) : list DistributionRow :=
  filter (λ r, d_SurveyID r = k) t.

(** ** Pivoted trend builder ([create_lineplot]) *)

(** A pivoted frame: row labels, column labels, and one list of cells per
    row label.  A cell without data is [None] ([NaN] in pandas). *)
Record Pivot (A : Type) := {
  p_index : list Z;
  p_columns : list string;
  p_cells : list (list A)
}.
Arguments p_index {A} _.
Arguments p_columns {A} _.
Arguments p_cells {A} _.

(** [pivot_table(index="SurveyID", columns="AnswerText", values="Count",
    aggfunc="sum")]: the sum of [Count] over the rows of a key, no value for
    a key without rows (no [fill_value] is given). *)
Definition pivot_cell (df_counts : list ((Z * string) * nat)) (i : Z) (c : string)
  : option nat :=
  match filter (λ r, r.1 = (i, c)) df_counts with
  | [] => None
  | g => Some (sum_list (map snd g))
  end.

Definition pivot_table (df_counts : list ((Z * string) * nat)) : Pivot (option nat) :=
  let index := merge_sort Z.le (unique Z.eqb (map (λ r, r.1.1) df_counts)) in
  let columns :=
    merge_sort str_le (unique String.eqb (map (λ r, r.1.2) df_counts)) in
  {| p_index := index;
     p_columns := columns;
     p_cells := map (λ i, map (pivot_cell df_counts i) columns) index |}.

(** [df_pivoted.sum(axis=1)]: the sum of the cells that hold a value (the
    counts are whole numbers, which [float64] adds without error below
    [2^53]). *)
Definition row_sum (row : list (option nat)) : nat := sum_list (omap id row).

(** [df_pivoted.div(df_pivoted.sum(axis=1), axis=0) * 100]; a cell without a
    value stays [NaN]. *)
Definition pct_cell (sum : nat) (cell : option nat) : F64.float :=
  match cell with
  | Some v => percentage v sum
  | None => F64.nan
  end.

Definition normalize_rows (p : Pivot (option nat)) : Pivot F64.float :=
  {| p_index := p_index p;
     p_columns := p_columns p;
     p_cells := map (λ row, map (pct_cell (row_sum row)) row) (p_cells p) |}.

Definition pivoted_pct (df : SurveyTable) (question_id : Z) : Pivot F64.float :=
  let curr_df := filter (λ r, QuestionID r = question_id) df in
  let df_counts := groupby_size curr_df in
  let df_pivoted := pivot_table df_counts in
  normalize_rows df_pivoted.

(** The cell the pivoted percentages hold for the survey wave [i] and the
    answer [c], in terms of the group keys of the rows: no number when no row
    has the key [(i, c)], else the share of the key among the keys of the
    wave, the total taken over the columns of the frame. *)
Definition pct_of_keys (keys : list (Z * string)) (columns : list string)
    (i : Z) (c : string) : F64.float :=
  let n := occurrences (i, c) keys in
  if (n =? 0)%nat then F64.nan
  else percentage n (sum_list (map (λ c', occurrences (i, c') keys) columns)).

(** The loop runs over [zip(axes, questions)] with two axes: the first two
    question ids are used. *)
Definition create_lineplot (df : SurveyTable) (questions : list Z)
  : list (Pivot F64.float) :=
  map (pivoted_pct df) (take 2 questions).

(** Cell of a pivoted frame by labels. *)
Definition cell_at {A} (p : Pivot A) (i : Z) (c : string) : option A :=
  match list_find (λ x, x = i) (p_index p), list_find (λ x, x = c) (p_columns p) with
  | Some (ri, _), Some (ci, _) => p_cells p !! ri ≫= (λ row, row !! ci)
  | _, _ => None
  end.

(** ** Real values and error bounds *)

(** Relative error bound of one rounded operation on normal numbers. *)
Definition eps : R := (/ IZR (2 ^ 52))%R.

(** The relative error of [count / sum * 100]: two rounded operations. *)
Definition margin : R := (eps * (2 + eps))%R.

Definition sum_R (l : list R) : R := foldr Rplus 0%R l.

(** The cells of a row that hold a number. *)
Definition present (row : list F64.float) : list F64.float :=
  filter (λ x, F64.is_nan x = false) row.

(** ** Ordinal mapping and library routines *)

(** The module constant [text_to_num_mapping].  Keys are answer texts or
    [None]; the value of the key [None] is [None]. *)
Definition text_to_num_mapping : gmap (option string) (option F64.float) :=
  list_to_map
    [ (Some "Yes", Some (F64.of_Z 1));
      (Some "Yes, all of them", Some (F64.of_Z 1));
      (Some "No", Some (F64.of_Z 0));
      (Some "None of them", Some (F64.of_Z 0));
      (Some "Some did", Some (F64.decimal 5 1));
      (Some "Some of them", Some (F64.decimal 5 1));
      (Some "Maybe", Some (F64.decimal 5 1));
      (None, None) ].

(** The pandas and Python routines whose algorithm lies outside the
    repository. *)
Class Pandas := {
  (** [Series.quantile(q)] of a numeric column. *)
  quantile : list F64.float → F64.float → F64.float;
  (** [pd.to_numeric] on one text: the number it denotes, if it denotes one. *)
  str_to_numeric : string → option F64.float;
  (** [str.isnumeric()]. *)
  str_isnumeric : string → bool;
  (** No answer text of the ordinal mapping denotes a number. *)
  to_numeric_words :
    ∀ s, is_Some (text_to_num_mapping !! Some s) → str_to_numeric s = None
}.

(** Python's own conversions of a text, which numpy applies to the texts of
    an object array it casts: [int(s)] and [float(s)], [None] where they
    raise. *)
Class Builtins := {
  int_of_str : string → option Z;
  float_of_str : string → option F64.float
}.

(** ** Outlier detector ([find_outliers]) *)

Inductive pyexn := ValueError | OverflowError.

Inductive result (A : Type) :=
| Returned (a : A)
| Raised (e : pyexn).
Arguments Returned {A} _.
Arguments Raised {A} _.

(** [int(value)] on a [float64]. *)
Definition py_int (x : F64.float) : result Z :=
  match F64.to_int x with
  | Some z => Returned z
  | None => Raised (if F64.is_nan x then ValueError else OverflowError)
  end.

(** A list comprehension over a call that may raise: the first exception
    ends it. *)
Fixpoint comprehension {A B} (f : A → result B) (l : list A) : result (list B) :=
  match l with
  | [] => Returned []
  | x :: l' =>
      match f x with
      | Raised e => Raised e
      | Returned y =>
          match comprehension f l' with
          | Raised e => Raised e
          | Returned ys => Returned (y :: ys)
          end
      end
  end.

(** The lines the function prints. *)
Inductive message :=
| FeatureNotFound (feature : string)
| UniqueOutliers (feature : string) (values : list Z)
| NoOutliers (feature : string).

(** A frame of [float64] columns, each cell its binary64 value; a missing
    cell is [NaN].  An [int64] column is read as such a column: its values
    are their binary64 values, which is exact for the integers of magnitude
    up to [2^53]; larger integers are outside this model. *)
Definition NumericFrame : Type := gmap string (list F64.float).

Section Outliers.
Context `{Pandas}.

Definition lower_bound (col : list F64.float) : F64.float :=
  let q1 := quantile col (F64.decimal 25 2) in
  let q3 := quantile col (F64.decimal 75 2) in
  let iqr := F64.sub q3 q1 in
  F64.sub q1 (F64.mul (F64.decimal 15 1) iqr).

Definition upper_bound (col : list F64.float) : F64.float :=
  let q1 := quantile col (F64.decimal 25 2) in
  let q3 := quantile col (F64.decimal 75 2) in
  let iqr := F64.sub q3 q1 in
  F64.add q3 (F64.mul (F64.decimal 15 1) iqr).

(** [(df[feature] < lower_bound) | (df[feature] > upper_bound)] *)
Definition is_outlier (col : list F64.float) (v : F64.float) : bool :=
  F64.ltb v (lower_bound col) || F64.ltb (upper_bound col) v.

Definition feature_outliers (col : list F64.float) : list F64.float :=
  filter (λ v, is_outlier col v = true) col.

(** [[int(value) for value in feature_outliers.unique()]] *)
Definition feature_outliers_unique (col : list F64.float) : result (list Z) :=
  comprehension py_int (unique F64.key_eqb (feature_outliers col)).

(** The loop over [features], with the list built so far and the lines
    printed so far. *)
Fixpoint find_outliers_loop (df : NumericFrame) (features : list string)
    (outliers_list : list Z) (stdout : list message)
  : list message * result (list Z) :=
  match features with
  | [] => (stdout, Returned outliers_list)
  | feature :: rest =>
      match df !! feature with
      | None =>
          find_outliers_loop df rest outliers_list
            (stdout ++ [FeatureNotFound feature])
      | Some col =>
          match feature_outliers_unique col with
          | Raised e => (stdout, Raised e)
          | Returned values =>
              find_outliers_loop df rest
                (fold_left (append_new Z.eqb) values outliers_list)
                (stdout ++ [match values with
                            | [] => NoOutliers feature
                            | _ => UniqueOutliers feature values
                            end])
          end
      end
  end.

Definition find_outliers (df : NumericFrame) (features : list string)
  : list message * result (list Z) :=
  find_outliers_loop df features [] [].



End Outliers.

(** ** Answer coercion in the correlation builder
       ([create_correlation_heatmap]) *)

(** A cell of a column: a Python or numpy integer, a float, a text, or
    [None].  A float [NaN] is [Num NaN]; pandas takes it for a missing value
    as it does [None].  The cells of a column of a numeric dtype are all
    integers or all floats, those of an object column are of any kind. *)
Inductive cell :=
| Int (z : Z)
| Num (x : F64.float)
| Text (s : string)
| Null.

(** Lookup of a cell among the keys of [text_to_num_mapping]: a number equals
    none of the keys. *)
Definition dict_get (c : cell) : option (option F64.float) :=
  match c with
  | Text s => text_to_num_mapping !! Some s
  | Null => text_to_num_mapping !! None
  | Int _ | Num _ => None
  end.

(** [Series.map(text_to_num_mapping)] on one cell.  pandas turns the
    dictionary into a float64 series, so the mapped column is float64: the
    value of the key, and [NaN] ([None] here) for a cell that is no key or
    whose key holds [None]. *)
Definition map_value (c : cell) : option F64.float :=
  match dict_get c with
  | Some (Some v) => Some v
  | _ => None
  end.

(** The nullable dtypes [convert_dtypes()] gives a float64 column. *)
Inductive nullable_dtype := Int64 | Float64.

(** [arr.astype(int) == arr] on one value. *)
Definition is_whole (x : F64.float) : bool :=
  match F64.to_int x with
  | Some z => F64.eqb (F64.of_Z z) x
  | None => false
  end.

(** [convert_dtypes()] on the mapped column: [Int64] when every value that
    is present is a whole number, [Float64] otherwise. *)
Definition convert_dtypes (mapped : list (option F64.float)) : nullable_dtype :=
  if forallb (λ v, match v with Some x => is_whole x | None => true end) mapped
  then Int64
  else Float64.

Definition in_int64 (z : Z) : bool := (- 2 ^ 63 <=? z) && (z <? 2 ^ 63).

Definition is_text (c : cell) : bool :=
  match c with Text _ => true | _ => false end.

(** A number that is present: [NaN] is missing. *)
Definition is_number (c : cell) : bool :=
  match c with
  | Int _ => true
  | Num x => negb (F64.is_nan x)
  | Text _ | Null => false
  end.

Section Fill.
Context `{Builtins}.

(** One original value written into an [Int64] array; [None] where the cast
    raises: a text that is no integer literal ([ValueError]), a number that
    is not whole or does not fit ([TypeError], [OverflowError]). *)
Definition store_int64 (c : cell) : option cell :=
  match c with
  | Null => Some Null
  | Int z => if in_int64 z then Some (Int z) else None
  | Num x =>
      if F64.is_nan x then Some Null
      else
        match F64.to_int x with
        | Some z => if F64.eqb (F64.of_Z z) x && in_int64 z then Some (Int z) else None
        | None => None
        end
  | Text s =>
      match int_of_str s with
      | Some z => if in_int64 z then Some (Int z) else None
      | None => None
      end
  end.

(** One original value written into a [Float64] array; [None] where the
    cast raises. *)
Definition store_float64 (c : cell) : option cell :=
  match c with
  | Null => Some Null
  | Int z => if F64.is_finite (F64.of_Z z) then Some (Num (F64.of_Z z)) else None
  | Num x => if F64.is_nan x then Some Null else Some (Num x)
  | Text s => Num <$> float_of_str s
  end.

(** The cells [fillna] writes: the original cells at the positions where the
    mapped column is missing. *)
Definition fill_values (mapped : list (option F64.float)) (original : list cell)
  : list cell :=
  map snd (filter (λ mc, mc.1 = None) (zip mapped original)).

(** [s.fillna(df[col])] on the converted column [s]: the missing positions
    take the original cells, cast to the dtype of [s] as one array.  Texts
    and numbers together do not cast to [Int64]. *)
Definition fillna (dtype : nullable_dtype) (mapped : list (option F64.float))
    (original : list cell) : option (list cell) :=
  match dtype with
  | Int64 =>
      let values := fill_values mapped original in
      if existsb is_text values && existsb is_number values then None
      else
        mapM (λ mc, match mc.1 with
                    | Some v => Int <$> F64.to_int v
                    | None => store_int64 mc.2
                    end)
             (zip mapped original)
  | Float64 =>
      mapM (λ mc, match mc.1 with
                  | Some v => Some (Num v)
                  | None => store_float64 mc.2
                  end)
           (zip mapped original)
  end.

(** [df[col].map(text_to_num_mapping).convert_dtypes().fillna(df[col])];
    [None] when [fillna] raises. *)
Definition coerce_column (col : list cell) : option (list cell) :=
  let mapped := map map_value col in
  fillna (convert_dtypes mapped) mapped col.

End Fill.

(** A frame of named columns, in column order. *)
Definition Frame : Type := list (string * list cell).

(** [df[name]]; no such column gives no cells. *)
Definition column (name : string) (df : Frame) : list cell :=
  match list_find (λ c : string * list cell, c.1 = name) df with
  | Some (_, c) => c.2
  | None => []
  end.

(** [df[name] = values]: replaces the column, or appends a new one. *)
Fixpoint set_column (name : string) (values : list cell) (df : Frame) : Frame :=
  match df with
  | [] => [(name, values)]
  | c :: df' =>
      if String.eqb c.1 name then (name, values) :: df'
      else c :: set_column name values df'
  end.

Section Coercion.
Context `{Pandas} `{Builtins}.

(** [pd.to_numeric(_, errors="coerce")] on one cell: a number stays as it
    is, a text becomes the number it denotes and is missing when it denotes
    none. *)
Definition to_numeric_cell (c : cell) : cell :=
  match c with
  | Text s =>
      match str_to_numeric s with
      | Some x => Num x
      | None => Null
      end
  | Int _ | Num _ | Null => c
  end.

(** The frame after the loop over the columns (line 249).  [df[col]] is a
    column only when the name occurs once in the frame; when it occurs
    twice [df[col]] is a frame, on which [map] raises. *)
Definition coerced_frame (df : Frame) : option Frame :=
  if decide (NoDup (map fst df))
  then mapM (λ c, pair c.1 <$> coerce_column c.2) df
  else None.

(** The function up to the frame it hands to [df.corr()]: the loop over the
    columns of the copy, then [df.apply(pd.to_numeric, errors="coerce")];
    [None] when the loop raises. *)
Definition create_correlation_heatmap (df : Frame) : option Frame :=
  df1 ← coerced_frame df;
  Some (map (λ c, (c.1, map to_numeric_cell c.2)) df1).

(** ** Answer coercion in the violin comparison ([create_violin_subplots]) *)

Inductive y_column := y_AnswerText | y_AnswerNumeric.

(** [temp_df["AnswerText"].str.isnumeric().all()]: missing answers are
    skipped. *)
Definition all_isnumeric (answers : list (option string)) : bool :=
  forallb (λ a, match a with Some s => str_isnumeric s | None => true end) answers.

(** [temp_df["AnswerText"].map(text_to_num_mapping)] on one answer. *)
Definition map_answer (a : option string) : F64.float :=
  match text_to_num_mapping !! a with
  | Some (Some v) => v
  | _ => F64.nan
  end.

(** [pd.to_numeric(temp_df["AnswerText"], errors="coerce")] on one answer. *)
Definition to_numeric_answer (a : option string) : F64.float :=
  match a with
  | Some s => default F64.nan (str_to_numeric s)
  | None => F64.nan
  end.

(** The branch on the melted answer column: the column to plot and its
    values. *)
Definition violin_y (answers : list (option string)) : y_column * list F64.float :=
  if all_isnumeric answers
  then (y_AnswerText, map to_numeric_answer answers)
  else (y_AnswerNumeric, map map_answer answers).

(** The melted frame of one question pair. *)
Record ViolinFrame := {
  v_QuestionID : list Z;
  v_AnswerText : list (option string);
  v_Label : list (option string);
  v_y_column : y_column;
  v_y : list F64.float
}.

(** The exceptions of the function: [plt.subplots(0, 1)] raises
    [ValueError] when there is no pair, [melt] raises [KeyError] on a
    question id that is no column. *)
Inductive violin_error := SubplotsError | KeyError.

(** The columns [melt] stacks for [value_vars=[q1, q2]]: each column named,
    once. *)
Definition value_vars (pair : Z * Z) : list Z :=
  if decide (pair.1 = pair.2) then [pair.1] else [pair.1; pair.2].

(** A frame of answers with one column per question id; [melt] stacks the
    columns of a pair.  A pair that names a question id without a column
    has no frame ([KeyError]). *)
Definition violin_frame (df : gmap Z (list (option string)))
    (question_labels : gmap Z string) (pair : Z * Z) : option ViolinFrame :=
  columns ← mapM (λ q, Datatypes.pair q <$> df !! q) (value_vars pair);
  let ids := flat_map (λ qc, replicate (length qc.2) qc.1) columns in
  let answers := flat_map snd columns in
  Some {| v_QuestionID := ids;
          v_AnswerText := answers;
          v_Label := map (λ q, question_labels !! q) ids;
          v_y_column := (violin_y answers).1;
          v_y := (violin_y answers).2 |}.

(** The loop over the pairs: the frames built and plotted, and the
    exception that ended the loop, if one did. *)
Fixpoint violin_loop (df : gmap Z (list (option string)))
    (question_labels : gmap Z string) (question_pairs : list (Z * Z))
  : list ViolinFrame * option violin_error :=
  match question_pairs with
  | [] => ([], None)
  | q1_q2 :: rest =>
      match violin_frame df question_labels q1_q2 with
      | None => ([], Some KeyError)
      | Some frame =>
          let r := violin_loop df question_labels rest in
          (frame :: r.1, r.2)
      end
  end.

Definition create_violin_subplots (question_pairs : list (Z * Z))
    (question_labels : gmap Z string) (df : gmap Z (list (option string)))
  : list ViolinFrame * option violin_error :=
  match question_pairs with
  | [] => ([], Some SubplotsError)
  | _ => violin_loop df question_labels question_pairs
  end.

End Coercion.

(** ** Reference routines

    One instance of [Pandas] and one of [Builtins], to run the model on
    concrete tables: numpy's quantile by linear interpolation, and the
    texts of decimal digits as the only texts that denote a number.  The
    routines of pandas and Python accept more texts than these (signs,
    fractions, exponents, blanks); the properties below are proved for every
    instance, and only the runs on example tables use this one. *)

Module Reference.

Definition float_le (a b : F64.float) : Prop := SFleb a b = true.

#[global] Instance float_le_dec : RelDecision float_le.
Proof. intros a b. unfold float_le. apply _. Defined.

(** numpy's [_lerp]. *)
Definition lerp (a b t : F64.float) : F64.float :=
  let diff := F64.sub b a in
  if F64.ltb t (F64.decimal 5 1)
  then F64.add a (F64.mul diff t)
  else F64.sub b (F64.mul diff (F64.sub (F64.of_Z 1) t)).

Definition quantile_linear (col : list F64.float) (q : F64.float) : F64.float :=
  let values := merge_sort float_le (filter (λ v, F64.is_nan v = false) col) in
  let n := length values in
  let virtual := F64.mul (F64.of_nat (n - 1)) q in
  match values, F64.to_int virtual with
  | _ :: _, Some previous =>
      let gamma := F64.sub virtual (F64.of_Z previous) in
      let i := Z.to_nat previous in
      lerp (nth i values F64.nan) (nth (Nat.min (i + 1) (n - 1)) values F64.nan) gamma
  | _, _ => F64.nan
  end.

Definition digit_of (c : ascii) : option Z :=
  let n := Z.of_nat (nat_of_ascii c) in
  if (48 <=? n) && (n <=? 57) then Some (n - 48) else None.

Fixpoint parse_digits (acc : Z) (s : string) : option Z :=
  match s with
  | EmptyString => Some acc
  | String c s' => d ← digit_of c; parse_digits (10 * acc + d) s'
  end.

Definition parse_decimal (s : string) : option F64.float :=
  match s with
  | EmptyString => None
  | _ => F64.of_Z <$> parse_digits 0 s
  end.

Definition all_digits (s : string) : bool :=
  match s with
  | EmptyString => false
  | _ => bool_decide (is_Some (parse_digits 0 s))
  end.

(** The words of the ordinal mapping hold a letter, so they are not texts of
    digits. *)
#[global] Instance pandas : Pandas.
Proof.
  refine {| quantile := quantile_linear;
            str_to_numeric := parse_decimal;
            str_isnumeric := all_digits |}.
  intros s [v Hv]. unfold text_to_num_mapping in Hv.
  apply elem_of_list_to_map_2 in Hv.
  repeat (apply elem_of_cons in Hv as [Hv | Hv];
          [simplify_eq; reflexivity |]).
  by apply elem_of_nil in Hv.
Defined.

Definition parse_int (s : string) : option Z :=
  match s with
  | EmptyString => None
  | _ => parse_digits 0 s
  end.

#[global] Instance builtins : Builtins :=
  {| int_of_str := parse_int; float_of_str := parse_decimal |}.

End Reference.

(** ** Tables as objects

    The functions receive a reference to the caller's table.  A frame is an
    object of a store; selecting rows, grouping, pivoting, [copy()] and
    [reset_index()] build a new object, and a column assignment
    [x[name] = values] changes the object [x] refers to.  Each function is
    written again as a store transformer, statement by statement, with the
    contents computed by the functions above. *)

Module Store.

Definition loc : Type := nat.

Inductive object :=
| Survey (t : SurveyTable)
| Numeric (t : NumericFrame)
| Answers (t : gmap Z (list (option string)))
| Columns (t : Frame)
| PivotCounts (t : Pivot (option nat))
| PivotPct (t : Pivot F64.float).

Definition heap : Type := list object.

(** A computation reads and changes the store and may raise. *)
Definition M (A : Type) : Type := heap → option A * heap.

#[global] Instance M_ret : MRet M := λ A a σ, (Some a, σ).

#[global] Instance M_bind : MBind M := λ A B k m σ,
  match m σ with
  | (Some a, σ') => k a σ'
  | (None, σ') => (None, σ')
  end.

Definition raise {A} : M A := λ σ, (None, σ).

(** A new object. *)
Definition alloc (o : object) : M loc := λ σ, (Some (length σ), σ ++ [o]).

Definition read (l : loc) : M object := λ σ, (σ !! l, σ).

(** Replaces the contents of the object at [l]. *)
Definition write (l : loc) (o : object) : M unit := λ σ, (Some (), <[l := o]> σ).

Definition read_survey (l : loc) : M SurveyTable :=
  o ← read l; match o with Survey t => mret t | _ => raise end.

Definition read_columns (l : loc) : M Frame :=
  o ← read l; match o with Columns t => mret t | _ => raise end.

(** [x[name] = values] on the frame [x] refers to. *)
Definition assign (x : loc) (name : string) (values : list cell) : M unit :=
  t ← read_columns x; write x (Columns (set_column name values t)).

Fixpoint for_each {A} (l : list A) (body : A → M unit) : M unit :=
  match l with
  | [] => mret ()
  | a :: l' => body a;; for_each l' body
  end.

(** Frames of derived rows. *)
Definition counts_frame (name : string) (counts : list ((Z * string) * nat)) : Frame :=
  [ ("SurveyID", map (λ r, Int r.1.1) counts);
    ("AnswerText", map (λ r, Text r.1.2) counts);
    (name, map (λ r, Int (Z.of_nat r.2)) counts) ].

Definition value_counts_frame (counts : list (string * nat)) : Frame :=
  [ ("AnswerText", map (λ r, Text r.1) counts);
    ("count", map (λ r, Int (Z.of_nat r.2)) counts) ].

Definition answer_cell (a : option string) : cell :=
  match a with Some s => Text s | None => Null end.

(** The frames of the estimator and of the aggregator, column by column. *)
Definition estimates_frame (rows : list PrevalenceEstimate) : Frame :=
  [ ("AnswerText", map (λ r, Text (p_AnswerText r)) rows);
    ("count", map (λ r, Int (Z.of_nat (p_count r))) rows);
    ("PrevalenceRate", map (λ r, Num (PrevalenceRate r)) rows);
    ("Percentage", map (λ r, Num (p_Percentage r)) rows);
    ("CI%", map (λ r, Num (p_CI r)) rows) ].

Definition distribution_frame (rows : list DistributionRow) : Frame :=
  [ ("SurveyID", map (λ r, Int (d_SurveyID r)) rows);
    ("AnswerText", map (λ r, Text (d_AnswerText r)) rows);
    ("Count", map (λ r, Int (Z.of_nat (d_Count r))) rows);
    ("Percentage", map (λ r, Num (d_Percentage r)) rows) ].

Section Components.
Context `{Pandas} `{Builtins}.

Definition find_outliers (df : loc) (features : list string) : M (list Z) :=
  o ← read df;
  match o with
  | Numeric t =>
      match (find_outliers t features).2 with
      | Returned l => mret l
      | Raised _ => raise
      end
  | _ => raise
  end.

(** [between(18, 64)] on the parsed answer. *)
Definition working_age (a : option string) : bool :=
  let x := to_numeric_answer a in
  SFleb (F64.of_Z 18) x && SFleb x (F64.of_Z 64).

Definition create_age_histplot (df : loc) : M loc :=
  t ← read_survey df;
  alloc (Survey (filter (λ r, QuestionID r = 1 ∧ working_age (AnswerText r) = true) t)).

Definition create_gender_barplot (df : loc) : M loc :=
  t ← read_survey df;
  gender_df ← alloc (Survey (filter (λ r, QuestionID r = 2) t));
  g ← read_survey gender_df;
  let sorted := merge_sort row_le (groupby_size g) in
  gender_counts ← alloc (Columns (counts_frame "Count" sorted));
  let gender_sum := transform_sum sorted in
  assign gender_counts "Percentage"
    (zip_with (λ row s, Num (percentage row.2 s)) sorted gender_sum);;
  mret gender_counts.

Definition create_lineplot (df : loc) (questions : list Z) : M (list loc) :=
  t ← read_survey df;
  mapM (λ question_id,
          curr_df ← alloc (Survey (filter (λ r, QuestionID r = question_id) t));
          c ← read_survey curr_df;
          df_counts ← alloc (Columns (counts_frame "Count" (groupby_size c)));
          df_pivoted ← alloc (PivotCounts (pivot_table (groupby_size c)));
          alloc (PivotPct (normalize_rows (pivot_table (groupby_size c)))))
       (take 2 questions).

Definition create_prevalence_barplot (df : loc) (q1 q2 : Z) : M loc :=
  t ← read_survey df;
  let respondents := respondents_in 2016 t q1 in
  let top := take 3 (value_counts (answers_of t q2)) in
  top_3_diagnoses ← alloc (Columns (value_counts_frame top));
  let rows := map (prevalence_row z_90 respondents) top in
  assign top_3_diagnoses "PrevalenceRate" (map (λ r, Num (PrevalenceRate r)) rows);;
  assign top_3_diagnoses "Percentage" (map (λ r, Num (p_Percentage r)) rows);;
  assign top_3_diagnoses "CI%" (map (λ r, Num (p_CI r)) rows);;
  mret top_3_diagnoses.

(** One turn of the loop of the heatmap on the frame [df] refers to.
    [df[col]] is a column when the name [col] occurs once among the columns;
    otherwise it is a frame, and [map] raises. *)
Definition coerce_in_place (df : loc) (col : string) : M unit :=
  cur ← read_columns df;
  if decide (occurrences col (map fst cur) = 1%nat)
  then match coerce_column (column col cur) with
       | Some values => assign df col values
       | None => raise
       end
  else raise.

(** [df = df.copy()] rebinds the name [df] to the copy; the assignments of
    the loop go to the copy. *)
Definition create_correlation_heatmap (df : loc) : M loc :=
  t ← read_columns df;
  df ← alloc (Columns t);
  for_each (map fst t) (coerce_in_place df);;
  cur ← read_columns df;
  alloc (Columns (map (λ c, (c.1, map to_numeric_cell c.2)) cur)).

(** [plt.subplots(0, 1)] raises when there is no pair.  Each turn of the
    loop builds the melted frame of a pair as a new object and assigns its
    columns. *)
Definition create_violin_subplots (question_pairs : list (Z * Z))
    (question_labels : gmap Z string) (df : loc) : M (list loc) :=
  o ← read df;
  match o, question_pairs with
  | Answers t, _ :: _ =>
      mapM (λ pair,
              match mapM (λ q, Datatypes.pair q <$> t !! q) (value_vars pair) with
              | Some columns =>
                  let ids := flat_map (λ qc, replicate (length qc.2) qc.1) columns in
                  let answers := flat_map snd columns in
                  temp_df ← alloc (Columns [("QuestionID", map Int ids);
                                            ("AnswerText", map answer_cell answers)]);
                  assign temp_df "Label"
                    (map (λ q, answer_cell (question_labels !! q)) ids);;
                  (if all_isnumeric answers
                   then assign temp_df "AnswerText"
                          (map (λ a, Num (to_numeric_answer a)) answers)
                   else assign temp_df "AnswerNumeric"
                          (map (λ a, Num (map_answer a)) answers));;
                  mret temp_df
              | None => raise
              end)
           question_pairs
  | _, _ => raise
  end.

(** The calls a caller can make on a table. *)
Inductive call :=
| FindOutliers (features : list string)
| AgeHistplot
| GenderBarplot
| Lineplot (questions : list Z)
| PrevalenceBarplot (q1 q2 : Z)
| CorrelationHeatmap
| ViolinSubplots (question_pairs : list (Z * Z)) (question_labels : gmap Z string).

Definition run (c : call) (df : loc) : M unit :=
  match c with
  | FindOutliers features => find_outliers df features;; mret ()
  | AgeHistplot => create_age_histplot df;; mret ()
  | GenderBarplot => create_gender_barplot df;; mret ()
  | Lineplot questions => create_lineplot df questions;; mret ()
  | PrevalenceBarplot q1 q2 => create_prevalence_barplot df q1 q2;; mret ()
  | CorrelationHeatmap => create_correlation_heatmap df;; mret ()
  | ViolinSubplots pairs labels => create_violin_subplots pairs labels df;; mret ()
  end.

End Components.

(** [writes_above n m Q]: run in a store of at least [n] objects, [m] leaves
    the first [n] objects as they are, and a value it returns satisfies
    [Q]. *)
Definition writes_above {A} (n : nat) (m : M A) (Q : A → Prop) : Prop :=
  ∀ σ, (n ≤ length σ)%nat →
       take n (m σ).2 = take n σ
       ∧ (n ≤ length (m σ).2)%nat
       ∧ ∀ a, (m σ).1 = Some a → Q a.

End Store.

(** ** Example tables *)

Definition example_numeric : NumericFrame :=
  list_to_map [("x", map F64.of_Z [1; 2; 3; 4; 5; 100])].

Definition answer (q : Z) (a : string) (wave : Z) : SurveyRecord :=
  {| UserID := 0; QuestionID := q; AnswerText := Some a; SurveyID := wave |}.

(** Two respondents to question 1 in 2016 and one in 2017; three diagnoses
    under question 2. *)
Definition example_survey : SurveyTable :=
  [ answer 1 "yes" 2016; answer 1 "no" 2016; answer 1 "yes" 2017;
    answer 2 "Anxiety" 2016; answer 2 "Anxiety" 2016; answer 2 "Mood" 2016 ].

(** One hundred respondents to question 1 in 2016, thirty of whom report
    the same diagnosis under question 2. *)
Definition example_prevalence : SurveyTable :=
  replicate 100 (answer 1 "yes" 2016) ++ replicate 30 (answer 2 "Anxiety" 2016).

(** Gender answers of two survey waves. *)
Definition example_gender : SurveyTable :=
  [ answer 2 "Male" 2016; answer 2 "Female" 2016; answer 2 "Male" 2016;
    answer 2 "Male" 2014; answer 3 "x" 2016 ].

(** ** The report of the outlier detector *)

(** The feature a printed line is about. *)
Definition message_feature (m : message) : string :=
  match m with
  | FeatureNotFound feature | UniqueOutliers feature _ | NoOutliers feature => feature
  end.

(** ** Errors of the plotting functions *)

(** The exceptions the functions below raise by themselves: [axes[i]] out of
    range, [int] on a text that is no integer literal, a division by the
    integer zero. *)
Inductive plot_error := IndexError | InvalidLiteral | ZeroDivisionError.

Inductive drawing (A : Type) :=
| Drawn (a : A)
| Failed (e : plot_error).
Arguments Drawn {A} _.
Arguments Failed {A} _.

(** ** Age histograms ([create_age_histplot])

    The function up to the calls of [sns.histplot], which are taken to
    return: the selected rows, the survey years and, for each year, the axis
    and the ages handed to the plot. *)

(** [plt.subplots(1, 5, ...)] and [axes.flatten()]: five axes. *)
Definition n_axes : nat := 5.

Section AgeHistplot.
Context `{Pandas}.
(** Python's [int] on a text, which [astype(int)] applies to each answer. *)
Context (int_of_text : string → option Z).

(** [df[(df["QuestionID"] == 1)
        & (pd.to_numeric(df["AnswerText"], errors="coerce").between(18, 64))]] *)
Definition age_df (df : SurveyTable) : SurveyTable :=
  filter (λ r, QuestionID r = 1 ∧ Store.working_age (AnswerText r) = true) df.

(** [age_df["SurveyID"].unique()] *)
Definition survey_years (df : SurveyTable) : list Z :=
  unique Z.eqb (map SurveyID (age_df df)).

(** [age_df[age_df["SurveyID"] == year]["AnswerText"].astype(int)]; [None]
    when [int] raises on one of the answers. *)
Definition year_ages (df : SurveyTable) (year : Z) : option (list Z) :=
  mapM (λ r, AnswerText r ≫= int_of_text)
       (filter (λ r, SurveyID r = year) (age_df df)).

(** The loop [for i, year in enumerate(survey_years)], from index [i] on:
    [ax = axes[i]], then the ages of the year. *)
Fixpoint histplot_loop (df : SurveyTable) (i : nat) (years : list Z)
  : drawing (list (Z * list Z)) :=
  match years with
  | [] => Drawn []
  | year :: rest =>
      if decide (i < n_axes)%nat then
        match year_ages df year with
        | None => Failed InvalidLiteral
        | Some data =>
            match histplot_loop df (S i) rest with
            | Drawn panels => Drawn ((year, data) :: panels)
            | Failed e => Failed e
            end
        end
      else Failed IndexError
  end.

(** The panels drawn: for each survey year its ages. *)
Definition create_age_histplot (df : SurveyTable) : drawing (list (Z * list Z)) :=
  histplot_loop df 0 (survey_years df).

End AgeHistplot.

(** Texts of decimal digits as integer literals, to run the model. *)
Definition int_literal (s : string) : option Z :=
  match s with
  | EmptyString => None
  | _ => Reference.parse_digits 0 s
  end.

(** Ages of three survey waves, one of them outside the working age and one
    that is no number. *)
Definition example_ages : SurveyTable :=
  [ answer 1 "25" 2016; answer 1 "40" 2014; answer 1 "64" 2016;
    answer 1 "17" 2016; answer 1 "n/a" 2017; answer 2 "30" 2016 ].

(** ** Bar labels of the distribution plot ([create_gender_barplot])

    The labels the function writes over the bars, the plotting calls before
    them being taken to return.  The text of a label is its percentage
    printed with one decimal; the label keeps the number. *)

Record BarLabel := {
  l_x : F64.float;
  l_y : nat;
  l_Percentage : F64.float
}.

(** The two loops over [enumerate] of the survey years and of the answers:
    for each pair whose [data] is not empty, the two indices and the first
    row of [data]. *)
Definition labelled_rows (rows : list DistributionRow)
  : list (nat * nat * DistributionRow) :=
  iy ← imap pair (unique Z.eqb (map d_SurveyID rows));
  jg ← imap pair (unique String.eqb (map d_AnswerText rows));
  match filter (λ r, d_SurveyID r = iy.2 ∧ d_AnswerText r = jg.2) rows with
  | [] => []
  | r :: _ => [(iy.1, jg.1, r)]
  end.

(** [plt.text(i + (j - 1) * category_width, data["Count"].iloc[0], ...)] *)
Definition bar_label (category_width : F64.float)
    (ijr : nat * nat * DistributionRow) : BarLabel :=
  {| l_x := F64.add (F64.of_nat ijr.1.1)
              (F64.mul (F64.of_Z (Z.of_nat ijr.1.2 - 1)) category_width);
     l_y := d_Count ijr.2;
     l_Percentage := d_Percentage ijr.2 |}.

(** [category_width = width / n_categories] with [width = 0.8] and the
    integer [n_categories = len(gender_counts["AnswerText"].unique())], then
    the labels. *)
Definition bar_labels (rows : list DistributionRow) : drawing (list BarLabel) :=
  let n_categories := length (unique String.eqb (map d_AnswerText rows)) in
  if decide (n_categories = 0%nat) then Failed ZeroDivisionError
  else
    let category_width := F64.div (F64.decimal 8 1) (F64.of_nat n_categories) in
    Drawn (map (bar_label category_width) (labelled_rows rows)).

Definition gender_barplot_labels (df : SurveyTable) : drawing (list BarLabel) :=
  bar_labels (create_gender_barplot df).

(** The group key of a row of the distribution table. *)
Definition row_key (r : DistributionRow) : Z * string :=
  (d_SurveyID r, d_AnswerText r).

(** ** Predicates of the statements *)

(** [same] is a test of equality, as [==] is on the integers and strings
    that [unique] and the [not in] test of the detector compare. *)
Definition decides_eq {A : Type} (same : A → A → bool) : Prop :=
  ∀ x y, same x y = true ↔ x = y.

(** The order [value_counts] leaves its rows in: counts do not increase. *)
Definition count_ge (a b : string * nat) : Prop := (b.2 ≤ a.2)%nat.

(** The answer texts of the ordinal mapping with their values. *)
Definition ordinal_scale : list (string * F64.float) :=
  [("Yes", binary_normalize 53 1024 1 0 false);
   ("Yes, all of them", binary_normalize 53 1024 1 0 false);
   ("No", S754_zero false);
   ("None of them", S754_zero false);
   ("Some did", binary_normalize 53 1024 1 (-1) false);
   ("Some of them", binary_normalize 53 1024 1 (-1) false);
   ("Maybe", binary_normalize 53 1024 1 (-1) false)].

(** * Properties *)

(** ** Lists built by [append_new] *)

Section AppendNew.
Context {A : Type} (same : A → A → bool).

Lemma elem_of_append_new acc x y :
  y ∈ append_new same acc x → y ∈ acc ∨ y = x.
Proof.
  unfold append_new. destruct (existsb _ _); [by left |].
  rewrite elem_of_app, list_elem_of_singleton. tauto.
Qed.

Lemma append_new_keeps acc x y : y ∈ acc → y ∈ append_new same acc x.
Proof.
  unfold append_new. destruct (existsb _ _); [done |].
  rewrite elem_of_app. tauto.
Qed.

Lemma fold_append_new_keeps l acc y :
  y ∈ acc → y ∈ fold_left (append_new same) l acc.
Proof.
  revert acc. induction l as [| x l IH]; intros acc Hy; simpl; [done |].
  by apply IH, append_new_keeps.
Qed.

Lemma elem_of_fold_append_new l acc y :
  y ∈ fold_left (append_new same) l acc → y ∈ acc ∨ y ∈ l.
Proof.
  revert acc. induction l as [| x l IH]; intros acc Hy; simpl in *; [by left |].
  apply IH in Hy as [Hy | Hy]; [| right; by constructor].
  apply elem_of_append_new in Hy as [Hy | ->]; [by left | right; constructor].
Qed.

(** Every element of the input has a representative in the result. *)
Lemma fold_append_new_covers l acc x :
  (∀ a, same a a = true) →
  x ∈ l → ∃ y, y ∈ fold_left (append_new same) l acc ∧ same x y = true.
Proof.
  intros Hrefl. revert acc. induction l as [| a l IH]; intros acc Hx; simpl.
  { by apply elem_of_nil in Hx. }
  apply elem_of_cons in Hx as [-> | Hx]; [| by apply IH].
  unfold append_new at 2. destruct (existsb (same a) acc) eqn:E.
  - apply existsb_exists in E as (y & Hy & Hs).
    exists y. split; [| done].
    apply fold_append_new_keeps. by apply list_elem_of_In.
  - exists a. split; [| done].
    apply fold_append_new_keeps. rewrite elem_of_app, list_elem_of_singleton. tauto.
Qed.

Lemma fold_append_new_app l1 l2 acc :
  fold_left (append_new same) (l1 ++ l2) acc
  = fold_left (append_new same) l2 (fold_left (append_new same) l1 acc).
Proof. apply fold_left_app. Qed.

End AppendNew.

(** When [same] decides equality the result lists every element once. *)
Section AppendNewEq.
Context {A : Type} (same : A → A → bool).

Lemma existsb_decides acc x :
  decides_eq same → existsb (same x) acc = true ↔ x ∈ acc.
Proof.
  intros Hs. rewrite existsb_exists. split.
  - intros (y & Hy & E). apply Hs in E as ->. by apply list_elem_of_In.
  - intros Hx. exists x. split; [by apply list_elem_of_In | by apply Hs].
Qed.

Lemma NoDup_append_new acc x :
  decides_eq same → NoDup acc → NoDup (append_new same acc x).
Proof.
  intros Hs Hnd. unfold append_new.
  destruct (existsb (same x) acc) eqn:E; [done |].
  apply NoDup_app. split_and!; [done | | apply NoDup_singleton].
  intros y Hy Hy'. apply list_elem_of_singleton in Hy' as ->.
  apply (existsb_decides acc x Hs) in Hy. congruence.
Qed.

Lemma NoDup_fold_append_new l acc :
  decides_eq same → NoDup acc → NoDup (fold_left (append_new same) l acc).
Proof.
  intros Hs. revert acc. induction l as [| x l IH]; intros acc Hnd; simpl; [done |].
  by apply IH, NoDup_append_new.
Qed.

Lemma elem_of_fold_append_new_iff l acc y :
  decides_eq same → y ∈ fold_left (append_new same) l acc ↔ y ∈ acc ∨ y ∈ l.
Proof.
  intros Hs. split; [apply elem_of_fold_append_new |].
  intros [Hy | Hy]; [by apply fold_append_new_keeps |].
  destruct (fold_append_new_covers same l acc y) as (z & Hz & E); [| done |].
  - intros a. by apply Hs.
  - by apply Hs in E as ->.
Qed.

Lemma NoDup_unique l : decides_eq same → NoDup (unique same l).
Proof. intros Hs. apply NoDup_fold_append_new; [done | constructor]. Qed.

Lemma elem_of_unique l y : decides_eq same → y ∈ unique same l ↔ y ∈ l.
Proof.
  intros Hs. unfold unique. rewrite elem_of_fold_append_new_iff by done.
  rewrite elem_of_nil. tauto.
Qed.

End AppendNewEq.

Lemma Z_eqb_decides : decides_eq Z.eqb.
Proof. intros x y. apply Z.eqb_eq. Qed.

Lemma String_eqb_decides : decides_eq String.eqb.
Proof. intros x y. apply String.eqb_eq. Qed.

Lemma key_eqb_decides : decides_eq key_eqb.
Proof.
  intros [a1 a2] [b1 b2]. unfold key_eqb. simpl.
  rewrite andb_true_iff, Z.eqb_eq, String.eqb_eq. split.
  - by intros [-> ->].
  - intros [= -> ->]. done.
Qed.

(** ** Comparisons and truncation of binary64 values *)

Lemma ltb_nan_l x : F64.ltb F64.nan x = false.
Proof. reflexivity. Qed.

Lemma ltb_nan_r x : F64.ltb x F64.nan = false.
Proof. by destruct x as [[] | [] | | [] ? ?]. Qed.

Lemma SFcompare_refl x : x ≠ S754_nan → SFcompare x x = Some Eq.
Proof.
  destruct x as [[] | [] | | [] m e]; try done; intros _; simpl;
    rewrite Z.compare_refl, Pos.compare_cont_refl; done.
Qed.


Lemma key_eqb_refl x : F64.key_eqb x x = true.
Proof.
  unfold F64.key_eqb, F64.eqb, SFeqb.
  destruct x as [s | s | | s m e]; try done.
  all: by rewrite SFcompare_refl.
Qed.





(** ** Outlier detector *)

Section OutlierFacts.
Context `{Pandas}.


(** A missing cell is never flagged. *)
Lemma is_outlier_not_nan col v : is_outlier col v = true → F64.is_nan v = false.
Proof.
  destruct v; try done. unfold is_outlier.
  change S754_nan with F64.nan. by rewrite ltb_nan_l, ltb_nan_r.
Qed.

Lemma elem_of_feature_outliers col v :
  v ∈ feature_outliers col ↔ v ∈ col ∧ is_outlier col v = true.
Proof. unfold feature_outliers. rewrite list_elem_of_filter. tauto. Qed.




(** A run over [fs1 ++ fs2] is a run over [fs1] followed, unless it raised,
    by a run over [fs2]. *)
Lemma loop_app df fs1 fs2 acc log :
  find_outliers_loop df (fs1 ++ fs2) acc log
  = match find_outliers_loop df fs1 acc log with
    | (log', Returned acc') => find_outliers_loop df fs2 acc' log'
    | r => r
    end.
Proof.
  revert acc log. induction fs1 as [| f fs1 IH]; intros acc log; simpl; [done |].
  destruct (df !! f) as [col |]; [| apply IH].
  destruct (feature_outliers_unique col); [apply IH | done].
Qed.



End OutlierFacts.

Section OutlierRaises.
Context `{Pandas}.





End OutlierRaises.








(** ** Answer coercion *)

Lemma map_value_scale (s : string) (v : F64.float) :
  (s, v) ∈ ordinal_scale → map_value (Text s) = Some v.
Proof.
  intros Hin.
  repeat (apply elem_of_cons in Hin as [[= -> ->] | Hin]; [by vm_compute |]).
  by apply elem_of_nil in Hin.
Qed.

Lemma map_value_cases (c : cell) :
  (∃ s v, c = Text s ∧ (s, v) ∈ ordinal_scale ∧ map_value c = Some v)
  ∨ ((∀ s v, (s, v) ∈ ordinal_scale → c ≠ Text s) ∧ map_value c = None).
Proof.
  destruct c as [z | x | s |]; try (right; split; [by intros | done]).
  unfold map_value, dict_get.
  destruct (text_to_num_mapping !! Some s) as [[v |] |] eqn:E.
  - left. exists s, v. split; [done |]. split; [| done].
    unfold text_to_num_mapping in E. apply elem_of_list_to_map_2 in E.
    repeat (apply elem_of_cons in E as [E | E];
            [simplify_eq; repeat (first [by left | right]) |]).
    by apply elem_of_nil in E.
  - right. split; [| done]. intros s' v Hin [= <-].
    apply map_value_scale in Hin. unfold map_value, dict_get in Hin.
    by rewrite E in Hin.
  - right. split; [| done]. intros s' v Hin [= <-].
    apply map_value_scale in Hin. unfold map_value, dict_get in Hin.
    by rewrite E in Hin.
Qed.

Lemma scale_values (s : string) (v : F64.float) :
  (s, v) ∈ ordinal_scale →
  v = binary_normalize 53 1024 1 0 false ∨ v = S754_zero false
  ∨ v = binary_normalize 53 1024 1 (-1) false.
Proof.
  intros Hin.
  repeat (apply elem_of_cons in Hin as [[= -> ->] | Hin]; [by auto |]).
  by apply elem_of_nil in Hin.
Qed.

Lemma in_int64_iff z : in_int64 z = true ↔ - 2 ^ 63 ≤ z < 2 ^ 63.
Proof. unfold in_int64. rewrite andb_true_iff, Z.leb_le, Z.ltb_lt. done. Qed.

Lemma forallb_false {A} (f : A → bool) (l : list A) :
  forallb f l = false → ∃ x, x ∈ l ∧ f x = false.
Proof.
  induction l as [| a l IH]; [done |]. simpl. intros E.
  apply andb_false_iff in E as [E | E].
  - exists a. split; [by left | done].
  - destruct (IH E) as (x & Hx & Hf). exists x. split; [by right | done].
Qed.

(** [convert_dtypes] gives [Float64] exactly when a cell maps to one half. *)
Lemma convert_dtypes_Float64 (col : list cell) :
  convert_dtypes (map map_value col) = Float64
  ↔ ∃ s, Text s ∈ col ∧ (s, binary_normalize 53 1024 1 (-1) false) ∈ ordinal_scale.
Proof.
  unfold convert_dtypes.
  destruct (forallb _ _) eqn:E.
  - split; [done |]. intros (s & Hs & Hin). exfalso.
    rewrite forallb_forall in E.
    apply list_elem_of_In, (in_map map_value) in Hs. apply E in Hs.
    by rewrite (map_value_scale _ _ Hin) in Hs.
  - split; [intros _ | done].
    apply forallb_false in E as (v & Hv & Hw).
    apply list_elem_of_In, in_map_iff in Hv as (c & <- & Hc%list_elem_of_In).
    destruct (map_value_cases c) as [(s & v & -> & Hin & Hm) | [_ Hm]];
      rewrite Hm in Hw; [| done].
    exists s. split; [done |].
    destruct (scale_values _ _ Hin) as [-> | [-> | ->]]; [done .. | done].
Qed.

Lemma mapM_zip_map {A B C} (f : A → B) (g : B * A → option C) (l : list A) :
  mapM g (zip (map f l) l) = mapM (λ x, g (f x, x)) l.
Proof. induction l as [| a l IH]; [done |]. simpl. by rewrite IH. Qed.




Section FillFacts.
Context `{Builtins}.

(** A cell of a column that [convert_dtypes] made [Int64]. *)
Lemma int64_cell (c r : cell) :
  let one := binary_normalize 53 1024 1 0 false in
  let half := binary_normalize 53 1024 1 (-1) false in
  let zero := S754_zero false in
  let scale := [("Yes", one); ("Yes, all of them", one); ("No", zero);
                ("None of them", zero); ("Some did", half);
                ("Some of them", half); ("Maybe", half)] in
  let fl := λ z : Z, binary_normalize 53 1024 z 0 false in
  let int64 := λ z : Z, - 2 ^ 63 ≤ z < 2 ^ 63 in
  let truncated := λ (v : F64.float) (z : Z),
    match v with
    | S754_zero _ => z = 0
    | S754_finite s m e => z = cond_Zopp s (Z.shiftl (Zpos m) e)
    | S754_infinity _ | S754_nan => False
    end in
  let is_key := λ c : cell, ∃ s v, c = Text s ∧ (s, v) ∈ scale in
  let missing := λ c : cell, c = Null ∨ c = Num S754_nan in
  ¬ (∃ s, c = Text s ∧ (s, half) ∈ scale) →
  match map_value c with
  | Some v => Int <$> F64.to_int v
  | None => store_int64 c
  end = Some r
  ↔ (∃ s, c = Text s ∧ (s, one) ∈ scale ∧ r = Int 1)
    ∨ (∃ s, c = Text s ∧ (s, zero) ∈ scale ∧ r = Int 0)
    ∨ (¬ is_key c
       ∧ ((missing c ∧ r = Null)
          ∨ (∃ z, c = Int z ∧ int64 z ∧ r = Int z)
          ∨ (∃ x z, c = Num x ∧ truncated x z ∧ SFeqb (fl z) x = true
                    ∧ int64 z ∧ r = Int z)
          ∨ (∃ s z, c = Text s ∧ int_of_str s = Some z ∧ int64 z ∧ r = Int z))).
Proof.
  cbv zeta. fold ordinal_scale. intros Hnh.
  destruct (map_value_cases c) as [(s & v & -> & Hin & Hm) | [Hk Hm]]; rewrite Hm.
  - assert (Hv : ∀ v', (s, v') ∈ ordinal_scale → v' = v).
    { intros v' Hin'. apply map_value_scale in Hin'. congruence. }
    assert (Hkey : ∃ s' v', Text s = Text s' ∧ (s', v') ∈ ordinal_scale)
      by (by exists s, v).
    destruct (scale_values _ _ Hin) as [-> | [-> | ->]].
    + change (Int <$> F64.to_int (binary_normalize 53 1024 1 0 false))
        with (Some (Int 1)).
      split.
      * intros [= <-]. left. by exists s.
      * intros [(s' & [= <-] & _ & ->) | [(s' & [= <-] & Hz & ->) | [Hnk _]]];
          [done | by apply Hv in Hz | done].
    + change (Int <$> F64.to_int (S754_zero false)) with (Some (Int 0)).
      split.
      * intros [= <-]. right. left. by exists s.
      * intros [(s' & [= <-] & Ho & ->) | [(s' & [= <-] & _ & ->) | [Hnk _]]];
          [by apply Hv in Ho | done | done].
    + exfalso. apply Hnh. by exists s.
  - assert (Hnk : ¬ ∃ s v, c = Text s ∧ (s, v) ∈ ordinal_scale).
    { intros (s & v & -> & Hin). by apply (Hk s v). }
    split.
    + intros Hs. right. right. split; [done |].
      destruct c as [z | x | s |]; simpl in Hs.
      * destruct (in_int64 z) eqn:Ez; [| done]. apply in_int64_iff in Ez.
        injection Hs as <-. right. left. by exists z.
      * destruct x as [sx | sx | | sx m e]; simpl in Hs.
        -- injection Hs as <-.
           right. right. left. exists (S754_zero sx), 0. by split_and!.
        -- done.
        -- injection Hs as <-. left. split; [by right | done].
        -- destruct (F64.eqb _ _) eqn:Ee; [| done].
           destruct (in_int64 _) eqn:Ez; [| done]. apply in_int64_iff in Ez.
           injection Hs as <-. right. right. left.
           exists (S754_finite sx m e), (cond_Zopp sx (Z.shiftl (Z.pos m) e)).
           split_and!; [done | done | exact Ee | lia | lia | done].
      * destruct (int_of_str s) as [z |] eqn:Es; [| done].
        destruct (in_int64 z) eqn:Ez; [| done]. apply in_int64_iff in Ez.
        injection Hs as <-. right. right. right. by exists s, z.
      * injection Hs as <-. left. split; [by left | done].
    + intros [(s & -> & Hin & _) | [(s & -> & Hin & _) | [_ Hc]]];
        [by destruct (Hk _ _ Hin) .. |].
      destruct Hc as [[[-> | ->] ->] | [(z & -> & Hz & ->) | [(x & z & -> & Ht & He & Hz & ->) | (s & z & -> & Hs & Hz & ->)]]];
        try done.
      * simpl. apply in_int64_iff in Hz. by rewrite Hz.
      * apply in_int64_iff in Hz.
        destruct x as [sx | sx | | sx m e]; try done; simpl in Ht; subst z; simpl.
        -- done.
        -- unfold F64.eqb, F64.of_Z, F64.prec, F64.emax. by rewrite He, Hz.
      * simpl. apply in_int64_iff in Hz. by rewrite Hs, Hz.
Qed.

(** A cell of a column that [convert_dtypes] made [Float64]. *)
Lemma float64_cell (c r : cell) :
  let one := binary_normalize 53 1024 1 0 false in
  let half := binary_normalize 53 1024 1 (-1) false in
  let zero := S754_zero false in
  let scale := [("Yes", one); ("Yes, all of them", one); ("No", zero);
                ("None of them", zero); ("Some did", half);
                ("Some of them", half); ("Maybe", half)] in
  let fl := λ z : Z, binary_normalize 53 1024 z 0 false in
  let is_key := λ c : cell, ∃ s v, c = Text s ∧ (s, v) ∈ scale in
  let missing := λ c : cell, c = Null ∨ c = Num S754_nan in
  match map_value c with
  | Some v => Some (Num v)
  | None => store_float64 c
  end = Some r
  ↔ (∃ s v, c = Text s ∧ (s, v) ∈ scale ∧ r = Num v)
    ∨ (¬ is_key c
       ∧ ((missing c ∧ r = Null)
          ∨ (∃ z, c = Int z
                  ∧ match fl z with
                    | S754_zero _ | S754_finite _ _ _ => True
                    | S754_infinity _ | S754_nan => False
                    end
                  ∧ r = Num (fl z))
          ∨ (∃ x, c = Num x ∧ x ≠ S754_nan ∧ r = Num x)
          ∨ (∃ s x, c = Text s ∧ float_of_str s = Some x ∧ r = Num x))).
Proof.
  cbv zeta. fold ordinal_scale.
  destruct (map_value_cases c) as [(s & v & -> & Hin & Hm) | [Hk Hm]]; rewrite Hm.
  - split.
    + intros [= <-]. left. by exists s, v.
    + intros [(s' & v' & [= <-] & Hin' & ->) | [Hnk _]].
      * apply map_value_scale in Hin'. congruence.
      * destruct Hnk. by exists s, v.
  - assert (Hnk : ¬ ∃ s v, c = Text s ∧ (s, v) ∈ ordinal_scale).
    { intros (s & v & -> & Hin). by apply (Hk s v). }
    split.
    + intros Hs. right. split; [done |].
      destruct c as [z | x | s |]; cbn [store_float64] in Hs.
      * destruct (F64.is_finite (F64.of_Z z)) eqn:Ez; [| done].
        injection Hs as <-. right. left. exists z. split; [done |].
        split; [| done]. unfold F64.of_Z, F64.prec, F64.emax in Ez.
        by destruct (binary_normalize 53 1024 z 0 false).
      * destruct (F64.is_nan x) eqn:Ex; injection Hs as <-.
        -- left. destruct x; try done. split; [by right | done].
        -- right. right. left. exists x. split; [done |]. split; [| done].
           by intros ->.
      * destruct (float_of_str s) as [x |] eqn:Es; [| done].
        injection Hs as <-. right. right. right. by exists s, x.
      * injection Hs as <-. left. split; [by left | done].
    + intros [(s & v & -> & Hin & _) | [_ Hc]]; [by destruct (Hk _ _ Hin) |].
      destruct Hc as [[[-> | ->] ->] | [(z & -> & Hz & ->) | [(x & -> & Hx & ->) | (s & x & -> & Hs & ->)]]];
        try done.
      * cbn [store_float64]. unfold F64.of_Z, F64.prec, F64.emax.
        by destruct (binary_normalize 53 1024 z 0 false).
      * cbn [store_float64]. by destruct x.
      * cbn [store_float64]. by rewrite Hs.
Qed.


End FillFacts.

Section CoercionFacts.
Context `{Pandas} `{Builtins}.

(** The column after line 249, cell by cell. *)
Lemma coerce_column_Some (col out : list cell) :
  coerce_column col = Some out
  ↔ match convert_dtypes (map map_value col) with
    | Int64 =>
        existsb is_text (fill_values (map map_value col) col)
        && existsb is_number (fill_values (map map_value col) col) = false
        ∧ Forall2 (λ c r, match map_value c with
                          | Some v => Int <$> F64.to_int v
                          | None => store_int64 c
                          end = Some r) col out
    | Float64 =>
        Forall2 (λ c r, match map_value c with
                        | Some v => Some (Num v)
                        | None => store_float64 c
                        end = Some r) col out
    end.
Proof.
  unfold coerce_column, fillna.
  destruct (convert_dtypes (map map_value col)).
  - destruct (existsb is_text _ && existsb is_number _).
    + split; [done | by intros [? _]].
    + rewrite mapM_zip_map, mapM_Some. simpl. by intuition.
  - by rewrite mapM_zip_map, mapM_Some.
Qed.

(** No text is left in a coerced column, and its cells are of one kind:
    whole numbers of 64 bits, or floats. *)
Lemma coerce_column_dtype (col out : list cell) :
  coerce_column col = Some out →
  Forall (λ r, (∃ z, r = Int z ∧ - 2 ^ 63 ≤ z < 2 ^ 63) ∨ r = Null) out
  ∨ Forall (λ r, (∃ x, r = Num x) ∨ r = Null) out.
Proof.
  intros Hc. apply coerce_column_Some in Hc.
  destruct (convert_dtypes (map map_value col)) eqn:Ed.
  - left. destruct Hc as [_ Hc].
    assert (Hnf : ∀ c, c ∈ col →
              ¬ ∃ s, c = Text s
                     ∧ (s, binary_normalize 53 1024 1 (-1) false) ∈ ordinal_scale).
    { intros c Hin (s & -> & Hs).
      assert (convert_dtypes (map map_value col) = Float64); [| congruence].
      apply convert_dtypes_Float64. by exists s. }
    clear Ed. induction Hc as [| c r col out Hr _ IH]; [constructor |].
    constructor.
    + apply int64_cell in Hr; [| apply Hnf; by left]. cbv zeta in Hr.
      destruct Hr as [(s & _ & _ & ->) | [(s & _ & _ & ->) | [_ Hr]]].
      * left. exists 1. split; [done | lia].
      * left. exists 0. split; [done | lia].
      * destruct Hr as [[_ ->] | [(z & _ & Hz & ->) | [(x & z & _ & _ & _ & Hz & ->) | (s & z & _ & _ & Hz & ->)]]];
          [by right | left; exists z; by split ..].
    + apply IH. intros c' Hc'. apply Hnf. by right.
  - right. clear Ed. induction Hc as [| c r col out Hr _ IH]; constructor; [| done].
    apply float64_cell in Hr. cbv zeta in Hr.
    destruct Hr as [(s & v & _ & _ & ->) | [_ Hr]]; [left; by exists v |].
    destruct Hr as [[_ ->] | [(z & _ & _ & ->) | [(x & _ & _ & ->) | (s & x & _ & _ & ->)]]];
      [by right | left; by eexists ..].
Qed.

(** The second pass, [pd.to_numeric], finds nothing to parse. *)
Lemma to_numeric_coerced (col out : list cell) :
  coerce_column col = Some out → map to_numeric_cell out = out.
Proof.
  intros Hc. apply coerce_column_dtype in Hc.
  assert (Hn : Forall (λ r, to_numeric_cell r = r) out).
  { destruct Hc as [Hc | Hc]; eapply Forall_impl; try exact Hc;
      intros r [(? & -> & ?) | ->] || intros r [(? & ->) | ->]; done. }
  clear Hc. induction Hn as [| r out Hr _ IH]; [done |].
  cbn [map]. by rewrite Hr, IH.
Qed.

(** The frame after the loop: each column coerced, under its name. *)
Lemma coerced_frame_Some (df df1 : Frame) :
  coerced_frame df = Some df1
  ↔ NoDup (map fst df)
    ∧ Forall2 (λ c r, r.1 = c.1 ∧ coerce_column c.2 = Some r.2) df df1.
Proof.
  unfold coerced_frame, Frame in *.
  destruct (decide (NoDup (map fst df))) as [Hnd | Hnd]; [| by split; [| intros [? _]]].
  rewrite mapM_Some. split.
  - intros Hf. split; [done |]. eapply Forall2_impl; [exact Hf |].
    intros c r Hr. simpl in Hr. destruct (coerce_column c.2); [| done].
    by injection Hr as <-.
  - intros [_ Hf]. eapply Forall2_impl; [exact Hf |].
    intros c [name values] [Hn Hc]. simpl in *. rewrite Hc. simpl. by rewrite Hn.
Qed.

Lemma to_numeric_coerced_frame (df df1 : Frame) :
  coerced_frame df = Some df1 →
  map (λ c : string * list cell, (c.1, map to_numeric_cell c.2)) df1 = df1.
Proof.
  intros [_ Hf]%coerced_frame_Some.
  induction Hf as [| c r df' df1' [_ Hc] _ IH]; [done |].
  cbn [map]. rewrite (to_numeric_coerced _ _ Hc), IH. by destruct r.
Qed.

(** The frame handed to [corr()] is the frame after the loop. *)
Lemma create_correlation_heatmap_coerced (df : Frame) :
  create_correlation_heatmap df = coerced_frame df.
Proof.
  unfold create_correlation_heatmap.
  destruct (coerced_frame df) as [df1 |] eqn:E; [| done]. simpl.
  by rewrite (to_numeric_coerced_frame df df1).
Qed.

Lemma create_correlation_heatmap_Some (df out : Frame) :
  create_correlation_heatmap df = Some out
  ↔ NoDup (map fst df)
    ∧ Forall2 (λ c r, r.1 = c.1 ∧ coerce_column c.2 = Some r.2) df out.
Proof. rewrite create_correlation_heatmap_coerced. apply coerced_frame_Some. Qed.

End CoercionFacts.





(** ** Violin comparison *)

Section ViolinFacts.
Context `{Pandas}.



End ViolinFacts.


(** ** The caller's table is not changed *)

Module StoreFacts.
Import Store.

Lemma wa_ret {A} n (a : A) (Q : A → Prop) : Q a → writes_above n (mret a) Q.
Proof. intros HQ σ Hn. split_and!; try done. by intros ? [= <-]. Qed.

Lemma wa_raise {A} n (Q : A → Prop) : writes_above n raise Q.
Proof. intros σ Hn. by split_and!. Qed.

Lemma wa_bind {A B} n (m : M A) (k : A → M B) Q R :
  writes_above n m Q →
  (∀ a, Q a → writes_above n (k a) R) →
  writes_above n (m ≫= k) R.
Proof.
  intros Hm Hk σ Hn. destruct (Hm σ Hn) as (Ht & Hl & HQ).
  unfold mbind, M_bind. destruct (m σ) as [[a |] σ'] eqn:E; simpl in *.
  - destruct (Hk a (HQ a eq_refl) σ' Hl) as (Ht' & Hl' & HR).
    split_and!; try done. by rewrite Ht'.
  - by split_and!.
Qed.

Lemma wa_weaken {A} n (m : M A) (Q R : A → Prop) :
  writes_above n m Q → (∀ a, Q a → R a) → writes_above n m R.
Proof.
  intros Hm HQR σ Hn. destruct (Hm σ Hn) as (Ht & Hl & HQ).
  split_and!; try done. intros a Ha. by apply HQR, HQ.
Qed.

(** A new object lies above every object there is. *)
Lemma wa_alloc n o : writes_above n (alloc o) (λ l, (n ≤ l)%nat).
Proof.
  intros σ Hn. unfold alloc. simpl. split_and!.
  - by rewrite take_app_le.
  - rewrite length_app. lia.
  - by intros ? [= <-].
Qed.

Lemma wa_read n l : writes_above n (read l) (λ _, True).
Proof. intros σ Hn. by split_and!. Qed.

(** A write to an object above [n] leaves the first [n] as they are. *)
Lemma wa_write n l o : (n ≤ l)%nat → writes_above n (write l o) (λ _, True).
Proof.
  intros Hl σ Hn. change ((write l o σ).2) with (<[l := o]> σ).
  split_and!; [by apply take_insert_ge | by rewrite length_insert | done].
Qed.

Lemma wa_read_survey n l : writes_above n (read_survey l) (λ _, True).
Proof.
  eapply wa_bind; [apply wa_read |]. intros [] _; (apply wa_raise || by apply wa_ret).
Qed.

Lemma wa_read_columns n l : writes_above n (read_columns l) (λ _, True).
Proof.
  eapply wa_bind; [apply wa_read |]. intros [] _; (apply wa_raise || by apply wa_ret).
Qed.

Lemma wa_assign n x name values :
  (n ≤ x)%nat → writes_above n (assign x name values) (λ _, True).
Proof.
  intros Hx. eapply wa_bind; [apply wa_read_columns |].
  intros t _. by apply wa_write.
Qed.

Lemma wa_for_each {A} n (l : list A) (body : A → M unit) :
  (∀ a, writes_above n (body a) (λ _, True)) →
  writes_above n (for_each l body) (λ _, True).
Proof.
  intros Hbody. induction l as [| a l IH]; simpl; [by apply wa_ret |].
  eapply wa_bind; [apply Hbody |]. by intros.
Qed.

Lemma wa_mapM {A B} n (f : A → M B) (l : list A) :
  (∀ a, writes_above n (f a) (λ _, True)) →
  writes_above n (mapM f l) (λ _, True).
Proof.
  intros Hf. induction l as [| a l IH]; simpl; [by apply wa_ret |].
  eapply wa_bind; [apply Hf |]. intros b _.
  eapply wa_bind; [apply IH |]. intros bs _. by apply wa_ret.
Qed.

Ltac wa_step :=
  first
    [ apply wa_raise
    | apply wa_ret; done
    | apply wa_assign; assumption
    | eapply wa_bind;
      [ first [ apply wa_read_survey | apply wa_read_columns | apply wa_read
              | apply wa_alloc | apply wa_assign; assumption ]
      | intros ? ? ] ].

Section ComponentFacts.
Context `{Pandas} `{Builtins}.

Lemma wa_find_outliers n df features :
  writes_above n (find_outliers df features) (λ _, True).
Proof.
  wa_step. destruct a; try wa_step.
  match goal with
  | |- context [match ?r with Returned _ => _ | Raised _ => _ end] => destruct r
  end; wa_step.
Qed.

Lemma wa_create_age_histplot n df :
  writes_above n (create_age_histplot df) (λ _, True).
Proof.
  wa_step. eapply wa_weaken; [apply wa_alloc | done].
Qed.

Lemma wa_create_gender_barplot n df :
  writes_above n (create_gender_barplot df) (λ _, True).
Proof. unfold create_gender_barplot. repeat wa_step. Qed.

Lemma wa_create_lineplot n df questions :
  writes_above n (create_lineplot df questions) (λ _, True).
Proof.
  wa_step. apply wa_mapM. intros q. repeat wa_step.
  eapply wa_weaken; [apply wa_alloc | done].
Qed.

Lemma wa_create_prevalence_barplot n df q1 q2 :
  writes_above n (create_prevalence_barplot df q1 q2) (λ _, True).
Proof. unfold create_prevalence_barplot. repeat wa_step. Qed.

Lemma wa_create_correlation_heatmap n df :
  writes_above n (create_correlation_heatmap df) (λ _, True).
Proof.
  wa_step. wa_step.
  eapply wa_bind.
  { apply wa_for_each. intros col. unfold coerce_in_place. wa_step.
    case_decide; [| apply wa_raise].
    destruct (coerce_column _); [by apply wa_assign | apply wa_raise]. }
  intros _ _. wa_step. eapply wa_weaken; [apply wa_alloc | done].
Qed.

Lemma wa_create_violin_subplots n pairs labels df :
  writes_above n (create_violin_subplots pairs labels df) (λ _, True).
Proof.
  wa_step. destruct a, pairs; try wa_step.
  apply wa_mapM. intros pair.
  destruct (mapM _ (value_vars pair)); [| apply wa_raise].
  wa_step. wa_step.
  eapply wa_bind; [destruct (all_isnumeric _); by apply wa_assign |].
  intros _ _. wa_step.
Qed.

Lemma wa_run n c df : writes_above n (run c df) (λ _, True).
Proof.
  destruct c; simpl; (eapply wa_bind; [| intros ? ?; by apply wa_ret]).
  - apply wa_find_outliers.
  - apply wa_create_age_histplot.
  - apply wa_create_gender_barplot.
  - apply wa_create_lineplot.
  - apply wa_create_prevalence_barplot.
  - apply wa_create_correlation_heatmap.
  - apply wa_create_violin_subplots.
Qed.

(** A call on a reference that names no object raises at once. *)
Lemma run_dangling c df σ : σ !! df = None → (run c df σ).2 = σ.
Proof.
  intros Hdf.
  destruct c; simpl;
    unfold find_outliers, create_age_histplot, create_gender_barplot,
      create_lineplot, create_prevalence_barplot, create_correlation_heatmap,
      create_violin_subplots, read_survey, read_columns, read, mbind, M_bind;
    by rewrite Hdf.
Qed.

(** C9.  Whatever function is called on the caller's table, with whatever
    arguments and in whatever store, the object the caller passed holds
    afterwards what it held before, and so does every other object that
    existed before the call: the store after the call is the store before
    it followed by the objects the call created. *)
Theorem caller_table_unchanged (c : call) (df : loc) (σ : heap) :
  (run c df σ).2 !! df = σ !! df ∧ σ `prefix_of` (run c df σ).2.
Proof.
  destruct (wa_run (length σ) c df σ) as (Ht & Hl & _); [done |].
  rewrite firstn_all in Ht.
  assert (Hp : σ `prefix_of` (run c df σ).2).
  { exists (drop (length σ) (run c df σ).2).
    rewrite <- (take_drop (length σ) (run c df σ).2) at 1. by rewrite Ht. }
  split; [| done].
  destruct (σ !! df) as [o |] eqn:E.
  - by apply (prefix_lookup_Some _ _ _ _ E).
  - by rewrite run_dangling.
Qed.

End ComponentFacts.

End StoreFacts.

(** ** Prevalence estimator: what the caller can choose *)

Lemma filter_none {A} (P : A → Prop) `{∀ x, Decision (P x)} (l : list A) :
  Forall (λ x, ¬ P x) l → filter P l = [].
Proof.
  induction 1 as [| x l Hx _ IH]; [done |].
  by rewrite filter_cons, decide_False.
Qed.

Lemma respondents_in_example q1 :
  respondents_in 2016 example_survey q1
  = if decide (q1 = 1) then 2%nat else if decide (q1 = 2) then 3%nat else 0%nat.
Proof.
  repeat case_decide; subst; try reflexivity.
  unfold respondents_in.
  assert (filter (λ r, QuestionID r = q1 ∧ SurveyID r = 2016) example_survey = [])
    as ->; [| done].
  apply filter_none. repeat constructor; simpl; lia.
Qed.

Lemma answers_of_example q2 :
  answers_of example_survey q2
  = if decide (q2 = 1) then [Some "yes"; Some "no"; Some "yes"]
    else if decide (q2 = 2) then [Some "Anxiety"; Some "Anxiety"; Some "Mood"]
    else [].
Proof.
  repeat case_decide; subst; try reflexivity.
  unfold answers_of.
  assert (filter (λ r, QuestionID r = q2) example_survey = []) as ->; [| done].
  apply filter_none. repeat constructor; simpl; lia.
Qed.

(** The claim that the survey wave, the number of categories and the
    confidence multiplier are arguments fails: on [example_survey] no call
    of [create_prevalence_barplot] yields the estimates for the wave 2017,
    none the estimate of the single most frequent category, and none the
    estimates with the multiplier 1.96. *)
Lemma prevalence_parameters_fixed :
  (∀ q1 q2, create_prevalence_barplot example_survey q1 q2
            ≠ prevalence_estimator_spec example_survey 1 2 2017 3 z_90)
  ∧ (∀ q1 q2, create_prevalence_barplot example_survey q1 q2
              ≠ prevalence_estimator_spec example_survey 1 2 2016 1 z_90)
  ∧ (∀ q1 q2, create_prevalence_barplot example_survey q1 q2
              ≠ prevalence_estimator_spec example_survey 1 2 2016 3
                  (F64.decimal 196 2)).
Proof.
  split_and!; intros q1 q2; unfold create_prevalence_barplot;
    rewrite respondents_in_example, answers_of_example;
    repeat case_decide; vm_compute; discriminate.
Qed.

Lemma filter_app_none {A} (P : A → Prop) `{∀ x, Decision (P x)} (l k : list A) :
  Forall (λ x, ¬ P x) k → filter P (l ++ k) = filter P l.
Proof. intros Hk. by rewrite filter_app, (filter_none P k Hk), app_nil_r. Qed.

(** C3 (amended).  The estimator takes the table and the two question ids;
    the survey wave, the number of categories and the confidence multiplier
    are the constants 2016, 3 and 1.6456 of the source: every call yields
    the estimates the specification defines for these three values, at most
    three of them, and rows of other waves that do not answer the target
    question change nothing. *)
Theorem prevalence_fixed_parameters (df : SurveyTable) (q1 q2 : Z) :
  create_prevalence_barplot df q1 q2
  = prevalence_estimator_spec df q1 q2 2016 3 (F64.decimal 16456 4)
  ∧ (length (create_prevalence_barplot df q1 q2) ≤ 3)%nat
  ∧ ∀ other : SurveyTable,
      Forall (λ r, SurveyID r ≠ 2016 ∧ QuestionID r ≠ q2) other →
      create_prevalence_barplot (df ++ other) q1 q2
      = create_prevalence_barplot df q1 q2.
Proof.
  split_and!.
  - reflexivity.
  - unfold create_prevalence_barplot. rewrite length_map, length_take. lia.
  - intros other Hother.
    unfold create_prevalence_barplot, respondents_in, answers_of, SurveyTable.
    rewrite !filter_app_none; [done | |];
      (eapply Forall_impl; [exact Hother |]); intros r [Hw Hq]; tauto.
Qed.

(** ** Rounding in binary64: integer facts *)

Lemma digits2_pos_bounds p :
  2 ^ (Zpos (digits2_pos p) - 1) ≤ Zpos p < 2 ^ Zpos (digits2_pos p).
Proof.
  induction p as [p IH | p IH |]; simpl digits2_pos; [| | simpl; lia].
  - rewrite Pos2Z.inj_succ.
    replace (Z.succ (Zpos (digits2_pos p)) - 1) with (Z.succ (Zpos (digits2_pos p) - 1)) by lia.
    rewrite !Z.pow_succ_r by lia. lia.
  - rewrite Pos2Z.inj_succ.
    replace (Z.succ (Zpos (digits2_pos p)) - 1) with (Z.succ (Zpos (digits2_pos p) - 1)) by lia.
    rewrite !Z.pow_succ_r by lia. lia.
Qed.

Lemma Zdigits2_bounds m :
  0 < m → 2 ^ (Zdigits2 m - 1) ≤ m < 2 ^ Zdigits2 m.
Proof. destruct m as [| p | p]; try lia. intros _. apply digits2_pos_bounds. Qed.

Lemma Zdigits2_pos m : 0 < m → 0 < Zdigits2 m.
Proof. destruct m; simpl; lia. Qed.

(** The number of digits is determined by the power-of-two bracket. *)
Lemma Zdigits2_unique m k :
  0 < k → 2 ^ (k - 1) ≤ m < 2 ^ k → Zdigits2 m = k.
Proof.
  intros Hk Hm. assert (0 < m) by (pose proof (Z.pow_pos_nonneg 2 (k - 1)); lia).
  pose proof (Zdigits2_bounds m H) as Hd. pose proof (Zdigits2_pos m H) as Hp.
  destruct (Z.lt_trichotomy (Zdigits2 m) k) as [Hlt | [Heq | Hgt]]; [| done |].
  - assert (2 ^ Zdigits2 m ≤ 2 ^ (k - 1)) by (apply Z.pow_le_mono_r; lia). lia.
  - assert (2 ^ k ≤ 2 ^ (Zdigits2 m - 1)) by (apply Z.pow_le_mono_r; lia). lia.
Qed.

Lemma shr_1_m mrs : 0 ≤ shr_m mrs → shr_m (shr_1 mrs) = shr_m mrs / 2.
Proof.
  destruct mrs as [m r s]. cbn [shr_m shr_1]. intros Hm.
  destruct m as [| [p | p |] | p]; cbn [shr_m]; try lia; try reflexivity.
  - apply Z.div_unique with 1; lia.
  - apply Z.div_unique with 0; lia.
Qed.

Lemma pow2_xI p : 2 ^ Zpos p~1 = 2 * (2 ^ Zpos p * 2 ^ Zpos p).
Proof.
  replace (Zpos p~1) with (1 + Zpos p + Zpos p) by lia.
  rewrite !Z.pow_add_r by lia. lia.
Qed.

Lemma pow2_xO p : 2 ^ Zpos p~0 = 2 ^ Zpos p * 2 ^ Zpos p.
Proof.
  replace (Zpos p~0) with (Zpos p + Zpos p) by lia.
  by rewrite !Z.pow_add_r by lia.
Qed.

Lemma iter_pos_shr_1 p mrs :
  0 ≤ shr_m mrs → shr_m (SpecFloat.iter_pos shr_1 p mrs) = shr_m mrs / 2 ^ Zpos p.
Proof.
  revert mrs. induction p as [p IH | p IH |]; intros mrs Hm; simpl SpecFloat.iter_pos.
  - assert (0 < 2 ^ Zpos p) by (apply Z.pow_pos_nonneg; lia).
    assert (0 ≤ shr_m (shr_1 mrs)) by (rewrite shr_1_m by done; apply Z.div_pos; lia).
    assert (0 ≤ shr_m (SpecFloat.iter_pos shr_1 p (shr_1 mrs)))
      by (rewrite IH by done; apply Z.div_pos; lia).
    rewrite !IH, shr_1_m by done.
    rewrite !Z.div_div by lia. by rewrite pow2_xI.
  - assert (0 < 2 ^ Zpos p) by (apply Z.pow_pos_nonneg; lia).
    assert (0 ≤ shr_m (SpecFloat.iter_pos shr_1 p mrs))
      by (rewrite IH by done; apply Z.div_pos; lia).
    rewrite !IH by done.
    rewrite !Z.div_div by lia. by rewrite pow2_xO.
  - by rewrite shr_1_m.
Qed.

Lemma shr_record_of_loc_m m l : shr_m (shr_record_of_loc m l) = m.
Proof. by destruct l as [| []]. Qed.

(** [shr] by [n] places divides the mantissa by [2^n] and adds [n] to the
    exponent. *)
Lemma shr_spec mrs e n :
  0 ≤ shr_m mrs →
  (shr mrs e n).2 = e + Z.max 0 n
  ∧ shr_m (shr mrs e n).1 = shr_m mrs / 2 ^ Z.max 0 n.
Proof.
  intros Hm. destruct n as [| p | p]; simpl.
  - split; [lia | by rewrite Z.div_1_r].
  - split; [lia |]. rewrite iter_pos_shr_1 by done. f_equal.
  - split; [lia | by rewrite Z.div_1_r].
Qed.

Lemma shr_fexp_spec m e l :
  0 ≤ m →
  let n := Z.max 0 (fexp F64.prec F64.emax (Zdigits2 m + e) - e) in
  (shr_fexp F64.prec F64.emax m e l).2 = e + n
  ∧ shr_m (shr_fexp F64.prec F64.emax m e l).1 = m / 2 ^ n.
Proof.
  intros Hm n. unfold shr_fexp.
  destruct (shr_spec (shr_record_of_loc m l) e
              (fexp F64.prec F64.emax (Zdigits2 m + e) - e)) as [H1 H2].
  { by rewrite shr_record_of_loc_m. }
  by rewrite shr_record_of_loc_m in H2.
Qed.

Lemma round_nearest_even_bounds m l :
  m ≤ round_nearest_even m l ≤ m + 1.
Proof.
  destruct l as [| []]; simpl; try lia. destruct (Z.even m); lia.
Qed.

Lemma fexp_64 e : fexp F64.prec F64.emax e = Z.max (e - 53) (-1074).
Proof. reflexivity. Qed.

Lemma pow2_split a b : 0 ≤ a → 0 ≤ b → 2 ^ (a + b) = 2 ^ a * 2 ^ b.
Proof. intros. by rewrite Z.pow_add_r. Qed.

(** Dropping all but the 53 leading digits. *)
Lemma leading_digits_bounds m :
  0 < m → 53 ≤ Zdigits2 m →
  let n := Zdigits2 m - 53 in
  2 ^ 52 ≤ m / 2 ^ n < 2 ^ 53
  ∧ (m / 2 ^ n) * 2 ^ n ≤ m < (m / 2 ^ n + 1) * 2 ^ n.
Proof.
  intros Hm Hd n. pose proof (Zdigits2_bounds m Hm) as [Hlo Hhi].
  assert (Hn : 0 < 2 ^ n) by (apply Z.pow_pos_nonneg; lia).
  replace (Zdigits2 m - 1) with (n + 52) in Hlo by lia.
  replace (Zdigits2 m) with (n + 53) in Hhi by lia.
  rewrite pow2_split in Hlo, Hhi by lia.
  pose proof (Z.div_mod m (2 ^ n) ltac:(lia)) as Hdm.
  pose proof (Z.mod_pos_bound m (2 ^ n) Hn) as Hmod.
  split; [split |].
  - apply Z.div_le_lower_bound; lia.
  - apply Z.div_lt_upper_bound; lia.
  - nia.
Qed.

(** Rounding a positive mantissa of at least 53 digits whose result is a
    normal number: the result is the 53 leading digits, or one more. *)
Lemma binary_round_aux_normal sx mx ex lx :
  0 < mx → 53 ≤ Zdigits2 mx → -1074 ≤ Zdigits2 mx + ex - 53 →
  let e1 := Zdigits2 mx + ex - 53 in
  let t := mx / 2 ^ (Zdigits2 mx - 53) in
  ∃ m e,
    binary_round_aux F64.prec F64.emax sx mx ex lx
    = (if e <=? 971 then S754_finite sx m e else S754_infinity sx)
    ∧ 2 ^ 52 ≤ Zpos m < 2 ^ 53
    ∧ ((e = e1 ∧ (Zpos m = t ∨ Zpos m = t + 1))
       ∨ (e = e1 + 1 ∧ Zpos m = 2 ^ 52 ∧ t + 1 = 2 ^ 53)).
Proof.
  intros Hm Hd He e1 t.
  destruct (leading_digits_bounds mx Hm Hd) as [Ht _]. fold t in Ht.
  assert (He1 : e1 = Zdigits2 mx + ex - 53) by done.
  assert (Et : t = mx / 2 ^ (Zdigits2 mx - 53)) by done.
  clearbody e1 t.
  unfold binary_round_aux.
  destruct (shr_fexp_spec mx ex lx ltac:(lia)) as [He' Hm'].
  destruct (shr_fexp F64.prec F64.emax mx ex lx) as [mrs' e']. simpl in He', Hm'.
  rewrite fexp_64 in He', Hm'.
  replace (Z.max 0 (Z.max (Zdigits2 mx + ex - 53) (-1074) - ex))
    with (Zdigits2 mx - 53) in He', Hm' by lia.
  rewrite <- Et in Hm'. replace (ex + (Zdigits2 mx - 53)) with e1 in He' by lia.
  subst e'. rewrite Hm'.
  pose proof (round_nearest_even_bounds t (loc_of_shr_record mrs')) as Hr.
  generalize dependent (round_nearest_even t (loc_of_shr_record mrs')). intros r Hr.
  destruct (shr_fexp_spec r e1 loc_Exact ltac:(lia)) as [He'' Hm''].
  destruct (shr_fexp F64.prec F64.emax r e1 loc_Exact) as [mrs'' e'']. simpl in He'', Hm''.
  rewrite fexp_64 in He'', Hm''.
  destruct (decide (r < 2 ^ 53)) as [Hlt | Hge].
  - rewrite (Zdigits2_unique r 53) in He'', Hm'' by lia.
    replace (Z.max 0 (Z.max (53 + e1 - 53) (-1074) - e1)) with 0 in He'', Hm''
      by lia.
    rewrite Z.div_1_r in Hm''. rewrite Z.add_0_r in He''. subst e''.
    rewrite Hm''. destruct r as [| m | m] eqn:Er; try lia.
    exists m, e1. unfold F64.emax, F64.prec. change (1024 - 53) with 971.
    split; [done |]. split; [lia |]. left. split; [done |]. lia.
  - assert (r = 2 ^ 53) as Er by lia.
    rewrite (Zdigits2_unique r 54) in He'', Hm'' by (try rewrite Er; lia).
    replace (Z.max 0 (Z.max (54 + e1 - 53) (-1074) - e1)) with 1 in He'', Hm''
      by lia.
    subst e''. rewrite Hm'', Er. change (2 ^ 53 / 2 ^ 1) with (Zpos (2 ^ 52)).
    exists (2 ^ 52)%positive, (e1 + 1). unfold F64.emax, F64.prec.
    change (1024 - 53) with 971.
    split; [done |]. split; [lia |]. right. split; [done |]. split; [done | lia].
Qed.

Lemma binary_round_aux_exact sx m e :
  Zdigits2 (Zpos m) = 53 → -1074 ≤ e ≤ 971 →
  binary_round_aux F64.prec F64.emax sx (Zpos m) e loc_Exact = S754_finite sx m e.
Proof.
  intros Hd He. unfold binary_round_aux, shr_fexp.
  rewrite Hd, fexp_64. replace (Z.max (53 + e - 53) (-1074) - e) with 0 by lia.
  simpl shr. cbn [shr_m shr_record_of_loc loc_of_shr_record round_nearest_even].
  rewrite Hd, fexp_64. replace (Z.max (53 + e - 53) (-1074) - e) with 0 by lia.
  simpl. unfold F64.emax, F64.prec. change (1024 - 53) with 971.
  by destruct (Z.leb_spec e 971); [| lia].
Qed.

Lemma iter_xO_pos p k : Zpos (Pos.iter xO p k) = Zpos p * 2 ^ Zpos k.
Proof.
  induction k as [| k IH] using Pos.peano_ind.
  - simpl. lia.
  - rewrite Pos.iter_succ, Pos2Z.inj_xO, IH, Pos2Z.inj_succ, Z.pow_succ_r by lia. lia.
Qed.

(** An integer below [2^53] converts exactly, to a normal number. *)
Lemma of_Z_exact z :
  0 < z < 2 ^ 53 →
  ∃ m e, F64.of_Z z = S754_finite false m e
       ∧ 2 ^ 52 ≤ Zpos m < 2 ^ 53 ∧ -52 ≤ e ≤ 0
       ∧ Zpos m = z * 2 ^ (- e).
Proof.
  intros Hz. destruct z as [| p | p]; try lia.
  pose proof (digits2_pos_bounds p) as Hd.
  assert (Hd53 : Zpos (digits2_pos p) ≤ 53).
  { destruct (Z.le_gt_cases (Zpos (digits2_pos p)) 53) as [| Hgt]; [done |].
    assert (2 ^ 53 ≤ 2 ^ (Zpos (digits2_pos p) - 1)) by (apply Z.pow_le_mono_r; lia).
    lia. }
  unfold F64.of_Z, binary_normalize, binary_round.
  rewrite fexp_64. rewrite Z.add_0_r.
  replace (Z.max (Zpos (digits2_pos p) - 53) (-1074)) with (Zpos (digits2_pos p) - 53) by lia.
  unfold shl_align. rewrite Z.sub_0_r.
  destruct (Zpos (digits2_pos p) - 53) as [| k | k] eqn:Ek; try lia.
  - exists p, 0. rewrite binary_round_aux_exact by (simpl; lia).
    replace (Zpos (digits2_pos p)) with 53 in Hd by lia.
    change (53 - 1) with 52 in Hd.
    split; [done |]. split; [lia |]. split; [lia |].
    change (- 0) with 0. rewrite Z.pow_0_r. lia.
  - assert (Hk : Zpos k = 53 - Zpos (digits2_pos p)) by lia.
    assert (Hm : 2 ^ 52 ≤ Zpos (Pos.iter xO p k) < 2 ^ 53).
    { rewrite iter_xO_pos.
      assert (E52 : 2 ^ 52 = 2 ^ (Zpos (digits2_pos p) - 1) * 2 ^ Zpos k)
        by (rewrite <- Z.pow_add_r by lia; f_equal; lia).
      assert (E53 : 2 ^ 53 = 2 ^ Zpos (digits2_pos p) * 2 ^ Zpos k)
        by (rewrite <- Z.pow_add_r by lia; f_equal; lia).
      rewrite E52, E53.
      assert (0 < 2 ^ Zpos k) by (apply Z.pow_pos_nonneg; lia). nia. }
    exists (Pos.iter xO p k), (Zneg k).
    rewrite binary_round_aux_exact; [| by apply Zdigits2_unique | lia].
    split; [done |]. split; [done |]. split; [lia |].
    rewrite iter_xO_pos. done.
Qed.

(** ** Rounding in binary64: the error of one operation *)

Lemma bpow_IZR n : 0 ≤ n → powerRZ 2 n = IZR (2 ^ n).
Proof.
  intros Hn. destruct n as [| p | p]; try lia; [done |].
  simpl powerRZ. rewrite pow_IZR. by rewrite positive_nat_Z.
Qed.

Lemma bpow_pos e : (0 < powerRZ 2 e)%R.
Proof. apply powerRZ_lt. lra. Qed.

Lemma bpow_add a b : powerRZ 2 (a + b) = (powerRZ 2 a * powerRZ 2 b)%R.
Proof. apply powerRZ_add. lra. Qed.

Lemma to_R_finite m e :
  F64.to_R (S754_finite false m e) = (IZR (Zpos m) * powerRZ 2 e)%R.
Proof. reflexivity. Qed.

(** Rounding to a normal number: when the mantissa [mx] at exponent [ex]
    brackets the real [x], the result is within [eps * x] of [x]. *)
Lemma binary_round_aux_error sx mx ex lx (x : R) :
  0 < mx → 53 ≤ Zdigits2 mx →
  -1074 ≤ Zdigits2 mx + ex - 53 → Zdigits2 mx + ex - 52 ≤ 971 →
  (IZR mx * powerRZ 2 ex <= x < IZR (mx + 1) * powerRZ 2 ex)%R →
  ∃ m e,
    binary_round_aux F64.prec F64.emax sx mx ex lx = S754_finite sx m e
    ∧ 2 ^ 52 ≤ Zpos m < 2 ^ 53
    ∧ Zdigits2 mx + ex - 53 ≤ e ≤ Zdigits2 mx + ex - 52
    ∧ (Rabs (IZR (Zpos m) * powerRZ 2 e - x) <= eps * x)%R.
Proof.
  intros Hm Hd Hlo Hhi Hx.
  destruct (binary_round_aux_normal sx mx ex lx Hm Hd Hlo) as (m & e & Hr & Hm52 & Hcase).
  destruct (leading_digits_bounds mx Hm Hd) as [Ht [Htl Htu]].
  set (n := Zdigits2 mx - 53) in *.
  set (t := mx / 2 ^ n) in *.
  set (e1 := Zdigits2 mx + ex - 53) in *.
  assert (He1 : e1 = ex + n) by (unfold e1, n; lia).
  assert (Hn : 0 ≤ n) by (unfold n; lia).
  assert (HP : powerRZ 2 e1 = (powerRZ 2 ex * IZR (2 ^ n))%R).
  { by rewrite He1, bpow_add, (bpow_IZR n). }
  pose proof (bpow_pos ex) as Hex. pose proof (bpow_pos e1) as HP0.
  assert (Hn2 : (0 < IZR (2 ^ n))%R) by (apply IZR_lt, Z.pow_pos_nonneg; lia).
  apply IZR_le in Htl. rewrite mult_IZR in Htl.
  assert (Htu' : mx + 1 ≤ (t + 1) * 2 ^ n) by lia.
  apply IZR_le in Htu'. rewrite mult_IZR, !plus_IZR in Htu'.
  rewrite plus_IZR in Hx.
  assert (HT52 : (IZR (2 ^ 52) <= IZR t)%R) by (apply IZR_le; lia).
  assert (H52 : (0 < IZR (2 ^ 52))%R) by (apply IZR_lt; lia).
  (* the real lies between the two candidates *)
  assert (Hxl : (IZR t * powerRZ 2 e1 <= x)%R).
  { rewrite HP. apply Rle_trans with (IZR mx * powerRZ 2 ex)%R; [| lra]. nra. }
  assert (Hxu : (x <= (IZR t + 1) * powerRZ 2 e1)%R).
  { rewrite HP. apply Rle_trans with ((IZR mx + 1) * powerRZ 2 ex)%R; [lra |]. nra. }
  assert (HPx : (powerRZ 2 e1 <= eps * x)%R).
  { unfold eps. apply Rmult_le_reg_l with (IZR (2 ^ 52)); [done |].
    rewrite <- Rmult_assoc, Rinv_r, Rmult_1_l by lra. nra. }
  assert (Hval : (IZR (Zpos m) * powerRZ 2 e = IZR t * powerRZ 2 e1
                  ∨ IZR (Zpos m) * powerRZ 2 e = (IZR t + 1) * powerRZ 2 e1)%R).
  { destruct Hcase as [[-> [-> | ->]] | (-> & -> & Ecarry)].
    - by left.
    - right. by rewrite plus_IZR.
    - right. rewrite bpow_add. change (powerRZ 2 1) with (2 * 1)%R.
      apply (f_equal IZR) in Ecarry. rewrite plus_IZR in Ecarry.
      rewrite Ecarry. change (2 ^ 53) with (2 * 2 ^ 52). rewrite mult_IZR. lra. }
  exists m, e. split.
  { rewrite Hr. destruct (Z.leb_spec e 971); [done |].
    destruct Hcase as [[-> _] | (-> & _)]; lia. }
  split; [done |]. split.
  { destruct Hcase as [[-> _] | (-> & _)]; lia. }
  apply Rabs_le. destruct Hval as [-> | ->]; lra.
Qed.

Lemma Zdigits2_range m a b :
  0 ≤ a → 2 ^ a ≤ m < 2 ^ b → a < Zdigits2 m ≤ b.
Proof.
  intros Ha [Hlo Hhi].
  assert (Hm : 0 < m) by (pose proof (Z.pow_pos_nonneg 2 a); lia).
  pose proof (Zdigits2_bounds m Hm) as [Hdl Hdu].
  pose proof (Zdigits2_pos m Hm) as Hd.
  split.
  - destruct (Z.lt_ge_cases a (Zdigits2 m)) as [| Hge]; [done |].
    assert (2 ^ Zdigits2 m ≤ 2 ^ a) by (apply Z.pow_le_mono_r; lia). lia.
  - destruct (Z.le_gt_cases (Zdigits2 m) b) as [| Hgt]; [done |].
    assert (0 ≤ b).
    { destruct (Z.le_gt_cases 0 b) as [| Hb]; [done |].
      rewrite (Z.pow_neg_r 2 b) in Hhi by lia. lia. }
    assert (2 ^ b ≤ 2 ^ (Zdigits2 m - 1)) by (apply Z.pow_le_mono_r; lia). lia.
Qed.

Lemma SFdiv_core_normal mx ex my ey :
  2 ^ 52 ≤ Zpos mx < 2 ^ 53 → 2 ^ 52 ≤ Zpos my < 2 ^ 53 →
  -1000 ≤ ex - ey →
  ∃ l, SFdiv_core_binary F64.prec F64.emax (Zpos mx) ex (Zpos my) ey
       = (Zpos mx * 2 ^ 53 / Zpos my, ex - ey - 53, l).
Proof.
  intros Hmx Hmy He. unfold SFdiv_core_binary.
  rewrite (Zdigits2_unique (Zpos mx) 53), (Zdigits2_unique (Zpos my) 53) by lia.
  rewrite fexp_64.
  replace (Z.min (Z.max (53 + ex - (53 + ey) - 53) (-1074)) (ex - ey))
    with (ex - ey - 53) by lia.
  replace (ex - ey - (ex - ey - 53)) with 53 by lia.
  cbv zeta. cbv iota. rewrite Z.shiftl_mul_pow2 by lia.
  unfold Z.div.
  destruct (Z.div_eucl (Zpos mx * 2 ^ 53) (Zpos my)) as [q r]. by eexists.
Qed.

(** Division of two positive normal numbers. *)
Lemma div_error mx ex my ey :
  2 ^ 52 ≤ Zpos mx < 2 ^ 53 → 2 ^ 52 ≤ Zpos my < 2 ^ 53 →
  -1000 ≤ ex - ey ≤ 1000 →
  ∃ m e,
    F64.div (S754_finite false mx ex) (S754_finite false my ey)
    = S754_finite false m e
    ∧ 2 ^ 52 ≤ Zpos m < 2 ^ 53
    ∧ ex - ey - 53 ≤ e ≤ ex - ey - 51
    ∧ (Rabs (IZR (Zpos m) * powerRZ 2 e
             - (IZR (Zpos mx) * powerRZ 2 ex) / (IZR (Zpos my) * powerRZ 2 ey))
       <= eps * ((IZR (Zpos mx) * powerRZ 2 ex) / (IZR (Zpos my) * powerRZ 2 ey)))%R.
Proof.
  intros Hmx Hmy He.
  destruct (SFdiv_core_normal mx ex my ey Hmx Hmy ltac:(lia)) as [l Hcore].
  unfold F64.div, SFdiv. rewrite Hcore. simpl xorb.
  set (a := Zpos mx * 2 ^ 53). set (q := a / Zpos my).
  assert (Hq : 2 ^ 52 ≤ q < 2 ^ 54).
  { split.
    - apply Z.div_le_lower_bound; [lia |]. unfold a. nia.
    - apply Z.div_lt_upper_bound; [lia |]. unfold a. nia. }
  pose proof (Zdigits2_range q 52 54 ltac:(lia) Hq) as Hdq.
  pose proof (Z.div_mod a (Zpos my) ltac:(lia)) as Hdm.
  pose proof (Z.mod_pos_bound a (Zpos my) ltac:(lia)) as Hmod.
  fold q in Hdm.
  assert (Hql : q * Zpos my ≤ a) by lia.
  assert (Hqu : a + 1 ≤ (q + 1) * Zpos my) by lia.
  apply IZR_le in Hql, Hqu. unfold a in Hql, Hqu.
  repeat (rewrite mult_IZR in Hql || rewrite plus_IZR in Hql).
  repeat (rewrite mult_IZR in Hqu || rewrite plus_IZR in Hqu).
  pose proof (bpow_pos ex) as Hex. pose proof (bpow_pos ey) as Hey.
  pose proof (bpow_pos (ex - ey - 53)) as He'.
  assert (HB : (0 < IZR (Zpos my))%R) by (apply IZR_lt; lia).
  assert (HA : (0 < IZR (Zpos mx))%R) by (apply IZR_lt; lia).
  assert (Hsplit : powerRZ 2 ex
                   = (powerRZ 2 (ex - ey - 53) * IZR (2 ^ 53) * powerRZ 2 ey)%R).
  { rewrite <- (bpow_IZR 53), <- !bpow_add by lia. f_equal. lia. }
  assert (HXY : ((IZR (Zpos mx) * powerRZ 2 ex) / (IZR (Zpos my) * powerRZ 2 ey)
                 = (IZR (Zpos mx) * IZR (2 ^ 53) / IZR (Zpos my))
                   * powerRZ 2 (ex - ey - 53))%R).
  { rewrite Hsplit. field. lra. }
  destruct (binary_round_aux_error false q (ex - ey - 53) l
              ((IZR (Zpos mx) * powerRZ 2 ex) / (IZR (Zpos my) * powerRZ 2 ey))%R)
    as (m & e & Hr & Hm & Hrange & Herr); try lia.
  { rewrite HXY, plus_IZR. split.
    - apply Rmult_le_compat_r; [lra |].
      apply Rmult_le_reg_r with (IZR (Zpos my)); [done |].
      unfold Rdiv. rewrite Rmult_assoc, Rinv_l, Rmult_1_r by lra. lra.
    - apply Rmult_lt_compat_r; [lra |].
      apply Rmult_lt_reg_r with (IZR (Zpos my)); [done |].
      unfold Rdiv. rewrite Rmult_assoc, Rinv_l, Rmult_1_r by lra. lra. }
  exists m, e. split; [done |]. split; [done |]. split; [lia | done].
Qed.

(** Multiplication of two positive normal numbers. *)
Lemma mul_error mx ex my ey :
  2 ^ 52 ≤ Zpos mx < 2 ^ 53 → 2 ^ 52 ≤ Zpos my < 2 ^ 53 →
  -1000 ≤ ex + ey ≤ 900 →
  ∃ m e,
    F64.mul (S754_finite false mx ex) (S754_finite false my ey)
    = S754_finite false m e
    ∧ 2 ^ 52 ≤ Zpos m < 2 ^ 53
    ∧ ex + ey + 52 ≤ e ≤ ex + ey + 54
    ∧ (Rabs (IZR (Zpos m) * powerRZ 2 e
             - (IZR (Zpos mx) * powerRZ 2 ex) * (IZR (Zpos my) * powerRZ 2 ey))
       <= eps * ((IZR (Zpos mx) * powerRZ 2 ex) * (IZR (Zpos my) * powerRZ 2 ey)))%R.
Proof.
  intros Hmx Hmy He. unfold F64.mul, SFmul. simpl xorb.
  rewrite Pos2Z.inj_mul.
  assert (HM : 2 ^ 104 ≤ Zpos mx * Zpos my < 2 ^ 106).
  { change (2 ^ 104) with (2 ^ 52 * 2 ^ 52). change (2 ^ 106) with (2 ^ 53 * 2 ^ 53).
    nia. }
  pose proof (Zdigits2_range _ 104 106 ltac:(lia) HM) as Hd.
  destruct (binary_round_aux_error false (Zpos mx * Zpos my) (ex + ey) loc_Exact
              ((IZR (Zpos mx) * powerRZ 2 ex) * (IZR (Zpos my) * powerRZ 2 ey))%R)
    as (m & e & Hr & Hm & Hrange & Herr); try lia.
  { pose proof (bpow_pos (ex + ey)) as HP.
    rewrite plus_IZR, mult_IZR. rewrite bpow_add in HP |- *. split; lra. }
  exists m, e. split; [done |]. split; [done |]. split; [lia | done].
Qed.

Lemma Rabs_le_inv (a b : R) : (Rabs a <= b)%R → (- b <= a <= b)%R.
Proof. unfold Rabs. destruct (Rcase_abs a); lra. Qed.

Lemma eps_pos : (0 < eps)%R.
Proof. unfold eps. apply Rinv_0_lt_compat, IZR_lt. lia. Qed.

Lemma of_Z_value z :
  0 < z < 2 ^ 53 →
  ∃ m e, F64.of_Z z = S754_finite false m e
       ∧ 2 ^ 52 ≤ Zpos m < 2 ^ 53 ∧ -52 ≤ e ≤ 0
       ∧ (IZR (Zpos m) * powerRZ 2 e)%R = IZR z.
Proof.
  intros Hz. destruct (of_Z_exact z Hz) as (m & e & Hof & Hm & He & Hval).
  exists m, e. split_and!; try done; try lia.
  rewrite Hval, mult_IZR, <- bpow_IZR by lia.
  rewrite Rmult_assoc, <- bpow_add. replace (- e + e) with 0 by lia.
  simpl. lra.
Qed.

Lemma percentage_finite_error (c s : nat) :
  (0 < c ≤ s)%nat → Z.of_nat s < 2 ^ 53 →
  (∃ m e, percentage c s = S754_finite false m e)
  ∧ (Rabs (F64.to_R (percentage c s) - 100 * (IZR (Z.of_nat c) / IZR (Z.of_nat s)))
     <= margin * (100 * (IZR (Z.of_nat c) / IZR (Z.of_nat s))))%R.
Proof.
  intros Hc Hs. unfold percentage, F64.of_nat.
  destruct (of_Z_value (Z.of_nat c) ltac:(lia)) as (mc & ec & -> & Hmc & Hec & Vc).
  destruct (of_Z_value (Z.of_nat s) ltac:(lia)) as (ms & es & -> & Hms & Hes & Vs).
  destruct (of_Z_value 100 ltac:(lia)) as (mh & eh & -> & Hmh & Heh & Vh).
  destruct (div_error mc ec ms es Hmc Hms ltac:(lia)) as (mr & er & -> & Hmr & Her & Er).
  destruct (mul_error mr er mh eh Hmr Hmh ltac:(lia)) as (mp & ep & -> & Hmp & Hep & Ep).
  split; [by eauto |].
  rewrite to_R_finite. rewrite Vc, Vs in Er. rewrite Vh in Ep.
  assert (Hq : (0 < IZR (Z.of_nat c) / IZR (Z.of_nat s))%R).
  { apply Rdiv_lt_0_compat; apply IZR_lt; lia. }
  pose proof eps_pos as Heps.
  generalize dependent (IZR (Z.of_nat c) / IZR (Z.of_nat s))%R. intros q ? ?.
  generalize dependent (IZR (Zpos mr) * powerRZ 2 er)%R. intros r ? ?.
  generalize dependent (IZR (Zpos mp) * powerRZ 2 ep)%R. intros p ?.
  repeat match goal with
         | H : (Rabs _ <= _)%R |- _ => apply Rabs_le_inv in H
         end.
  assert (eps * r <= eps * (q + eps * q))%R
    by (apply Rmult_le_compat_l; lra).
  apply Rabs_le. unfold margin. lra.
Qed.

Lemma percentage_sum_error (counts : list nat) (s : nat) :
  Forall (λ c, (0 < c)%nat) counts → (sum_list counts ≤ s)%nat →
  Z.of_nat s < 2 ^ 53 →
  (Rabs (sum_R (map (λ c, F64.to_R (percentage c s)) counts)
         - 100 * (IZR (Z.of_nat (sum_list counts)) / IZR (Z.of_nat s)))
   <= margin * (100 * (IZR (Z.of_nat (sum_list counts)) / IZR (Z.of_nat s))))%R.
Proof.
  intros Hpos Hsum Hs. induction Hpos as [| c counts Hc _ IH].
  - simpl. unfold Rdiv. rewrite !Rmult_0_l, !Rmult_0_r, Rminus_0_r, Rabs_R0. lra.
  - simpl in *. specialize (IH ltac:(lia)).
    destruct (percentage_finite_error c s ltac:(lia) Hs) as [_ Hp].
    rewrite Nat2Z.inj_add, plus_IZR.
    unfold Rdiv in *. rewrite Rmult_plus_distr_r.
    generalize dependent (IZR (Z.of_nat c) * / IZR (Z.of_nat s))%R. intros a; intros.
    generalize dependent (IZR (Z.of_nat (sum_list counts)) * / IZR (Z.of_nat s))%R.
    intros b; intros.
    repeat match goal with
           | H : (Rabs _ <= _)%R |- _ => apply Rabs_le_inv in H
           end.
    apply Rabs_le. lra.
Qed.

(** Percentages of counts that add up to their divisor add up to 100 within
    [1e-6]. *)
Lemma percentage_sum_100 (counts : list nat) :
  counts ≠ [] → Forall (λ c, (0 < c)%nat) counts →
  Z.of_nat (sum_list counts) < 2 ^ 53 →
  (Rabs (sum_R (map (λ c, F64.to_R (percentage c (sum_list counts))) counts) - 100)
   <= 1 / 1000000)%R.
Proof.
  intros Hne Hpos Hs.
  pose proof (percentage_sum_error counts (sum_list counts) Hpos ltac:(lia) Hs) as H.
  assert (Hsum : (0 < sum_list counts)%nat).
  { destruct Hpos as [| c l Hc _]; [done | simpl; lia]. }
  assert (E : (IZR (Z.of_nat (sum_list counts)) / IZR (Z.of_nat (sum_list counts)) = 1)%R).
  { apply Rdiv_diag. apply not_0_IZR. lia. }
  rewrite E in H. apply Rabs_le_inv in H. apply Rabs_le.
  unfold margin, eps in H. change (2 ^ 52) with 4503599627370496 in H. lra.
Qed.

(** A positive integer converts to a positive number or overflows to
    [+inf]. *)
Lemma of_Z_positive z :
  0 < z → (∃ m e, F64.of_Z z = S754_finite false m e) ∨ F64.of_Z z = F64.inf.
Proof.
  intros Hz. destruct (decide (z < 2 ^ 53)) as [Hlt | Hge].
  { destruct (of_Z_exact z) as (m & e & -> & _); [lia | left; eauto]. }
  destruct z as [| p | p]; try lia.
  pose proof (Zdigits2_range (Zpos p) 53 (Zdigits2 (Zpos p)) ltac:(lia)) as Hd.
  pose proof (Zdigits2_bounds (Zpos p) ltac:(lia)) as Hb.
  specialize (Hd ltac:(lia)). simpl Zdigits2 in Hd.
  unfold F64.of_Z, binary_normalize, binary_round.
  rewrite fexp_64, Z.add_0_r.
  replace (Z.max (Zpos (digits2_pos p) - 53) (-1074))
    with (Zpos (digits2_pos p) - 53) by lia.
  unfold shl_align. rewrite Z.sub_0_r.
  destruct (Zpos (digits2_pos p) - 53) as [| k | k] eqn:Ek; try lia.
  destruct (binary_round_aux_normal false (Zpos p) 0 loc_Exact)
    as (m & e & -> & _); simpl Zdigits2; try lia.
  destruct (e <=? 971); [left; eauto | by right].
Qed.

(** ** Sorting by decreasing count *)

Lemma map_fmap {A B} (f : A → B) (l : list A) : map f l = f <$> l.
Proof. reflexivity. Qed.

Lemma insert_desc_Permutation x l : insert_desc x l ≡ₚ x :: l.
Proof.
  induction l as [| y l IH]; simpl; [done |].
  destruct (y.2 <=? x.2)%nat; [done |]. rewrite IH. apply perm_swap.
Qed.

Lemma sort_desc_Permutation l : sort_desc l ≡ₚ l.
Proof.
  induction l as [| x l IH]; simpl; [done |].
  by rewrite insert_desc_Permutation, IH.
Qed.

Lemma insert_desc_sorted x l :
  StronglySorted count_ge l → StronglySorted count_ge (insert_desc x l).
Proof.
  induction 1 as [| y l Hl IH Hy]; simpl.
  { repeat constructor. }
  destruct (Nat.leb_spec y.2 x.2) as [Hle | Hgt].
  - apply SSorted_cons; [by apply SSorted_cons |].
    constructor; [done |].
    eapply Forall_impl; [exact Hy |]. unfold count_ge. intros z Hz. simpl in *. lia.
  - apply SSorted_cons; [done |].
    rewrite insert_desc_Permutation. constructor; [| done].
    unfold count_ge. lia.
Qed.

Lemma sort_desc_sorted l : StronglySorted count_ge (sort_desc l).
Proof.
  induction l as [| x l IH]; simpl; [constructor | by apply insert_desc_sorted].
Qed.

(** ** Value counts *)

Lemma occurrences_pos {A} `{EqDecision A} (k : A) (l : list A) :
  (0 < occurrences k l)%nat ↔ k ∈ l.
Proof.
  unfold occurrences. split.
  - intros Hpos. destruct (filter (λ x, x = k) l) as [| x f] eqn:E; [simpl in Hpos; lia |].
    assert (x ∈ filter (λ x, x = k) l) as Hx by (rewrite E; constructor).
    apply list_elem_of_filter in Hx as [-> Hx]. done.
  - intros Hk.
    assert (k ∈ filter (λ x, x = k) l) as Hx by (by apply list_elem_of_filter).
    destruct (filter (λ x, x = k) l); [by apply elem_of_nil in Hx | simpl; lia].
Qed.

Lemma value_counts_Permutation l :
  value_counts l
  ≡ₚ map (λ k, (k, occurrences k (omap id l))) (unique String.eqb (omap id l)).
Proof. apply sort_desc_Permutation. Qed.

Lemma elem_of_value_counts l k n :
  (k, n) ∈ value_counts l ↔ k ∈ omap id l ∧ n = occurrences k (omap id l).
Proof.
  rewrite value_counts_Permutation, map_fmap, list_elem_of_fmap. split.
  - intros (k' & [= -> ->] & Hk).
    by rewrite (elem_of_unique _ _ _ String_eqb_decides) in Hk.
  - intros [Hk ->]. exists k. split; [done |].
    by rewrite (elem_of_unique _ _ _ String_eqb_decides).
Qed.

Lemma value_counts_keys l :
  map fst (value_counts l) ≡ₚ unique String.eqb (omap id l).
Proof.
  rewrite value_counts_Permutation, map_map. simpl. by rewrite map_id.
Qed.

Lemma value_counts_sorted l : StronglySorted count_ge (value_counts l).
Proof. apply sort_desc_sorted. Qed.

(** ** Prevalence estimator: the estimates *)

Lemma elem_of_take_drop {A} (R : relation A) (l : list A) n a b :
  StronglySorted R l → a ∈ take n l → b ∈ drop n l → R a b.
Proof.
  intros Hs Ha Hb. rewrite <- (take_drop n l) in Hs.
  by eapply StronglySorted_app_1_elem_of.
Qed.

Lemma prevalence_row_fields z d kc :
  p_AnswerText (prevalence_row z d kc) = kc.1
  ∧ p_count (prevalence_row z d kc) = kc.2.
Proof. done. Qed.

Lemma create_prevalence_barplot_length df q1 q2 :
  length (create_prevalence_barplot df q1 q2)
  = Nat.min 3 (length (unique String.eqb (omap id (answers_of df q2)))).
Proof.
  unfold create_prevalence_barplot. rewrite length_map, length_take.
  by rewrite <- (Permutation_length (value_counts_keys _)), length_map.
Qed.

Lemma respondents_in_filter wave (df : list SurveyRecord) q1 :
  respondents_in wave df q1
  = length (filter (λ x, QuestionID x = q1 ∧ SurveyID x = wave ∧ AnswerText x ≠ None) df).
Proof.
  unfold respondents_in, count_notnull.
  induction df as [| x df IH]; [done |].
  rewrite (filter_cons (λ r, QuestionID r = q1 ∧ SurveyID r = wave)).
  rewrite (filter_cons (λ r, QuestionID r = q1 ∧ SurveyID r = wave ∧ AnswerText r ≠ None)).
  destruct (decide (QuestionID x = q1 ∧ SurveyID x = wave)) as [[Hq Hw] | Hn].
  - simpl map. simpl omap. destruct (AnswerText x) as [a |].
    + rewrite decide_True by done. cbn [length]. by rewrite <- IH.
    + rewrite decide_False by (intros (_ & _ & ?); done). exact IH.
  - rewrite decide_False by tauto. exact IH.
Qed.

Lemma occurrences_answers (df : list SurveyRecord) q2 a :
  occurrences a (omap id (answers_of df q2))
  = length (filter (λ x, QuestionID x = q2 ∧ AnswerText x = Some a) df).
Proof.
  unfold occurrences, answers_of.
  induction df as [| x df IH]; [done |].
  rewrite (filter_cons (λ r, QuestionID r = q2)).
  rewrite (filter_cons (λ r, QuestionID r = q2 ∧ AnswerText r = Some a)).
  destruct (decide (QuestionID x = q2)) as [Hq | Hq].
  - simpl map. simpl omap. destruct (AnswerText x) as [b |].
    + cbn [id]. rewrite filter_cons. destruct (decide (b = a)) as [-> | Hne].
      * rewrite decide_True by done. cbn [length]. by rewrite <- IH.
      * rewrite decide_False by (intros [_ [= ?]]; done). exact IH.
    + rewrite decide_False by (by intros [_ ?]). exact IH.
  - rewrite decide_False by tauto. exact IH.
Qed.

Lemma omap_id_map {A B} (f : A → option B) (l : list A) : omap id (map f l) = omap f l.
Proof. induction l as [| x l IH]; [done |]. cbn. destruct (f x); cbn; by rewrite <- IH. Qed.

Lemma length_unique_size (l : list string) :
  length (unique String.eqb l) = size (list_to_set (C := gset string) l).
Proof.
  rewrite <- (size_list_to_set (C := gset string) (unique String.eqb l))
    by apply NoDup_unique, String_eqb_decides.
  f_equal. apply set_eq. intros a. rewrite !elem_of_list_to_set.
  apply (elem_of_unique _ _ _ String_eqb_decides).
Qed.


(** C4.  For every table, [create_prevalence_barplot] yields one estimate
    for each of the three most frequent answers to the target question (for
    each answer when there are fewer): [count] is the number of rows of the
    target question with that answer, the rate is [count / denominator], the
    percentage is [rate * 100] and the half-width is
    [z * sqrt (rate * (1 - rate) / denominator) * 100], all in binary64,
    where the denominator is the number of rows of the reference question in
    the wave 2016 whose answer is not null, and [z] is the binary64 number
    nearest to 1.6456.  No answer left out is more frequent than an answer
    listed.  With a denominator of 100 and a count of 30 the rate is the
    binary64 number nearest to 0.3, the percentage is 30.0 and the
    half-width lies between 7.54 and 7.55. *)
Theorem prevalence_estimates (df : SurveyTable) (q1 q2 : Z) :
  let count := λ a : string,
    length (filter (λ x, QuestionID x = q2 ∧ AnswerText x = Some a) df) in
  let d :=
    length (filter (λ x, QuestionID x = q1 ∧ SurveyID x = 2016 ∧ AnswerText x ≠ None) df) in
  let fl := λ n : Z, binary_normalize 53 1024 n 0 false in
  let z := SFdiv 53 1024 (fl 16456) (fl 10000) in
  let out := create_prevalence_barplot df q1 q2 in
  length out
  = Nat.min 3 (size (list_to_set (C := gset string)
                       (omap AnswerText (filter (λ x, QuestionID x = q2) df))))
  ∧ NoDup (map p_AnswerText out)
  ∧ (∀ r, r ∈ out →
       (0 < count (p_AnswerText r))%nat
       ∧ p_count r = count (p_AnswerText r)
       ∧ PrevalenceRate r
         = SFdiv 53 1024 (fl (Z.of_nat (p_count r))) (fl (Z.of_nat d))
       ∧ p_Percentage r = SFmul 53 1024 (PrevalenceRate r) (fl 100)
       ∧ p_CI r
         = SFmul 53 1024
             (SFmul 53 1024 z
                (SFsqrt 53 1024
                   (SFdiv 53 1024
                      (SFmul 53 1024 (PrevalenceRate r)
                         (SFsub 53 1024 (fl 1) (PrevalenceRate r)))
                      (fl (Z.of_nat d)))))
             (fl 100))
  ∧ (∀ r c, r ∈ out → c ∉ map p_AnswerText out → (count c ≤ p_count r)%nat)
  ∧ (z = S754_finite false 7411123546800888 (-52)
     ∧ Z.abs (10000 * 7411123546800888 - 16456 * 2 ^ 52) * 2 ≤ 10000)
  ∧ (∃ r, create_prevalence_barplot example_prevalence 1 2 = [r]
        ∧ length (filter (λ x, QuestionID x = 1 ∧ SurveyID x = 2016
                               ∧ AnswerText x ≠ None) example_prevalence)
          = 100%nat
        ∧ p_count r = 30%nat
        ∧ PrevalenceRate r = S754_finite false 5404319552844595 (-54)
        ∧ Z.abs (10 * 5404319552844595 - 3 * 2 ^ 54) * 2 ≤ 10
        ∧ p_Percentage r = S754_finite false (30 * 2 ^ 48) (-48)
        ∧ p_CI r = S754_finite false 8490508659471167 (-50)
        ∧ 754 * 2 ^ 50 ≤ 100 * 8490508659471167 ≤ 755 * 2 ^ 50).
Proof.
  cbv zeta. unfold SurveyTable in *.
  rewrite <- (respondents_in_filter 2016 df q1).
  rewrite <- omap_id_map, <- length_unique_size.
  change (map AnswerText (filter (λ x, QuestionID x = q2) df)) with (answers_of df q2).
  set (answers := omap id (answers_of df q2)).
  assert (Hcount : ∀ a, length (filter (λ x, QuestionID x = q2 ∧ AnswerText x = Some a) df)
                        = occurrences a answers)
    by (intros a; symmetry; apply occurrences_answers).
  unfold create_prevalence_barplot.
  set (d := respondents_in 2016 df q1).
  set (vc := value_counts (answers_of df q2)).
  assert (Hkeys : map p_AnswerText (map (prevalence_row z_90 d) (take 3 vc))
                  = take 3 (map fst vc)).
  { rewrite map_map, !map_fmap, <- fmap_take. done. }
  split_and!.
  - apply create_prevalence_barplot_length.
  - rewrite Hkeys. apply (sublist_NoDup _ (map fst vc)); [| apply sublist_take].
    unfold vc. rewrite value_counts_keys. apply NoDup_unique, String_eqb_decides.
  - intros r Hr. rewrite map_fmap in Hr.
    apply list_elem_of_fmap in Hr as ([k n] & -> & Hkn).
    apply elem_of_take in Hkn as (i & Hkn%list_elem_of_lookup_2 & _).
    apply elem_of_value_counts in Hkn as [Hk ->].
    rewrite !Hcount. split_and!; try done. by apply occurrences_pos.
  - intros r c Hr Hc. rewrite map_fmap in Hr.
    apply list_elem_of_fmap in Hr as ([k n] & -> & Hkn). rewrite Hcount.
    change (p_count (prevalence_row z_90 d (k, n))) with n.
    destruct (decide (c ∈ answers)) as [Hin | Hnot].
    + assert (Hv : (c, occurrences c answers) ∈ vc)
        by (by apply elem_of_value_counts).
      rewrite <- (take_drop 3 vc) in Hv.
      apply elem_of_app in Hv as [Hv | Hv].
      * exfalso. apply Hc. rewrite Hkeys, map_fmap, <- fmap_take.
        apply list_elem_of_fmap. by exists (c, occurrences c answers).
      * apply (elem_of_take_drop count_ge vc 3 (k, n) (c, occurrences c answers));
          [apply value_counts_sorted | done | done].
    + assert (occurrences c answers = 0%nat) as ->; [| lia].
      destruct (Nat.eq_0_gt_0_cases (occurrences c answers)) as [| Hpos]; [done |].
      by apply occurrences_pos in Hpos.
  - by vm_compute.
  - by vm_compute.
  - eexists. split; [by vm_compute |]. split_and!; by vm_compute.
Qed.

(** ** Prevalence estimator: a denominator of zero *)

(** With no respondent to the reference question in 2016 the function
    raises nothing: on [example_survey] with reference question 3 it returns
    two estimates, with infinite rates and percentages and [NaN]
    half-widths. *)
Lemma prevalence_zero_denominator_returns :
  respondents_in 2016 example_survey 3 = 0%nat
  ∧ create_prevalence_barplot example_survey 3 2
    = [ {| p_AnswerText := "Anxiety"; p_count := 2;
           PrevalenceRate := F64.inf; p_Percentage := F64.inf;
           p_CI := F64.nan |};
        {| p_AnswerText := "Mood"; p_count := 1;
           PrevalenceRate := F64.inf; p_Percentage := F64.inf;
           p_CI := F64.nan |} ].
Proof. split; by vm_compute. Qed.

Lemma prevalence_row_zero z k n :
  (0 < n)%nat →
  prevalence_row z 0 (k, n)
  = {| p_AnswerText := k; p_count := n;
       PrevalenceRate := F64.inf; p_Percentage := F64.inf;
       p_CI := F64.mul (F64.mul z F64.nan) (F64.of_Z 100) |}.
Proof.
  intros Hn. unfold prevalence_row. simpl fst. simpl snd.
  assert (Hrate : F64.div (F64.of_nat n) (F64.of_nat 0) = F64.inf).
  { unfold F64.of_nat.
    destruct (of_Z_positive (Z.of_nat n) ltac:(lia)) as [(m & e & ->) | ->]; done. }
  rewrite Hrate. reflexivity.
Qed.

Lemma mul_nan_r z : F64.mul z F64.nan = F64.nan.
Proof. by destruct z as [[] | [] | | [] ? ?]. Qed.

(** C1 (amended).  When the denominator is 0 the estimator signals no error:
    it returns its estimates as for any other table, one for each of the
    three most frequent answers to the target question, and in each of them
    the rate and the percentage are [+inf] and the half-width is [NaN]. *)
Theorem prevalence_zero_denominator (df : SurveyTable) (q1 q2 : Z) :
  respondents_in 2016 df q1 = 0%nat →
  length (create_prevalence_barplot df q1 q2)
  = Nat.min 3 (length (unique String.eqb (omap id (answers_of df q2))))
  ∧ ∀ r, r ∈ create_prevalence_barplot df q1 q2 →
         PrevalenceRate r = F64.inf
         ∧ p_Percentage r = F64.inf
         ∧ p_CI r = F64.nan.
Proof.
  intros Hd. split; [apply create_prevalence_barplot_length |].
  intros r Hr. unfold create_prevalence_barplot in Hr. rewrite Hd, map_fmap in Hr.
  apply list_elem_of_fmap in Hr as ([k n] & -> & Hkn).
  apply elem_of_take in Hkn as (i & Hkn%list_elem_of_lookup_2 & _).
  apply elem_of_value_counts in Hkn as [Hk ->].
  rewrite prevalence_row_zero by (by apply occurrences_pos).
  cbn [PrevalenceRate p_Percentage p_CI]. by rewrite mul_nan_r.
Qed.

Lemma prevalence_zero_denominator_witness :
  respondents_in 2016 example_survey 3 = 0%nat
  ∧ length (create_prevalence_barplot example_survey 3 2) = 2%nat
  ∧ ∀ r, r ∈ create_prevalence_barplot example_survey 3 2 →
         PrevalenceRate r = F64.inf
         ∧ p_Percentage r = F64.inf
         ∧ p_CI r = F64.nan.
Proof.
  split; [reflexivity |].
  destruct (prevalence_zero_denominator example_survey 3 2 eq_refl) as [Hlen Hall].
  split; [exact Hlen | exact Hall].
Defined.

(** ** Grouped counts *)

Lemma sum_list_Permutation l1 l2 : l1 ≡ₚ l2 → sum_list l1 = sum_list l2.
Proof. induction 1; simpl; lia. Qed.

Lemma sum_list_filter_le {A} (P : A → Prop) `{∀ x, Decision (P x)}
    (f : A → nat) (l : list A) :
  (sum_list (map f (filter P l)) ≤ sum_list (map f l))%nat.
Proof.
  induction l as [| x l IH]; [done |].
  rewrite filter_cons. case_decide; simpl; lia.
Qed.

Lemma sum_list_map_add {A} (f g : A → nat) (l : list A) :
  sum_list (map (λ x, f x + g x)%nat l)
  = (sum_list (map f l) + sum_list (map g l))%nat.
Proof. induction l as [| x l IH]; simpl; lia. Qed.

Lemma elem_le_sum_list (n : nat) (l : list nat) : n ∈ l → (n ≤ sum_list l)%nat.
Proof.
  induction l as [| x l IH]; [by intros ?%elem_of_nil |].
  change (sum_list (x :: l)) with (x + sum_list l)%nat.
  intros [-> | Hn]%elem_of_cons; [lia |]. specialize (IH Hn). lia.
Qed.

Lemma occurrences_cons {A} `{EqDecision A} (k x : A) (l : list A) :
  occurrences k (x :: l)
  = ((if decide (x = k) then 1 else 0) + occurrences k l)%nat.
Proof. unfold occurrences. rewrite filter_cons. by case_decide. Qed.

Lemma sum_indicator_absent {A} `{EqDecision A} (x : A) (ks : list A) :
  x ∉ ks → sum_list (map (λ k, if decide (x = k) then 1%nat else 0%nat) ks) = 0%nat.
Proof.
  induction ks as [| k ks IH]; [done |].
  intros [Hk Hks]%not_elem_of_cons. simpl. rewrite decide_False by done. by apply IH.
Qed.

Lemma sum_indicator_le {A} `{EqDecision A} (x : A) (ks : list A) :
  NoDup ks →
  (sum_list (map (λ k, if decide (x = k) then 1%nat else 0%nat) ks) ≤ 1)%nat.
Proof.
  induction 1 as [| k ks Hk Hnd IH]; simpl; [lia |].
  case_decide; [| lia]. subst. rewrite sum_indicator_absent by done. lia.
Qed.

(** The occurrences of distinct values add up to at most the length. *)
Lemma sum_occurrences_le {A} `{EqDecision A} (ks l : list A) :
  NoDup ks → (sum_list (map (λ k, occurrences k l) ks) ≤ length l)%nat.
Proof.
  intros Hnd. induction l as [| x l IH].
  - induction ks as [| k ks IHk]; [done |]. simpl.
    apply NoDup_cons in Hnd as [_ Hnd]. by apply IHk.
  - rewrite (map_ext _ (λ k, (if decide (x = k) then 1 else 0) + occurrences k l)%nat)
      by (intros; apply occurrences_cons).
    rewrite sum_list_map_add. pose proof (sum_indicator_le x ks Hnd). simpl. lia.
Qed.

Lemma groupby_size_Permutation df :
  groupby_size df
  ≡ₚ map (λ k, (k, occurrences k (omap group_key df)))
       (unique key_eqb (omap group_key df)).
Proof.
  unfold groupby_size. rewrite !map_fmap. by rewrite merge_sort_Permutation.
Qed.

Lemma elem_of_groupby_size df k n :
  (k, n) ∈ groupby_size df
  ↔ k ∈ omap group_key df ∧ n = occurrences k (omap group_key df).
Proof.
  rewrite groupby_size_Permutation, map_fmap, list_elem_of_fmap. split.
  - intros (k' & [= -> ->] & Hk).
    by rewrite (elem_of_unique _ _ _ key_eqb_decides) in Hk.
  - intros [Hk ->]. exists k. split; [done |].
    by rewrite (elem_of_unique _ _ _ key_eqb_decides).
Qed.

Lemma groupby_size_keys df :
  map fst (groupby_size df) ≡ₚ unique key_eqb (omap group_key df).
Proof.
  rewrite groupby_size_Permutation, map_map. simpl. by rewrite map_id.
Qed.

Lemma groupby_size_positive df :
  Forall (λ r, (0 < r.2)%nat) (groupby_size df).
Proof.
  apply Forall_forall. intros [k n] Hkn.
  apply elem_of_groupby_size in Hkn as [Hk ->]. by apply occurrences_pos.
Qed.

Lemma length_omap_le {A B} (f : A → option B) (l : list A) :
  (length (omap f l) ≤ length l)%nat.
Proof.
  induction l as [| x l IH]; [done |].
  change (omap f (x :: l))
    with (match f x with Some y => y :: omap f l | None => omap f l end).
  destruct (f x); simpl length; lia.
Qed.

(** The counts of all groups add up to at most the number of rows. *)
Lemma groupby_size_total df :
  (sum_list (map snd (groupby_size df)) ≤ length df)%nat.
Proof.
  rewrite !map_fmap, (sum_list_Permutation _ _
     (fmap_Permutation snd _ _ (groupby_size_Permutation df))).
  rewrite <- !map_fmap, map_map. simpl.
  etransitivity; [apply sum_occurrences_le, NoDup_unique, key_eqb_decides |].
  apply length_omap_le.
Qed.

(** ** Distribution aggregator *)

Lemma zip_with_map_diag {A B C} (f : A → B → C) (g : A → B) (l : list A) :
  zip_with f l (map g l) = map (λ x, f x (g x)) l.
Proof. induction l as [| x l IH]; simpl; [done | by rewrite IH]. Qed.

Lemma filter_map_comm {A B} (f : A → B) (P : B → Prop) `{∀ x, Decision (P x)}
    (l : list A) :
  filter P (map f l) = map f (filter (λ x, P (f x)) l).
Proof.
  induction l as [| x l IH]; [done |]. simpl map.
  rewrite !filter_cons. case_decide; simpl; by rewrite IH.
Qed.

Lemma create_gender_barplot_rows df :
  create_gender_barplot df
  = map (distribution_row (gender_counts df)) (gender_counts df).
Proof.
  unfold create_gender_barplot, transform_sum.
  by rewrite zip_with_map_diag.
Qed.

Lemma partition_rows df k :
  partition k (create_gender_barplot df)
  = map (distribution_row (gender_counts df))
      (filter (λ r, r.1.1 = k) (gender_counts df)).
Proof.
  unfold partition. rewrite create_gender_barplot_rows.
  by rewrite (filter_map_comm (distribution_row (gender_counts df))
                (λ r, d_SurveyID r = k)).
Qed.

Lemma gender_counts_positive df : Forall (λ r, (0 < r.2)%nat) (gender_counts df).
Proof.
  unfold gender_counts. rewrite merge_sort_Permutation. apply groupby_size_positive.
Qed.

Lemma gender_counts_total df :
  (sum_list (map snd (gender_counts df)) ≤ length df)%nat.
Proof.
  unfold gender_counts.
  rewrite map_fmap, (sum_list_Permutation _ _
     (fmap_Permutation snd _ _ (merge_sort_Permutation row_le _))).
  rewrite <- map_fmap.
  etransitivity; [apply groupby_size_total | apply length_filter].
Qed.

(** The percentages of one survey wave, from the counts of the wave. *)
Lemma partition_percentages df k :
  map d_Percentage (partition k (create_gender_barplot df))
  = map (λ c, percentage c (wave_total (gender_counts df) k))
      (map snd (filter (λ r, r.1.1 = k) (gender_counts df))).
Proof.
  rewrite partition_rows, !map_map. apply map_ext_in.
  intros row Hrow. apply list_elem_of_In, list_elem_of_filter in Hrow as [Hk _].
  simpl. by rewrite Hk.
Qed.

(** C8.  For every table of fewer than [2^53] rows and every survey wave
    that occurs in the distribution table, the percentages of the wave are
    finite numbers, each [Count / total * 100] for the total of the wave's
    counts, and their sum differs from 100 by at most [1e-6], hence by at
    most [1e-6] times the number of rows of the wave. *)
Theorem distribution_sums_to_100 (df : SurveyTable) (k : Z) :
  Z.of_nat (length df) < 2 ^ 53 →
  k ∈ map d_SurveyID (create_gender_barplot df) →
  let rows := partition k (create_gender_barplot df) in
  Forall (λ r, F64.is_finite (d_Percentage r) = true
               ∧ d_Percentage r = percentage (d_Count r) (sum_list (map d_Count rows)))
    rows
  ∧ (Rabs (sum_R (map F64.to_R (map d_Percentage rows)) - 100) <= 1 / 1000000)%R
  ∧ (Rabs (sum_R (map F64.to_R (map d_Percentage rows)) - 100)
     <= 1 / 1000000 * INR (length rows))%R.
Proof.
  intros Hlen Hk rows.
  set (gk := filter (λ r, r.1.1 = k) (gender_counts df)).
  assert (Hrows : rows = map (distribution_row (gender_counts df)) gk)
    by apply partition_rows.
  assert (Hcounts : map d_Count rows = map snd gk) by (by rewrite Hrows, map_map).
  assert (Htotal : wave_total (gender_counts df) k = sum_list (map snd gk)) by done.
  assert (Hpos : Forall (λ c, (0 < c)%nat) (map snd gk)).
  { rewrite map_fmap. apply Forall_fmap, Forall_forall. intros r Hr.
    apply list_elem_of_filter in Hr as [_ Hr].
    by apply (proj1 (Forall_forall _ _) (gender_counts_positive df)). }
  assert (Hsum : Z.of_nat (sum_list (map snd gk)) < 2 ^ 53).
  { pose proof (sum_list_filter_le (λ r, r.1.1 = k) snd (gender_counts df)).
    pose proof (gender_counts_total df). fold gk in H. lia. }
  assert (Hne : map snd gk ≠ []).
  { rewrite create_gender_barplot_rows, map_map, map_fmap in Hk.
    apply list_elem_of_fmap in Hk as (r & Hr & Hin). simpl in Hr.
    assert (r ∈ gk) as Hgk by (by apply list_elem_of_filter).
    intros E. apply (f_equal length) in E. rewrite length_map in E.
    destruct gk; [by apply elem_of_nil in Hgk | done]. }
  assert (Hbound : (Rabs (sum_R (map F64.to_R (map d_Percentage rows)) - 100)
                    <= 1 / 1000000)%R).
  { unfold rows. rewrite partition_percentages, Htotal, map_map.
    by apply percentage_sum_100. }
  split_and!.
  - rewrite Hcounts, Hrows, map_fmap. apply Forall_fmap, Forall_forall.
    intros r Hr. pose proof Hr as [Hrk Hr']%list_elem_of_filter.
    unfold distribution_row. simpl. rewrite Hrk, Htotal. split; [| done].
    destruct (percentage_finite_error r.2 (sum_list (map snd gk)))
      as [(m & e & ->) _]; [| done | done].
    split.
    + by apply (proj1 (Forall_forall _ _) (gender_counts_positive df)).
    + apply elem_le_sum_list. rewrite map_fmap. by apply list_elem_of_fmap_2.
  - done.
  - apply Rle_trans with (1 / 1000000)%R; [done |].
    assert (1 <= INR (length rows))%R.
    { apply (le_INR 1). rewrite Hrows, length_map.
      destruct gk; [done | simpl; lia]. }
    lra.
Qed.

Lemma distribution_sums_to_100_witness :
  Z.of_nat (length example_gender) < 2 ^ 53
  ∧ 2016 ∈ map d_SurveyID (create_gender_barplot example_gender)
  ∧ (Rabs (sum_R (map F64.to_R
                    (map d_Percentage
                       (partition 2016 (create_gender_barplot example_gender))))
           - 100)
     <= 1 / 1000000)%R.
Proof.
  assert (Hlen : Z.of_nat (length example_gender) < 2 ^ 53) by reflexivity.
  assert (Hk : 2016 ∈ map d_SurveyID (create_gender_barplot example_gender)).
  { apply list_elem_of_In. vm_compute. tauto. }
  split; [exact Hlen |]. split; [exact Hk |].
  apply (distribution_sums_to_100 example_gender 2016 Hlen Hk).
Defined.

(** ** Pivoted trend builder *)

Lemma filter_fst_absent {A B} `{EqDecision A} (l : list (A * B)) (k : A) :
  k ∉ map fst l → filter (λ r, r.1 = k) l = [].
Proof.
  intros Hk. apply filter_none, Forall_forall. intros r Hr E. apply Hk.
  rewrite map_fmap. apply list_elem_of_fmap. by exists r.
Qed.

(** In a frame with distinct keys a key selects its own row. *)
Lemma filter_fst_unique {A B} `{EqDecision A} (l : list (A * B)) (k : A) (n : B) :
  NoDup (map fst l) → (k, n) ∈ l → filter (λ r, r.1 = k) l = [(k, n)].
Proof.
  induction l as [| [k' n'] l IH]; [by intros _ ?%elem_of_nil |].
  simpl map. intros [Hk' Hnd]%NoDup_cons [[= -> ->] | Hin]%elem_of_cons.
  - rewrite filter_cons, decide_True by done. by rewrite filter_fst_absent.
  - rewrite filter_cons, decide_False; [by apply IH |].
    simpl. intros ->. apply Hk'. rewrite map_fmap. apply list_elem_of_fmap.
    by exists (k, n).
Qed.

Lemma groupby_size_keys_NoDup df : NoDup (map fst (groupby_size df)).
Proof. rewrite groupby_size_keys. apply NoDup_unique, key_eqb_decides. Qed.

Lemma pivot_cell_groupby df i c :
  pivot_cell (groupby_size df) i c
  = let n := occurrences (i, c) (omap group_key df) in
    if (n =? 0)%nat then None else Some n.
Proof.
  unfold pivot_cell. cbv zeta.
  destruct (decide ((i, c) ∈ omap group_key df)) as [Hin | Hnot].
  - pose proof (proj2 (occurrences_pos _ _) Hin) as Hpos.
    rewrite (filter_fst_unique _ (i, c) (occurrences (i, c) (omap group_key df)));
      [| apply groupby_size_keys_NoDup | by apply elem_of_groupby_size].
    destruct (Nat.eqb_spec (occurrences (i, c) (omap group_key df)) 0); [lia |].
    simpl. by rewrite Nat.add_0_r.
  - rewrite filter_fst_absent.
    + destruct (Nat.eqb_spec (occurrences (i, c) (omap group_key df)) 0) as [| Hne];
        [done |].
      exfalso. apply Hnot, occurrences_pos. lia.
    + rewrite groupby_size_keys, (elem_of_unique _ _ _ key_eqb_decides). done.
Qed.

(** The row sum skips the missing cells; they count for 0. *)
Lemma row_sum_pivot_cells df i (columns : list string) :
  row_sum (map (pivot_cell (groupby_size df) i) columns)
  = sum_list (map (λ c, occurrences (i, c) (omap group_key df)) columns).
Proof.
  unfold row_sum. induction columns as [| c columns IH]; [done |].
  simpl map. rewrite pivot_cell_groupby. cbv zeta.
  destruct (Nat.eqb_spec (occurrences (i, c) (omap group_key df)) 0) as [E | Hne].
  - change (sum_list (?x :: ?l)) with (x + sum_list l)%nat. rewrite E. simpl. apply IH.
  - change (sum_list (?x :: ?l)) with (x + sum_list l)%nat.
    change (omap id (Some ?x :: ?l)) with (x :: omap id l).
    change (sum_list (?x :: ?l)) with (x + sum_list l)%nat. by rewrite IH.
Qed.

Lemma pivoted_pct_cells df q :
  let keys := omap group_key (filter (λ r, QuestionID r = q) df) in
  let P := pivoted_pct df q in
  p_cells P
  = map (λ i, map (pct_of_keys keys (p_columns P) i) (p_columns P)) (p_index P).
Proof.
  cbv zeta. unfold pivoted_pct, normalize_rows, pivot_table. simpl.
  rewrite map_map. apply map_ext. intros i.
  rewrite row_sum_pivot_cells, map_map. apply map_ext. intros c.
  rewrite pivot_cell_groupby. unfold pct_of_keys. cbv zeta.
  by destruct (_ =? _)%nat.
Qed.

Lemma pct_cell_present (s : nat) (prow : list (option nat)) :
  Forall (λ v, (0 < v ≤ s)%nat) (omap id prow) → Z.of_nat s < 2 ^ 53 →
  present (map (pct_cell s) prow) = map (λ v, percentage v s) (omap id prow)
  ∧ Forall (λ x, F64.is_finite x = true) (present (map (pct_cell s) prow)).
Proof.
  intros Hall Hs. unfold present.
  induction prow as [| [v |] prow IH]; [done | |].
  - change (omap id (Some v :: prow)) with (v :: omap id prow) in *.
    apply Forall_cons in Hall as [Hv Hall]. destruct (IH Hall) as [IH1 IH2].
    simpl map. destruct (percentage_finite_error v s Hv Hs) as [(m & e & E) _].
    rewrite filter_cons, decide_True by (by rewrite E).
    split; [by rewrite IH1 |]. constructor; [by rewrite E | done].
  - change (omap id (None :: prow)) with (omap id prow) in *.
    simpl map. rewrite filter_cons, decide_False by done. by apply IH.
Qed.

Lemma pivot_index_columns df :
  let gs := groupby_size df in
  (∀ i, i ∈ p_index (pivot_table gs) ↔ ∃ c, (i, c) ∈ omap group_key df)
  ∧ (∀ c, c ∈ p_columns (pivot_table gs) ↔ ∃ i, (i, c) ∈ omap group_key df)
  ∧ NoDup (p_index (pivot_table gs))
  ∧ NoDup (p_columns (pivot_table gs)).
Proof.
  cbv zeta. unfold pivot_table. simpl. split_and!.
  - intros i. rewrite merge_sort_Permutation, (elem_of_unique _ _ _ Z_eqb_decides).
    rewrite map_fmap, list_elem_of_fmap. split.
    + intros ([[i' c] n] & -> & Hin). exists c. by apply elem_of_groupby_size in Hin as [? _].
    + intros [c Hc]. exists ((i, c), occurrences (i, c) (omap group_key df)).
      split; [done |]. by apply elem_of_groupby_size.
  - intros c. rewrite merge_sort_Permutation, (elem_of_unique _ _ _ String_eqb_decides).
    rewrite map_fmap, list_elem_of_fmap. split.
    + intros ([[i c'] n] & -> & Hin). exists i. by apply elem_of_groupby_size in Hin as [? _].
    + intros [i Hi]. exists ((i, c), occurrences (i, c) (omap group_key df)).
      split; [done |]. by apply elem_of_groupby_size.
  - rewrite merge_sort_Permutation. apply NoDup_unique, Z_eqb_decides.
  - rewrite merge_sort_Permutation. apply NoDup_unique, String_eqb_decides.
Qed.

(** The counts of one pivoted row: positive, not all missing, and in total at
    most the number of rows of the table. *)
Lemma pivot_row_counts df i :
  let gs := groupby_size df in
  let prow := map (pivot_cell gs i) (p_columns (pivot_table gs)) in
  i ∈ p_index (pivot_table gs) →
  omap id prow ≠ []
  ∧ Forall (λ v, (0 < v)%nat) (omap id prow)
  ∧ (row_sum prow ≤ length df)%nat.
Proof.
  cbv zeta. intros Hi.
  destruct (pivot_index_columns df) as (Hindex & Hcolumns & _ & Hnd).
  cbv zeta in Hindex, Hcolumns, Hnd. split_and!.
  - apply Hindex in Hi as [c Hc].
    assert (Hin : occurrences (i, c) (omap group_key df)
                  ∈ omap id (map (pivot_cell (groupby_size df) i)
                               (p_columns (pivot_table (groupby_size df))))).
    { apply list_elem_of_omap. exists (Some (occurrences (i, c) (omap group_key df))).
      split; [| done]. rewrite map_fmap. apply list_elem_of_fmap. exists c. split.
      - rewrite pivot_cell_groupby. cbv zeta.
        pose proof (proj2 (occurrences_pos _ _) Hc).
        by destruct (Nat.eqb_spec (occurrences (i, c) (omap group_key df)) 0); [lia |].
      - apply Hcolumns. by exists i. }
    intros E. rewrite E in Hin. by apply elem_of_nil in Hin.
  - apply Forall_forall. intros v (o & Ho & Hv)%list_elem_of_omap.
    rewrite map_fmap in Ho. apply list_elem_of_fmap in Ho as (c & -> & _).
    rewrite pivot_cell_groupby in Hv. cbv zeta in Hv.
    destruct (Nat.eqb_spec (occurrences (i, c) (omap group_key df)) 0); [done |].
    simpl in Hv. injection Hv as <-. lia.
  - rewrite row_sum_pivot_cells.
    rewrite <- (map_map (pair i) (λ k, occurrences k (omap group_key df))).
    etransitivity; [apply sum_occurrences_le | apply length_omap_le].
    rewrite map_fmap. apply NoDup_fmap_2; [| done]. by intros ?? [=].
Qed.

(** One row of the normalized frame. *)
Lemma pivoted_row_sum df i :
  let gs := groupby_size df in
  let prow := map (pivot_cell gs i) (p_columns (pivot_table gs)) in
  let row := map (pct_cell (row_sum prow)) prow in
  i ∈ p_index (pivot_table gs) → Z.of_nat (length df) < 2 ^ 53 →
  present row ≠ []
  ∧ Forall (λ x, F64.is_finite x = true) (present row)
  ∧ (Rabs (sum_R (map F64.to_R (present row)) - 100) <= 1 / 1000000)%R
  ∧ (Rabs (sum_R (map F64.to_R (present row)) - 100)
     <= 1 / 1000000 * INR (length (present row)))%R.
Proof.
  intros gs prow row Hi Hlen.
  destruct (pivot_row_counts df i Hi) as (Hne & Hpos & Hsum).
  fold gs in Hne, Hpos, Hsum. fold prow in Hne, Hpos, Hsum.
  assert (Hall : Forall (λ v, (0 < v ≤ row_sum prow)%nat) (omap id prow)).
  { apply Forall_forall. intros v Hv. split.
    - by apply (proj1 (Forall_forall _ _) Hpos).
    - by apply elem_le_sum_list. }
  destruct (pct_cell_present (row_sum prow) prow Hall ltac:(lia)) as [Hpres Hfin].
  fold row in Hpres, Hfin.
  assert (Hbound : (Rabs (sum_R (map F64.to_R (present row)) - 100)
                    <= 1 / 1000000)%R).
  { rewrite Hpres, map_map. apply percentage_sum_100; try done.
    unfold row_sum in Hsum. lia. }
  split_and!; try done.
  - rewrite Hpres. intros E. apply (f_equal length) in E.
    rewrite length_map in E. by destruct (omap id prow).
  - apply Rle_trans with (1 / 1000000)%R; [done |].
    assert (1 <= INR (length (present row)))%R.
    { apply (le_INR 1). rewrite Hpres, length_map.
      destruct (omap id prow); [done | simpl; lia]. }
    lra.
Qed.

(** No row of [example_gender] answers "Female" in 2014: the pivoted counts
    have no value in that cell, and the pivoted percentages hold [NaN]
    there, not 0. *)
Lemma pivot_absent_cell_is_nan :
  occurrences (2014, "Female")
    (omap group_key (filter (λ r, QuestionID r = 2) example_gender)) = 0%nat
  ∧ p_index (pivoted_pct example_gender 2) = [2014; 2016]
  ∧ p_columns (pivoted_pct example_gender 2) = ["Female"; "Male"]
  ∧ cell_at (pivoted_pct example_gender 2) 2014 "Female" = Some F64.nan
  ∧ F64.eqb F64.nan (F64.of_Z 0) = false.
Proof. split_and!; by vm_compute. Qed.

(** C2 (amended).  For every table of fewer than [2^53] rows and every
    question id, the pivoted percentages have one row for each survey wave
    and one column for each answer observed for the question; the cell of a
    wave and an answer that no row combines is missing ([NaN], not 0); every
    other cell is [count / row sum * 100], the row sum taken over the cells
    of the row that hold a count; and in every row the cells that hold a
    number are finite and add up to 100 within [1e-6], hence within [1e-6]
    times their number.  [create_lineplot] builds this frame for each of the
    first two question ids. *)
Theorem pivoted_rows_normalized (df : SurveyTable) (q : Z) :
  Z.of_nat (length df) < 2 ^ 53 →
  let keys := omap group_key (filter (λ r, QuestionID r = q) df) in
  let P := pivoted_pct df q in
  (∀ i, i ∈ p_index P ↔ ∃ c, (i, c) ∈ keys)
  ∧ (∀ c, c ∈ p_columns P ↔ ∃ i, (i, c) ∈ keys)
  ∧ NoDup (p_index P) ∧ NoDup (p_columns P)
  ∧ p_cells P
    = map (λ i, map (pct_of_keys keys (p_columns P) i) (p_columns P)) (p_index P)
  ∧ (∀ i c, (i, c) ∉ keys → pct_of_keys keys (p_columns P) i c = F64.nan)
  ∧ (∀ row, row ∈ p_cells P →
       present row ≠ []
       ∧ Forall (λ x, F64.is_finite x = true) (present row)
       ∧ (Rabs (sum_R (map F64.to_R (present row)) - 100) <= 1 / 1000000)%R
       ∧ (Rabs (sum_R (map F64.to_R (present row)) - 100)
          <= 1 / 1000000 * INR (length (present row)))%R)
  ∧ (∀ questions,
       create_lineplot df questions = map (pivoted_pct df) (take 2 questions)).
Proof.
  intros Hlen. cbv zeta.
  set (curr := filter (λ r, QuestionID r = q) df).
  assert (Hcurr : (length curr ≤ length df)%nat) by apply length_filter.
  destruct (pivot_index_columns curr) as (Hindex & Hcolumns & Hnd1 & Hnd2).
  cbv zeta in Hindex, Hcolumns, Hnd1, Hnd2.
  split_and!; try done.
  - apply (pivoted_pct_cells df q).
  - intros i c Hic. unfold pct_of_keys. cbv zeta.
    destruct (Nat.eqb_spec (occurrences (i, c) (omap group_key curr)) 0) as [| Hne];
      [done |].
    exfalso. apply Hic, occurrences_pos. lia.
  - intros row Hrow. unfold pivoted_pct, normalize_rows in Hrow. simpl in Hrow.
    rewrite map_fmap in Hrow. apply list_elem_of_fmap in Hrow as (prow & -> & Hprow).
    unfold pivot_table in Hprow. simpl in Hprow.
    rewrite map_fmap in Hprow. apply list_elem_of_fmap in Hprow as (i & -> & Hi).
    apply (pivoted_row_sum curr i); [done | lia].
Qed.

Lemma pivoted_rows_normalized_witness :
  Z.of_nat (length example_gender) < 2 ^ 53
  ∧ ∀ row, row ∈ p_cells (pivoted_pct example_gender 2) →
      (Rabs (sum_R (map F64.to_R (present row)) - 100) <= 1 / 1000000)%R.
Proof.
  assert (Hlen : Z.of_nat (length example_gender) < 2 ^ 53) by reflexivity.
  split; [exact Hlen |].
  intros row Hrow.
  destruct (pivoted_rows_normalized example_gender 2 Hlen)
    as (_ & _ & _ & _ & _ & _ & Hrows & _).
  destruct (Hrows row Hrow) as (_ & _ & Hb & _). exact Hb.
Defined.

(** ** The frames built in the store *)

(** One step of a sequence: the first computation returns. *)
Lemma bind_run {A B} (m : Store.M A) (k : A → Store.M B) σ a σ' :
  m σ = (Some a, σ') → (m ≫= k) σ = k a σ'.
Proof. intros E. unfold mbind, Store.M_bind. by rewrite E. Qed.

Lemma read_survey_run (σ : Store.heap) (df : Store.loc) t :
  σ !! df = Some (Store.Survey t) → Store.read_survey df σ = (Some t, σ).
Proof.
  intros E. unfold Store.read_survey.
  rewrite (bind_run (Store.read df) _ σ (Store.Survey t) σ); [done |].
  unfold Store.read. by f_equal.
Qed.

(** Reading the newest object. *)
Lemma read_survey_last (σ : Store.heap) t :
  Store.read_survey (length σ) (σ ++ [Store.Survey t])
  = (Some t, σ ++ [Store.Survey t]).
Proof. apply read_survey_run. by apply list_lookup_middle. Qed.

(** An assignment to the newest object replaces that object. *)
Lemma assign_last (σ : Store.heap) t name values :
  Store.assign (length σ) name values (σ ++ [Store.Columns t])
  = (Some (), σ ++ [Store.Columns (set_column name values t)]).
Proof.
  unfold Store.assign, Store.read_columns.
  assert (Store.read (length σ) (σ ++ [Store.Columns t])
          = (Some (Store.Columns t), σ ++ [Store.Columns t])) as Hr.
  { unfold Store.read. f_equal. by apply list_lookup_middle. }
  rewrite (bind_run _ _ _ t (σ ++ [Store.Columns t]));
    [| by rewrite (bind_run _ _ _ _ _ Hr)].
  unfold Store.write, Store.loc, Store.heap. f_equal.
  by rewrite insert_app_r_alt, Nat.sub_diag by done.
Qed.

(** An assignment to the caller's own frame would show in the store. *)
Example assign_changes_object :
  (Store.assign 0%nat "Percentage" [Num (F64.of_Z 1)]
     [Store.Columns [("Count", [Int 1])]]).2
  = [Store.Columns [("Count", [Int 1]); ("Percentage", [Num (F64.of_Z 1)])]].
Proof. reflexivity. Qed.

(** The estimator run on a reference to [t] returns a new frame that holds
    the estimates of [create_prevalence_barplot t]. *)
Lemma prevalence_frame_built (σ : Store.heap) (df : Store.loc) t q1 q2 :
  σ !! df = Some (Store.Survey t) →
  Store.create_prevalence_barplot df q1 q2 σ
  = (Some (length σ),
     σ ++ [Store.Columns
             (Store.estimates_frame (create_prevalence_barplot t q1 q2))]).
Proof.
  intros Hdf. unfold Store.create_prevalence_barplot.
  erewrite bind_run by (by apply read_survey_run).
  erewrite bind_run by reflexivity.
  do 3 (erewrite bind_run by apply assign_last).
  unfold Store.estimates_frame, create_prevalence_barplot, Store.value_counts_frame.
  cbn [set_column fst String.eqb Ascii.eqb Bool.eqb].
  by rewrite !map_map.
Qed.

(** The aggregator leaves the selected rows and the distribution table of
    [create_gender_barplot t] behind the objects of the caller. *)
Lemma gender_frame_built (σ : Store.heap) (df : Store.loc) t :
  σ !! df = Some (Store.Survey t) →
  Store.create_gender_barplot df σ
  = (Some (S (length σ)),
     σ ++ [Store.Survey (filter (λ r, QuestionID r = 2) t);
           Store.Columns (Store.distribution_frame (create_gender_barplot t))]).
Proof.
  intros Hdf. unfold Store.create_gender_barplot.
  erewrite bind_run by (by apply read_survey_run).
  erewrite bind_run by reflexivity.
  erewrite bind_run by apply read_survey_last.
  erewrite bind_run by reflexivity.
  erewrite bind_run by apply assign_last.
  unfold mret, Store.M_ret. rewrite length_app, <- app_assoc. simpl length.
  rewrite Nat.add_1_r. do 4 f_equal.
  rewrite create_gender_barplot_rows. unfold transform_sum, gender_counts.
  rewrite zip_with_map_diag.
  unfold Store.distribution_frame, Store.counts_frame.
  cbn [set_column fst String.eqb Ascii.eqb Bool.eqb].
  by rewrite !map_map.
Qed.

Lemma read_columns_last (σ : Store.heap) t :
  Store.read_columns (length σ) (σ ++ [Store.Columns t])
  = (Some t, σ ++ [Store.Columns t]).
Proof.
  unfold Store.read_columns.
  rewrite (bind_run _ _ _ (Store.Columns t) (σ ++ [Store.Columns t])); [done |].
  unfold Store.read. f_equal. by apply list_lookup_middle.
Qed.

(** Reading and replacing a column whose name occurs once. *)
Lemma column_cons name (c : string * list cell) (df : Frame) :
  column name (c :: df) = if decide (c.1 = name) then c.2 else column name df.
Proof.
  unfold column. cbn [list_find]. destruct (decide (c.1 = name)); [done |].
  by destruct (list_find _ df) as [[? ?] |].
Qed.

Lemma column_middle name values (before after : Frame) :
  name ∉ map fst before →
  column name (before ++ (name, values) :: after) = values.
Proof.
  induction before as [| c before IH]; intros Hn; simpl app; rewrite column_cons.
  - by rewrite decide_True.
  - rewrite decide_False.
    + apply IH. intros E. apply Hn. simpl. apply elem_of_cons. by right.
    + intros E. apply Hn. simpl. apply elem_of_cons. by left.
Qed.

Lemma set_column_middle name old values (before after : Frame) :
  name ∉ map fst before →
  set_column name values (before ++ (name, old) :: after)
  = before ++ (name, values) :: after.
Proof.
  induction before as [| c before IH]; intros Hn; simpl.
  - by rewrite String.eqb_refl.
  - destruct (String.eqb_spec c.1 name) as [E | E].
    + exfalso. apply Hn. simpl. apply elem_of_cons. by left.
    + f_equal. apply IH. intros E'. apply Hn. simpl. apply elem_of_cons. by right.
Qed.

Lemma occurrences_NoDup {A} `{EqDecision A} (k : A) (l : list A) :
  NoDup l → k ∈ l → occurrences k l = 1%nat.
Proof.
  induction 1 as [| a l Ha Hl IH]; intros Hk; [by apply elem_of_nil in Hk |].
  rewrite occurrences_cons. destruct (decide (a = k)) as [-> | Hne].
  - destruct (Nat.eq_0_gt_0_cases (occurrences k l)) as [-> | Hpos]; [done |].
    by apply occurrences_pos in Hpos.
  - apply elem_of_cons in Hk as [-> | Hk]; [done |]. by rewrite IH.
Qed.

Lemma NoDup_occurrences {A} `{EqDecision A} (l : list A) :
  (∀ k, k ∈ l → occurrences k l = 1%nat) → NoDup l.
Proof.
  induction l as [| a l IH]; intros Hall; [constructor |].
  assert (Ha := Hall a (list_elem_of_here a l)).
  rewrite occurrences_cons, decide_True in Ha by done.
  constructor.
  - intros Hin%occurrences_pos. lia.
  - apply IH. intros k Hk. specialize (Hall k (list_elem_of_further k a l Hk)).
    rewrite occurrences_cons in Hall. apply occurrences_pos in Hk.
    destruct (decide (a = k)); lia.
Qed.

(** A name that occurs twice among the names of a list with a repetition. *)
Lemma repeated_occurrence {A} `{EqDecision A} (l : list A) :
  ¬ NoDup l → ∃ k, k ∈ l ∧ occurrences k l ≠ 1%nat.
Proof.
  intros Hnd.
  destruct (decide (Forall (λ k, occurrences k l = 1%nat) l)) as [Hall | Hex].
  - destruct Hnd. apply NoDup_occurrences. by apply Forall_forall.
  - apply not_Forall_Exists in Hex; [| apply _].
    apply Exists_exists in Hex as (k & Hk & Hn). by exists k.
Qed.

Lemma set_column_names name values (df : Frame) :
  name ∈ map fst df → map fst (set_column name values df) = map fst df.
Proof.
  induction df as [| c df IH]; intros Hin; [by apply elem_of_nil in Hin |].
  simpl. destruct (String.eqb_spec c.1 name) as [E | E]; simpl.
  - by rewrite E.
  - f_equal. apply IH. simpl in Hin. by apply elem_of_cons in Hin as [-> | Hin].
Qed.

Lemma bind_raise {A B} (m : Store.M A) (k : A → Store.M B) σ σ' :
  m σ = (None, σ') → (m ≫= k) σ = (None, σ').
Proof. intros E. unfold mbind, Store.M_bind. by rewrite E. Qed.

Section StoreCoercion.
Context `{Pandas} `{Builtins}.

(** One turn of the loop on the newest object. *)
Lemma coerce_in_place_last (σ : Store.heap) (cur : Frame) (col : string) :
  Store.coerce_in_place (length σ) col (σ ++ [Store.Columns cur])
  = if decide (occurrences col (map fst cur) = 1%nat)
    then match coerce_column (column col cur) with
         | Some values =>
             (Some (), σ ++ [Store.Columns (set_column col values cur)])
         | None => (None, σ ++ [Store.Columns cur])
         end
    else (None, σ ++ [Store.Columns cur]).
Proof.
  unfold Store.coerce_in_place.
  rewrite (bind_run _ _ _ _ _ (read_columns_last σ cur)).
  destruct (decide _); [| done].
  destruct (coerce_column _); [apply assign_last | done].
Qed.

(** The loop [for col in df.columns: df[col] = ...] on the copy, when the
    names are distinct: the columns already visited are coerced, the others
    are as they were; the loop raises at the first column that is
    refused. *)
Lemma coerce_loop (σ : Store.heap) (before todo : Frame) :
  NoDup (map fst (before ++ todo)) →
  match mapM (λ c : string * list cell, pair c.1 <$> coerce_column c.2) todo with
  | Some coerced =>
      Store.for_each (map fst todo) (Store.coerce_in_place (length σ))
        (σ ++ [Store.Columns (before ++ todo)])
      = (Some (), σ ++ [Store.Columns (before ++ coerced)])
  | None =>
      (Store.for_each (map fst todo) (Store.coerce_in_place (length σ))
         (σ ++ [Store.Columns (before ++ todo)])).1 = None
  end.
Proof.
  revert before. induction todo as [| [name values] todo IH]; intros before Hnd.
  - done.
  - cbn [map fst Store.for_each mapM].
    assert (name ∉ map fst before) as Hn.
    { rewrite map_app in Hnd. apply NoDup_app in Hnd as (_ & Hd & _).
      intros Hin. apply (Hd _ Hin). simpl. apply elem_of_cons. by left. }
    assert (Hturn := coerce_in_place_last σ (before ++ (name, values) :: todo) name).
    rewrite decide_True in Hturn.
    2:{ apply occurrences_NoDup; [done |]. rewrite map_app.
        apply elem_of_app. right. by left. }
    rewrite column_middle in Hturn by done.
    cbn [snd fst]. destruct (coerce_column values) as [coerced |] eqn:Ec.
    + rewrite set_column_middle in Hturn by done.
      rewrite !(bind_run _ _ _ _ _ Hturn).
      specialize (IH (before ++ [(name, coerced)])).
      rewrite <- !app_assoc in IH. simpl app in IH.
      assert (Hnd' : NoDup (map fst (before ++ (name, coerced) :: todo))).
      { by rewrite map_app in Hnd |- *. }
      specialize (IH Hnd').
      destruct (mapM _ todo) as [rest |]; simpl.
      * rewrite IH. by rewrite <- app_assoc.
      * exact IH.
    + simpl. by rewrite (bind_raise _ _ _ _ Hturn).
Qed.

(** With a repeated name among the columns the loop raises. *)
Lemma coerce_loop_repeated (σ : Store.heap) (names todo : list string) (cur : Frame) :
  map fst cur = names →
  (∃ k, k ∈ todo ∧ occurrences k names ≠ 1%nat) →
  (Store.for_each todo (Store.coerce_in_place (length σ))
     (σ ++ [Store.Columns cur])).1 = None.
Proof.
  revert cur. induction todo as [| a todo IH]; intros cur Hnames (k & Hk & Hocc).
  - by apply elem_of_nil in Hk.
  - cbn [Store.for_each].
    assert (Hturn := coerce_in_place_last σ cur a). rewrite Hnames in Hturn.
    destruct (decide (occurrences a names = 1%nat)) as [Ha | Ha];
      [| by rewrite (bind_raise _ _ _ _ Hturn)].
    destruct (coerce_column (column a cur)) as [values |];
      [| by rewrite (bind_raise _ _ _ _ Hturn)].
    rewrite (bind_run _ _ _ _ _ Hturn).
    apply IH.
    + rewrite set_column_names; [done |]. rewrite Hnames.
      apply occurrences_pos. lia.
    + exists k. split; [| done].
      apply elem_of_cons in Hk as [-> | Hk]; [done | done].
Qed.

End StoreCoercion.

(** X20.  The loop of the heatmap, which assigns to the copy one column
    after the other, and the column-wise coercion agree.  When the coercion
    of the frame succeeds, the call leaves the coerced copy and the frame
    handed to the correlation, which hold the same columns, behind the
    objects of the caller, and returns the latter; when a column is refused
    or a column name is repeated, the call raises. *)
Lemma correlation_frame_built `{Pandas} `{Builtins} (σ : Store.heap)
    (df : Store.loc) (t : Frame) :
  σ !! df = Some (Store.Columns t) →
  match create_correlation_heatmap t with
  | Some out =>
      Store.create_correlation_heatmap df σ
      = (Some (S (length σ)), σ ++ [Store.Columns out; Store.Columns out])
  | None => (Store.create_correlation_heatmap df σ).1 = None
  end.
Proof.
  intros Hdf. rewrite create_correlation_heatmap_coerced.
  unfold Store.create_correlation_heatmap.
  assert (Store.read_columns df σ = (Some t, σ)) as Hr.
  { unfold Store.read_columns.
    rewrite (bind_run _ _ _ (Store.Columns t) σ); [done |].
    unfold Store.read. by f_equal. }
  rewrite (bind_run _ _ _ _ _ Hr).
  erewrite bind_run by reflexivity.
  destruct (decide (NoDup (map fst t))) as [Hnd | Hnd].
  - assert (Hloop := coerce_loop σ [] t Hnd). simpl app in Hloop.
    destruct (coerced_frame t) as [copy |] eqn:Ec;
      unfold coerced_frame in Ec; rewrite decide_True in Ec by done;
      unfold Frame in *; rewrite Ec in Hloop.
    + erewrite bind_run by exact Hloop.
      erewrite bind_run by apply read_columns_last.
      unfold Store.alloc. rewrite length_app, <- app_assoc. simpl.
      rewrite Nat.add_1_r. do 5 f_equal.
      apply to_numeric_coerced_frame with t.
      unfold coerced_frame. by rewrite decide_True.
    + destruct (Store.for_each _ _ _) as [[[] |] σ'] eqn:El; [done |].
      by rewrite (bind_raise _ _ _ _ El).
  - assert (coerced_frame t = None) as ->
      by (unfold coerced_frame; by rewrite decide_False).
    assert (Hloop := coerce_loop_repeated σ (map fst t) (map fst t) t eq_refl
                       (repeated_occurrence _ Hnd)).
    destruct (Store.for_each _ _ _) as [[[] |] σ'] eqn:El; [done |].
    by rewrite (bind_raise _ _ _ _ El).
Qed.

Lemma correlation_frame_built_witness :
  Store.create_correlation_heatmap (H := Reference.pandas) (H0 := Reference.builtins)
    0%nat
    [Store.Columns [("a", [Text "Yes"; Text "7"]); ("b", [Null; Text "Maybe"])]]
  = (Some 2%nat,
     [Store.Columns [("a", [Text "Yes"; Text "7"]); ("b", [Null; Text "Maybe"])];
      Store.Columns [("a", [Int 1; Int 7]); ("b", [Null; Num (F64.decimal 5 1)])];
      Store.Columns [("a", [Int 1; Int 7]); ("b", [Null; Num (F64.decimal 5 1)])]]).
Proof.
  apply (correlation_frame_built (H := Reference.pandas) (H0 := Reference.builtins)
           [Store.Columns [("a", [Text "Yes"; Text "7"]); ("b", [Null; Text "Maybe"])]]
           0%nat [("a", [Text "Yes"; Text "7"]); ("b", [Null; Text "Maybe"])]).
  reflexivity.
Defined.

(** ** Outlier detector: the report and the feature list *)

Section OutlierReport.
Context `{Pandas}.

Lemma fold_append_new_prefix (values acc : list Z) :
  acc `prefix_of` fold_left (append_new Z.eqb) values acc.
Proof.
  revert acc. induction values as [| v values IH]; intros acc; [done |].
  simpl. etransitivity; [| apply IH]. unfold append_new.
  destruct (existsb _ acc); [done | by apply prefix_app_r].
Qed.

(** Values that are all in the list leave it as it is. *)
Lemma fold_append_new_absorbs (values acc : list Z) :
  (∀ z, z ∈ values → z ∈ acc) → fold_left (append_new Z.eqb) values acc = acc.
Proof.
  induction values as [| v values IH]; intros Hin; [done |]. simpl.
  unfold append_new at 2.
  assert (existsb (Z.eqb v) acc = true) as ->.
  { apply (existsb_decides _ _ _ Z_eqb_decides). apply Hin. by left. }
  apply IH. intros z Hz. apply Hin. by right.
Qed.

(** No flagged value, no integer. *)
Lemma feature_outliers_unique_nil col :
  feature_outliers_unique col = Returned [] → feature_outliers col = [].
Proof.
  unfold feature_outliers_unique. intros Hu.
  destruct (feature_outliers col) as [| x xs] eqn:Ex; [done |]. exfalso.
  destruct (fold_append_new_covers F64.key_eqb (x :: xs) [] x key_eqb_refl)
    as (y & Hy & _); [by left |].
  change (fold_left _ (x :: xs) []) with (unique F64.key_eqb (x :: xs)) in Hy.
  destruct (unique F64.key_eqb (x :: xs)) as [| y' ys]; [by apply elem_of_nil in Hy |].
  simpl in Hu. destruct (py_int y'); [| done].
  by destruct (comprehension py_int ys).
Qed.

(** What a run that returns has done: one line for each feature, in the
    order of the features, and the values of each line are in the list. *)
Lemma loop_report df fs acc log l :
  (find_outliers_loop df fs acc log).2 = Returned l →
  ∃ lines,
    (find_outliers_loop df fs acc log).1 = log ++ lines
    ∧ map message_feature lines = fs
    ∧ (∀ f, FeatureNotFound f ∈ lines ↔ f ∈ fs ∧ df !! f = None)
    ∧ (∀ f values, UniqueOutliers f values ∈ lines →
         values ≠ [] ∧ ∀ z, z ∈ values → z ∈ l)
    ∧ (∀ f, NoOutliers f ∈ lines →
         ∃ col, df !! f = Some col ∧ feature_outliers col = [])
    ∧ (∀ f col, f ∈ fs → df !! f = Some col →
         ∃ values, feature_outliers_unique col = Returned values
                   ∧ ∀ z, z ∈ values → z ∈ l)
    ∧ acc `prefix_of` l.
Proof.
  revert acc log. induction fs as [| f fs IH]; intros acc log; simpl.
  - intros [= <-]. exists []. rewrite app_nil_r. split_and!; try done.
    + intros f. split; [by intros ?%elem_of_nil | by intros [?%elem_of_nil _]].
    + by intros f values ?%elem_of_nil.
    + by intros f ?%elem_of_nil.
    + by intros f col ?%elem_of_nil.
  - destruct (df !! f) as [col |] eqn:E.
    + destruct (feature_outliers_unique col) as [values | e] eqn:Ev; [| done].
      intros Hl.
      destruct (IH _ _ Hl) as (lines & -> & Hfs & Hnf & Huo & Hno & Hcols & Hacc).
      assert (Hvalues : ∀ z, z ∈ values → z ∈ l).
      { intros z Hz. eapply elem_of_prefix; [| exact Hacc].
        apply (elem_of_fold_append_new_iff _ _ _ _ Z_eqb_decides). by right. }
      eexists (_ :: lines). rewrite <- app_assoc. split; [done |]. split_and!.
      * simpl. rewrite Hfs. by destruct values.
      * intros g. rewrite !elem_of_cons, Hnf. split.
        -- intros [Hg | [? ?]]; [by destruct values | by auto].
        -- intros [[-> | Hg] Eg]; [congruence | by auto].
      * intros g vs [Hg | Hg]%elem_of_cons; [| by eapply Huo].
        destruct values; [done |]. by injection Hg as -> ->.
      * intros g [Hg | Hg]%elem_of_cons; [| by apply Hno].
        destruct values; [| done]. injection Hg as ->.
        exists col. split; [done |]. by apply feature_outliers_unique_nil.
      * intros g c [-> | Hg]%elem_of_cons Eg; [| by eapply Hcols].
        exists values. by simplify_eq.
      * etransitivity; [apply fold_append_new_prefix | exact Hacc].
    + intros Hl.
      destruct (IH _ _ Hl) as (lines & -> & Hfs & Hnf & Huo & Hno & Hcols & Hacc).
      eexists (_ :: lines). rewrite <- app_assoc. split; [done |]. split_and!.
      * simpl. by rewrite Hfs.
      * intros g. rewrite !elem_of_cons, Hnf. split.
        -- intros [[= ->] | [? ?]]; by auto.
        -- intros [[-> | Hg] Eg]; by auto.
      * intros g vs [Hg | Hg]%elem_of_cons; [done | by eapply Huo].
      * intros g [Hg | Hg]%elem_of_cons; [done | by apply Hno].
      * intros g c [-> | Hg]%elem_of_cons Eg; [congruence | by eapply Hcols].
      * done.
Qed.

End OutlierReport.

(** X1.  When [find_outliers] returns, it has printed one line for each
    requested feature, in the order of the request: "not found" exactly for
    the names that are no column, a list of values only when that list is
    not empty, with every printed value in the list returned, and "no
    outliers" only for a column without a flagged value. *)
Theorem find_outliers_report `{Pandas} (df : NumericFrame) (features : list string)
    (l : list Z) :
  (find_outliers df features).2 = Returned l →
  let stdout := (find_outliers df features).1 in
  map message_feature stdout = features
  ∧ (∀ f, FeatureNotFound f ∈ stdout ↔ f ∈ features ∧ df !! f = None)
  ∧ (∀ f values, UniqueOutliers f values ∈ stdout →
       values ≠ [] ∧ ∀ z, z ∈ values → z ∈ l)
  ∧ (∀ f, NoOutliers f ∈ stdout →
       ∃ col, df !! f = Some col ∧ feature_outliers col = []).
Proof.
  intros Hl. cbv zeta. unfold find_outliers in *.
  destruct (loop_report _ _ _ _ _ Hl) as (lines & -> & ? & ? & ? & ? & _).
  rewrite app_nil_l. by split_and!.
Qed.

Lemma find_outliers_report_witness :
  (find_outliers (H := Reference.pandas) example_numeric ["x"; "missing"]).2
  = Returned [100]
  ∧ map message_feature
      (find_outliers (H := Reference.pandas) example_numeric ["x"; "missing"]).1
    = ["x"; "missing"].
Proof.
  assert (E : (find_outliers (H := Reference.pandas) example_numeric
                 ["x"; "missing"]).2 = Returned [100]) by (by vm_compute).
  split; [exact E |].
  apply (find_outliers_report (H := Reference.pandas) _ _ _ E).
Defined.

(** X2.  Requesting a feature again changes nothing in the result: the list
    returned for a feature list followed by one of its own names is the list
    returned for the feature list (and a run that raises, raises the same). *)
Theorem find_outliers_repeated_feature `{Pandas} (df : NumericFrame)
    (features : list string) (f : string) :
  f ∈ features →
  (find_outliers df (features ++ [f])).2 = (find_outliers df features).2.
Proof.
  intros Hf. unfold find_outliers. rewrite loop_app.
  destruct (find_outliers_loop df features [] []) as [log [l | e]] eqn:E; [| done].
  assert (Hl : (find_outliers_loop df features [] []).2 = Returned l) by (by rewrite E).
  destruct (loop_report _ _ _ _ _ Hl) as (_ & _ & _ & _ & _ & _ & Hcols & _).
  simpl. destruct (df !! f) as [col |] eqn:Ef; [| done].
  destruct (Hcols f col Hf Ef) as (values & -> & Hin). simpl.
  by rewrite fold_append_new_absorbs.
Qed.

Lemma find_outliers_repeated_feature_witness :
  "x" ∈ ["x"; "missing"]
  ∧ (find_outliers (H := Reference.pandas) example_numeric (["x"; "missing"] ++ ["x"])).2
    = (find_outliers (H := Reference.pandas) example_numeric ["x"; "missing"]).2.
Proof.
  assert (Hx : "x" ∈ ["x"; "missing"]) by (by left).
  split; [exact Hx |].
  apply (find_outliers_repeated_feature (H := Reference.pandas) _ _ _ Hx).
Defined.

(** X3.  More features only append: when the run over a feature list
    returns [l] and the run over a longer list returns [l'], then [l'] starts
    with [l]; and a run over the longer list returns only if the run over the
    shorter one does. *)
Theorem find_outliers_extends `{Pandas} (df : NumericFrame)
    (features more : list string) (l' : list Z) :
  (find_outliers df (features ++ more)).2 = Returned l' →
  ∃ l, (find_outliers df features).2 = Returned l ∧ l `prefix_of` l'.
Proof.
  unfold find_outliers. rewrite loop_app.
  destruct (find_outliers_loop df features [] []) as [log [l | e]]; [| done].
  intros Hl'. exists l. split; [done |].
  by destruct (loop_report _ _ _ _ _ Hl') as (_ & _ & _ & _ & _ & _ & _ & ?).
Qed.

Lemma find_outliers_extends_witness :
  (find_outliers (H := Reference.pandas) example_numeric (["missing"] ++ ["x"])).2
  = Returned [100]
  ∧ ∃ l, (find_outliers (H := Reference.pandas) example_numeric ["missing"]).2
         = Returned l ∧ l `prefix_of` [100].
Proof.
  assert (E : (find_outliers (H := Reference.pandas) example_numeric
                 (["missing"] ++ ["x"])).2 = Returned [100]) by (by vm_compute).
  split; [exact E |].
  apply (find_outliers_extends (H := Reference.pandas) _ _ _ _ E).
Defined.

(** ** Outlier detector: missing values *)

Lemma sub_nan_l x : F64.sub F64.nan x = F64.nan.
Proof. by destruct x. Qed.

Lemma sub_nan_r x : F64.sub x F64.nan = F64.nan.
Proof. by destruct x as [[] | [] | | [] ? ?]. Qed.

Lemma add_nan_r x : F64.add x F64.nan = F64.nan.
Proof. by destruct x as [[] | [] | | [] ? ?]. Qed.

Lemma is_nan_eq x : F64.is_nan x = true → x = F64.nan.
Proof. by destruct x. Qed.

(** X4.  A column whose first or third quartile is undefined ([NaN], as for
    a column without a number) has no outlier: both bounds are [NaN], no
    comparison with them holds, and the feature is reported as having no
    outliers. *)
Theorem undefined_quartile_no_outliers `{Pandas} (df : NumericFrame) (f : string)
    (col : list F64.float) :
  df !! f = Some col →
  F64.is_nan (quantile col (F64.decimal 25 2)) = true
  ∨ F64.is_nan (quantile col (F64.decimal 75 2)) = true →
  F64.is_nan (lower_bound col) = true
  ∧ F64.is_nan (upper_bound col) = true
  ∧ feature_outliers col = []
  ∧ find_outliers df [f] = ([NoOutliers f], Returned []).
Proof.
  intros Hf Hq.
  assert (Hb : lower_bound col = F64.nan ∧ upper_bound col = F64.nan).
  { unfold lower_bound, upper_bound.
    destruct Hq as [->%is_nan_eq | ->%is_nan_eq];
      by repeat (rewrite sub_nan_r || rewrite sub_nan_l
                 || rewrite mul_nan_r || rewrite add_nan_r). }
  destruct Hb as [Hlo Hup].
  assert (Hnone : feature_outliers col = []).
  { unfold feature_outliers. apply filter_none. apply Forall_forall.
    intros v _. unfold is_outlier. by rewrite Hlo, Hup, ltb_nan_l, ltb_nan_r. }
  split_and!; [by rewrite Hlo | by rewrite Hup | done |].
  unfold find_outliers. simpl. rewrite Hf.
  unfold feature_outliers_unique. by rewrite Hnone.
Qed.

Lemma undefined_quartile_no_outliers_witness :
  find_outliers (H := Reference.pandas) (list_to_map [("x", [])]) ["x"]
  = ([NoOutliers "x"], Returned []).
Proof.
  apply (undefined_quartile_no_outliers (H := Reference.pandas)
           (list_to_map [("x", [])]) "x" []); [reflexivity |].
  left. reflexivity.
Defined.

(** X5.  A missing cell ([NaN]) is never flagged, whatever the bounds of its
    column are: no comparison with [NaN] holds. *)
Theorem missing_cells_not_flagged `{Pandas} (col : list F64.float) :
  Forall (λ v, F64.is_nan v = false) (feature_outliers col).
Proof.
  apply Forall_forall. intros v [_ Hv]%elem_of_feature_outliers.
  by apply is_outlier_not_nan in Hv.
Qed.

(** ** Age histograms *)

Section AgeHistplotFacts.
Context `{Pandas} (int_of_text : string → option Z).

Lemma leb_nan_r x : SFleb x F64.nan = false.
Proof. by destruct x as [[] | [] | | [] ? ?]. Qed.

(** X6.  The rows the histograms are drawn from are the rows of question 1
    whose answer is a text that denotes a number between 18 and 64, both
    included.  A missing answer and a text that is no number are left out,
    and raise nothing. *)
Theorem age_df_rows (df : SurveyTable) (r : SurveyRecord) :
  r ∈ age_df df ↔
  r ∈ df ∧ QuestionID r = 1
  ∧ ∃ s x, AnswerText r = Some s ∧ str_to_numeric s = Some x
           ∧ SFleb (F64.of_Z 18) x = true ∧ SFleb x (F64.of_Z 64) = true.
Proof.
  unfold age_df. rewrite list_elem_of_filter. unfold Store.working_age, to_numeric_answer.
  split.
  - intros [[Hq Hw] Hr]. split_and!; try done.
    apply andb_true_iff in Hw as [Hlo Hhi].
    destruct (AnswerText r) as [s |]; [| by rewrite leb_nan_r in Hlo].
    destruct (str_to_numeric s) as [x |] eqn:Es; [| by rewrite leb_nan_r in Hlo].
    by exists s, x.
  - intros (Hr & Hq & s & x & -> & Hs & Hlo & Hhi). split; [| done].
    split; [done |]. rewrite Hs. change (default F64.nan (Some x)) with x. by rewrite Hlo, Hhi.
Qed.

(** A run of the loop draws every year exactly when the axes suffice and
    every year's answers are integer literals. *)
Lemma histplot_loop_drawn df i years panels :
  histplot_loop int_of_text df i years = Drawn panels ↔
  (years = [] ∨ i + length years ≤ n_axes)%nat
  ∧ mapM (λ y, pair y <$> year_ages int_of_text df y) years = Some panels.
Proof.
  revert i panels. induction years as [| y years IH]; intros i panels; simpl.
  - split; [intros [= <-]; by auto | by intros [_ [= <-]]].
  - destruct (decide (i < n_axes)%nat) as [Hi | Hi].
    + destruct (year_ages int_of_text df y) as [data |]; simpl.
      * destruct (histplot_loop int_of_text df (S i) years) as [ps | e] eqn:E.
        -- apply IH in E as [Hlen ->]. simpl. split.
           ++ intros [= <-]. split; [| done]. right.
              destruct Hlen as [-> | Hlen]; simpl; lia.
           ++ by intros [_ [= <-]].
        -- split; [done |]. intros [[? | Hlen] Hm]; [done |].
           destruct (mapM _ years) as [ps |] eqn:Ep; [| done].
           assert (histplot_loop int_of_text df (S i) years = Drawn ps) as Hd.
           { apply IH. split; [right; lia | done]. }
           congruence.
      * split; [done |]. by intros [_ ?].
    + split; [done |]. intros [[? | Hlen] _]; [done | lia].
Qed.

(** A run fails for want of an axis exactly when there are more years than
    axes and the answers of the years that have an axis are integer
    literals. *)
Lemma histplot_loop_index_error df i years :
  histplot_loop int_of_text df i years = Failed IndexError ↔
  (n_axes < i + length years)%nat ∧ years ≠ []
  ∧ ∀ y, y ∈ take (n_axes - i) years → is_Some (year_ages int_of_text df y).
Proof.
  revert i. induction years as [| y years IH]; intros i; simpl.
  - split; [done | by intros (_ & ? & _)].
  - destruct (decide (i < n_axes)%nat) as [Hi | Hi].
    + replace (n_axes - i)%nat with (S (n_axes - S i)) by lia. simpl.
      destruct (year_ages int_of_text df y) as [data |] eqn:Ey.
      * destruct (histplot_loop int_of_text df (S i) years) as [ps | e] eqn:E.
        -- split; [done |]. intros (Hlen & _ & Hall).
           assert (histplot_loop int_of_text df (S i) years = Failed IndexError) as Hd.
           { apply IH. split_and!; [lia | | intros z Hz; apply Hall; by right].
             intros ->. simpl in Hlen. unfold n_axes in *. lia. }
           congruence.
        -- split.
           ++ intros [= ->]. apply IH in E as (Hlen & _ & Hall).
              split_and!; [lia | done |].
              intros z [-> | Hz]%elem_of_cons; [by rewrite Ey | by apply Hall].
           ++ intros (Hlen & _ & Hall). f_equal.
              assert (Failed (A := list (Z * list Z)) e = Failed IndexError) as Hd;
                [| by injection Hd].
              rewrite <- E. apply IH. split_and!; [lia | | intros z Hz; apply Hall; by right].
              intros ->. simpl in Hlen. unfold n_axes in *. lia.
      * split; [done |]. intros (_ & _ & Hall).
        destruct (Hall y) as [? ?]; [by left | congruence].
    + replace (n_axes - i)%nat with 0%nat by lia. simpl. split; [| done].
      intros _. split_and!; [lia | done |]. by intros z ?%elem_of_nil.
Qed.

(** Every selected row belongs to one of the survey years. *)
Lemma elem_of_survey_years df y :
  y ∈ survey_years df ↔ ∃ r, r ∈ age_df df ∧ SurveyID r = y.
Proof.
  unfold survey_years. rewrite (elem_of_unique _ _ _ Z_eqb_decides).
  rewrite map_fmap, list_elem_of_fmap. split.
  - intros (r & -> & Hr). by exists r.
  - intros (r & Hr & <-). by exists r.
Qed.

Lemma year_ages_is_Some df :
  (∀ y, y ∈ survey_years df → is_Some (year_ages int_of_text df y))
  ↔ Forall (λ r, is_Some (AnswerText r ≫= int_of_text)) (age_df df).
Proof.
  rewrite Forall_forall. unfold year_ages. split.
  - intros Hall r Hr.
    specialize (Hall (SurveyID r)). rewrite mapM_is_Some, Forall_forall in Hall.
    apply Hall; [apply elem_of_survey_years; by exists r |].
    by apply list_elem_of_filter.
  - intros Hall y _. apply mapM_is_Some, Forall_forall.
    intros r [_ Hr]%list_elem_of_filter. by apply Hall.
Qed.

(** X7.  [create_age_histplot] draws its panels exactly when the selected
    rows span at most five survey years and every selected answer is an
    integer literal; it raises [IndexError] exactly when there are more than
    five years and the answers of the first five are integer literals. *)
Theorem create_age_histplot_outcome (df : SurveyTable) :
  ((∃ panels, create_age_histplot int_of_text df = Drawn panels) ↔
     (length (survey_years df) ≤ 5)%nat
     ∧ Forall (λ r, is_Some (AnswerText r ≫= int_of_text)) (age_df df))
  ∧ (create_age_histplot int_of_text df = Failed IndexError ↔
       (5 < length (survey_years df))%nat
       ∧ ∀ y, y ∈ take 5 (survey_years df) →
              is_Some (year_ages int_of_text df y)).
Proof.
  unfold create_age_histplot. split.
  - rewrite <- year_ages_is_Some. split.
    + intros [panels [Hlen Hm]%histplot_loop_drawn]. split.
      * destruct Hlen as [-> | Hlen]; [simpl; lia | exact Hlen].
      * intros y Hy.
        assert (Hs : is_Some (mapM (λ y, pair y <$> year_ages int_of_text df y)
                                (survey_years df))) by (by eexists).
        rewrite mapM_is_Some, Forall_forall in Hs. specialize (Hs y Hy).
        simpl in Hs. by apply fmap_is_Some in Hs.
    + intros [Hlen Hall].
      assert (Hs : is_Some (mapM (λ y, pair y <$> year_ages int_of_text df y)
                              (survey_years df))).
      { apply mapM_is_Some, Forall_forall. intros y Hy. simpl.
        by apply fmap_is_Some, Hall. }
      destruct Hs as [panels Hm]. exists panels.
      apply histplot_loop_drawn. split; [right; exact Hlen | done].
  - rewrite histplot_loop_index_error. unfold n_axes. simpl. split.
    + intros (Hlen & _ & Hall). by split.
    + intros [Hlen Hall]. split_and!; [done | | done].
      intros E. rewrite E in Hlen. simpl in Hlen. lia.
Qed.

Lemma sum_indicator_present {K} `{EqDecision K} (x : K) (ks : list K) :
  NoDup ks → x ∈ ks →
  sum_list (map (λ k, if decide (x = k) then 1%nat else 0%nat) ks) = 1%nat.
Proof.
  induction 1 as [| k ks Hk Hnd IH]; [by intros ?%elem_of_nil |].
  intros [-> | Hx]%elem_of_cons; simpl.
  - rewrite decide_True by done. by rewrite sum_indicator_absent.
  - rewrite decide_False; [by rewrite IH |]. intros ->. done.
Qed.

(** The groups of a list by a key, over distinct keys that cover the list,
    have the list's length in total. *)
Lemma group_lengths {A K} `{EqDecision K} (f : A → K) (l : list A) (ks : list K) :
  NoDup ks → (∀ a, a ∈ l → f a ∈ ks) →
  sum_list (map (λ k, length (filter (λ a, f a = k) l)) ks) = length l.
Proof.
  intros Hnd. induction l as [| a l IH]; intros Hin.
  - clear. induction ks as [| k ks IHk]; [done |]. exact IHk.
  - change (length (a :: l)) with (1 + length l)%nat.
    rewrite <- (IH (λ b Hb, Hin b (list_elem_of_further _ _ _ Hb))).
    rewrite <- (sum_indicator_present (f a) ks Hnd (Hin a (list_elem_of_here _ _))).
    rewrite <- sum_list_map_add. f_equal. apply map_ext. intros k.
    rewrite filter_cons. by destruct (decide (f a = k)).
Qed.

Lemma panels_of_years df (ys : list Z) (panels : list (Z * list Z)) :
  Forall2 (λ y p, pair y <$> year_ages int_of_text df y = Some p) ys panels →
  map fst panels = ys
  ∧ sum_list (map (λ p, length p.2) panels)
    = sum_list (map (λ y, length (filter (λ r, SurveyID r = y) (age_df df))) ys).
Proof.
  induction 1 as [| y p ys ps Hp _ [IH1 IH2]]; [done |]. simpl.
  rewrite IH1, IH2. unfold year_ages in Hp.
  destruct (mapM _ (filter _ (age_df df))) as [d |] eqn:E; simplify_eq/=.
  by rewrite (length_mapM _ _ _ E).
Qed.

(** X8.  The panels [create_age_histplot] draws split the selected rows by
    survey year: one panel for each year, in the order in which the years
    first appear, no panel empty, the ages of a panel being the answers of
    the rows of its year, and all panels together holding as many ages as
    there are selected rows. *)
Theorem create_age_histplot_panels (df : SurveyTable) (panels : list (Z * list Z)) :
  create_age_histplot int_of_text df = Drawn panels →
  map fst panels = survey_years df
  ∧ NoDup (map fst panels)
  ∧ (∀ y data, (y, data) ∈ panels →
       data ≠ []
       ∧ Forall2 (λ r z, AnswerText r ≫= int_of_text = Some z)
           (filter (λ r, SurveyID r = y) (age_df df)) data)
  ∧ sum_list (map (λ p, length p.2) panels) = length (age_df df).
Proof.
  unfold create_age_histplot. intros [_ Hm]%histplot_loop_drawn.
  apply mapM_Some in Hm.
  destruct (panels_of_years _ _ _ Hm) as [Hfst Hsum].
  assert (Hnd : NoDup (survey_years df)) by apply NoDup_unique, Z_eqb_decides.
  assert (Hdata : ∀ y data, (y, data) ∈ panels →
            y ∈ survey_years df ∧ year_ages int_of_text df y = Some data).
  { intros y data Hin. apply list_elem_of_lookup in Hin as [i Hi].
    destruct (Forall2_lookup_r _ _ _ _ _ Hm Hi) as (y' & Hy' & Hp).
    destruct (year_ages int_of_text df y') as [d |] eqn:E; simplify_eq/=.
    split; [by eapply list_elem_of_lookup_2 | done]. }
  split_and!; [done | by rewrite Hfst | |].
  - intros y data Hin. destruct (Hdata y data Hin) as [Hy Hd].
    unfold year_ages in Hd. split; [| by apply mapM_Some].
    apply length_mapM in Hd. apply elem_of_survey_years in Hy as (r & Hr & Ey).
    intros ->. simpl in Hd.
    assert (Hin' : r ∈ filter (λ r, SurveyID r = y) (age_df df))
      by (by apply list_elem_of_filter).
    destruct (filter _ (age_df df)); [by apply elem_of_nil in Hin' | done].
  - rewrite Hsum. apply (group_lengths SurveyID (age_df df) _ Hnd).
    intros r Hr. apply elem_of_survey_years. by exists r.
Qed.

End AgeHistplotFacts.

(** Six survey years are one more than there are axes. *)
Example create_age_histplot_six_years :
  create_age_histplot (H := Reference.pandas) int_literal
    (map (answer 1 "30") [2014; 2016; 2017; 2018; 2019; 2020])
  = Failed IndexError.
Proof. by vm_compute. Qed.

Lemma create_age_histplot_panels_witness :
  create_age_histplot (H := Reference.pandas) int_literal example_ages
  = Drawn [(2016, [25; 64]); (2014, [40])]
  ∧ sum_list (map (λ p, length p.2) [(2016, [25; 64]); (2014, [40])])
    = length (age_df (H := Reference.pandas) example_ages).
Proof.
  assert (E : create_age_histplot (H := Reference.pandas) int_literal example_ages
              = Drawn [(2016, [25; 64]); (2014, [40])]) by (by vm_compute).
  split; [exact E |].
  apply (create_age_histplot_panels (H := Reference.pandas) int_literal _ _ E).
Defined.

(** ** Distribution table and its bar labels *)

Lemma string_compare_trans s1 s2 s3 :
  (s1 ?= s2)%string ≠ Gt → (s2 ?= s3)%string ≠ Gt → (s1 ?= s3)%string ≠ Gt.
Proof.
  revert s2 s3. induction s1 as [| c1 s1 IH]; intros [| c2 s2] [| c3 s3];
    simpl; try done.
  unfold Ascii.compare.
  destruct (N.compare_spec (N_of_ascii c1) (N_of_ascii c2)) as [E12 | L12 | G12];
    destruct (N.compare_spec (N_of_ascii c2) (N_of_ascii c3)) as [E23 | L23 | G23];
    destruct (N.compare_spec (N_of_ascii c1) (N_of_ascii c3)) as [E13 | L13 | G13];
    try done; try lia.
  apply IH.
Qed.

Lemma leb_compare s1 s2 : String.leb s1 s2 = true ↔ (s1 ?= s2)%string ≠ Gt.
Proof. unfold String.leb. by destruct (s1 ?= s2)%string. Qed.

#[local] Instance key_le_trans : Transitive key_le.
Proof.
  intros [a1 a2] [b1 b2] [c1 c2]. unfold key_le. simpl.
  intros [? | [-> Hab]] [? | [-> Hbc]]; try (left; lia).
  right. split; [done |]. apply leb_compare.
  by apply (string_compare_trans a2 b2 c2); apply leb_compare.
Qed.

#[local] Instance key_le_total : Total key_le.
Proof.
  intros [a1 a2] [b1 b2]. unfold key_le. simpl.
  destruct (Z.lt_total a1 b1) as [? | [-> | ?]]; [by auto | | by auto].
  destruct (String.leb_total a2 b2); by auto.
Qed.

#[local] Instance row_le_trans : Transitive row_le.
Proof. intros a b c. unfold row_le. apply key_le_trans. Qed.

#[local] Instance row_le_total : Total row_le.
Proof. intros a b. unfold row_le. apply key_le_total. Qed.

Lemma gender_counts_keys_NoDup df : NoDup (map fst (gender_counts df)).
Proof.
  unfold gender_counts. rewrite merge_sort_Permutation.
  apply groupby_size_keys_NoDup.
Qed.

Lemma row_key_rows df :
  map row_key (create_gender_barplot df) = map fst (gender_counts df).
Proof.
  rewrite create_gender_barplot_rows, map_map. apply map_ext. by intros [[] ?].
Qed.

Lemma elem_of_row_keys df k :
  k ∈ map row_key (create_gender_barplot df)
  ↔ k ∈ omap group_key (filter (λ r, QuestionID r = 2) df).
Proof.
  rewrite row_key_rows. unfold gender_counts.
  rewrite merge_sort_Permutation, groupby_size_keys.
  apply (elem_of_unique _ _ _ key_eqb_decides).
Qed.

(** X9.  The distribution table has one row for each pair of a survey wave
    and an answer that some row of question 2 combines, in ascending order of
    the wave and then of the answer; the count of a row is the number of
    rows of question 2 with this wave and answer, and is positive. *)
Theorem distribution_rows (df : SurveyTable) :
  let rows := create_gender_barplot df in
  let keys := omap group_key (filter (λ r, QuestionID r = 2) df) in
  NoDup (map row_key rows)
  ∧ StronglySorted (λ a b, key_le (row_key a) (row_key b)) rows
  ∧ (∀ k, k ∈ map row_key rows ↔ k ∈ keys)
  ∧ Forall (λ r, d_Count r = occurrences (row_key r) keys ∧ (0 < d_Count r)%nat) rows.
Proof.
  cbv zeta. split_and!.
  - rewrite row_key_rows. apply gender_counts_keys_NoDup.
  - rewrite create_gender_barplot_rows, map_fmap.
    apply (StronglySorted_fmap _ row_le); [by intros [[] ?] [[] ?] |].
    unfold gender_counts. apply StronglySorted_merge_sort; apply _.
  - apply elem_of_row_keys.
  - rewrite create_gender_barplot_rows, map_fmap, Forall_fmap.
    apply Forall_forall. intros [k n] Hin. simpl.
    unfold gender_counts in Hin. rewrite merge_sort_Permutation in Hin.
    pose proof (groupby_size_positive (filter (λ r, QuestionID r = 2) df)) as Hpos.
    rewrite Forall_forall in Hpos. specialize (Hpos _ Hin).
    apply elem_of_groupby_size in Hin as [_ ->]. split; [| done].
    by destruct k.
Qed.









(** X11.  On a table without an answer to question 2 the labels are not
    drawn: the width of a category is [0.8] divided by the number of
    answers, the integer zero, and the division raises.  On every other
    table the division succeeds. *)
Theorem bar_labels_zero_division (df : SurveyTable) :
  gender_barplot_labels df = Failed ZeroDivisionError
  ↔ ∀ r, r ∈ df → QuestionID r = 2 → AnswerText r = None.
Proof.
  unfold gender_barplot_labels, bar_labels. cbv zeta.
  set (rows := create_gender_barplot df).
  assert (Hkeys : ∀ k, k ∈ map row_key rows
                       ↔ k ∈ omap group_key (filter (λ r, QuestionID r = 2) df))
    by apply elem_of_row_keys.
  destruct (decide _) as [Hn | Hn].
  - split; [intros _ | done]. intros r Hr Hq.
    destruct (AnswerText r) as [a |] eqn:Ea; [| done]. exfalso.
    assert (Hk : (SurveyID r, a) ∈ map row_key rows).
    { apply Hkeys, list_elem_of_omap. exists r.
      split; [by apply list_elem_of_filter |]. unfold group_key. by rewrite Ea. }
    rewrite map_fmap, list_elem_of_fmap in Hk. destruct Hk as (row & Ek & Hrow).
    assert (Hg : d_AnswerText row ∈ unique String.eqb (map d_AnswerText rows)).
    { apply (elem_of_unique _ _ _ String_eqb_decides).
      rewrite map_fmap, list_elem_of_fmap. by exists row. }
    apply length_zero_iff_nil in Hn. rewrite Hn in Hg. by apply elem_of_nil in Hg.
  - split; [done |]. intros Hnone. exfalso. apply Hn.
    destruct (unique String.eqb (map d_AnswerText rows)) as [| g gs] eqn:Eg; [done |].
    assert (Hg : g ∈ map d_AnswerText rows).
    { apply (elem_of_unique String.eqb _ _ String_eqb_decides). rewrite Eg. by left. }
    rewrite map_fmap, list_elem_of_fmap in Hg. destruct Hg as (row & -> & Hrow).
    assert (Hk : row_key row ∈ omap group_key (filter (λ r, QuestionID r = 2) df)).
    { apply Hkeys. rewrite map_fmap, list_elem_of_fmap. by exists row. }
    apply list_elem_of_omap in Hk as (r & [Hq Hr]%list_elem_of_filter & Hkey).
    unfold group_key in Hkey. by rewrite (Hnone r Hr Hq) in Hkey.
Qed.

(** ** Pivoted trend builder: order of the labels, empty frames *)

#[local] Instance str_le_trans : Transitive str_le.
Proof.
  intros a b c. unfold str_le. rewrite !leb_compare. apply string_compare_trans.
Qed.

#[local] Instance str_le_total : Total str_le.
Proof. intros a b. apply String.leb_total. Qed.

Lemma StronglySorted_strict {A} (R R' : relation A) (l : list A) :
  (∀ a b, R a b → a ≠ b → R' a b) →
  StronglySorted R l → NoDup l → StronglySorted R' l.
Proof.
  intros Himp. induction 1 as [| a l _ IH Hall]; intros Hnd; [constructor |].
  apply NoDup_cons in Hnd as [Ha Hnd]. constructor; [by apply IH |].
  rewrite Forall_forall in Hall |- *. intros b Hb. apply Himp; [by apply Hall |].
  by intros ->.
Qed.

(** X12.  In the pivoted frame of a question the survey waves stand in
    strictly ascending order and the answers in strictly ascending
    alphabetical order. *)
Theorem pivoted_labels_ascending (df : SurveyTable) (q : Z) :
  StronglySorted Z.lt (p_index (pivoted_pct df q))
  ∧ StronglySorted (λ a b, String.ltb a b = true) (p_columns (pivoted_pct df q)).
Proof.
  destruct (pivot_index_columns (filter (λ r, QuestionID r = q) df))
    as (_ & _ & Hnd1 & Hnd2). cbv zeta in Hnd1, Hnd2.
  unfold pivoted_pct, normalize_rows. cbn [p_index p_columns]. split.
  - apply (StronglySorted_strict Z.le); [| | exact Hnd1].
    + intros a b ? ?. lia.
    + unfold pivot_table. cbn [p_index]. apply StronglySorted_merge_sort; apply _.
  - apply (StronglySorted_strict str_le); [| | exact Hnd2].
    + intros a b Hle Hne. unfold str_le in Hle. apply leb_compare in Hle.
      unfold String.ltb. destruct (a ?= b)%string eqn:E; [| done | done].
      by apply String.compare_eq_iff in E.
    + unfold pivot_table. cbn [p_columns]. apply StronglySorted_merge_sort; apply _.
Qed.

(** X13.  A question that no row answers gives an empty frame, without an
    error; the frame of every other question has a row and a column. *)
Theorem pivoted_pct_empty (df : SurveyTable) (q : Z) :
  pivoted_pct df q = {| p_index := []; p_columns := []; p_cells := [] |}
  ↔ ∀ r, r ∈ df → QuestionID r = q → AnswerText r = None.
Proof.
  destruct (pivot_index_columns (filter (λ r, QuestionID r = q) df))
    as (Hindex & _ & _ & _). cbv zeta in Hindex. split.
  - intros E r Hr Hq. destruct (AnswerText r) as [a |] eqn:Ea; [| done]. exfalso.
    assert (Hi : SurveyID r ∈ p_index (pivoted_pct df q)).
    { unfold pivoted_pct, normalize_rows. cbn [p_index]. apply Hindex. exists a.
      apply list_elem_of_omap. exists r. split; [by apply list_elem_of_filter |].
      unfold group_key. by rewrite Ea. }
    rewrite E in Hi. by apply elem_of_nil in Hi.
  - intros Hnone.
    assert (omap group_key (filter (λ r, QuestionID r = q) df) = []) as Hkeys.
    { apply elem_of_nil_inv. intros k (r & [Hq Hr]%list_elem_of_filter & Hk)%list_elem_of_omap.
      unfold group_key in Hk. by rewrite (Hnone r Hr Hq) in Hk. }
    unfold pivoted_pct, groupby_size. by rewrite Hkeys.
Qed.

(** ** Prevalence estimator: order of the estimates, no answers *)

Lemma StronglySorted_take {A} (R : relation A) (l : list A) n :
  StronglySorted R l → StronglySorted R (take n l).
Proof.
  intros Hs. revert n. induction Hs as [| a l _ IH Hall]; intros [| n]; simpl;
    try constructor; [apply IH |].
  apply Forall_forall. intros b Hb. rewrite Forall_forall in Hall.
  apply Hall. apply elem_of_take in Hb as (i & Hi & _).
  by eapply list_elem_of_lookup_2.
Qed.

(** X14.  The estimates come in the order of their counts, the most
    frequent answer first. *)
Theorem prevalence_estimates_ordered (df : SurveyTable) (q1 q2 : Z) :
  StronglySorted (λ a b, (p_count b ≤ p_count a)%nat)
    (create_prevalence_barplot df q1 q2).
Proof.
  unfold create_prevalence_barplot. rewrite map_fmap.
  apply (StronglySorted_fmap _ count_ge); [done |].
  apply StronglySorted_take, value_counts_sorted.
Qed.

(** X15.  The estimator returns no estimate, and raises nothing, exactly
    when no row of the table answers the target question. *)
Theorem prevalence_no_answers (df : SurveyTable) (q1 q2 : Z) :
  create_prevalence_barplot df q1 q2 = []
  ↔ ∀ r, r ∈ df → QuestionID r = q2 → AnswerText r = None.
Proof.
  rewrite <- length_zero_iff_nil, create_prevalence_barplot_length.
  set (answers := omap id (answers_of df q2)).
  assert (Hu : ∀ a, a ∈ unique String.eqb answers ↔ a ∈ answers)
    by (intros a; apply (elem_of_unique _ _ _ String_eqb_decides)).
  assert (Ha : ∀ a, a ∈ answers ↔ ∃ r, r ∈ df ∧ QuestionID r = q2 ∧ AnswerText r = Some a).
  { intros a. unfold answers, answers_of. rewrite list_elem_of_omap. split.
    - intros (o & Ho & Eo). rewrite map_fmap, list_elem_of_fmap in Ho.
      destruct Ho as (r & -> & [Hq Hr]%list_elem_of_filter). by exists r.
    - intros (r & Hr & Hq & Ea). exists (Some a). split; [| done].
      rewrite map_fmap, list_elem_of_fmap. exists r.
      split; [done | by apply list_elem_of_filter]. }
  split.
  - intros Hlen r Hr Hq. destruct (AnswerText r) as [a |] eqn:Ea; [| done]. exfalso.
    assert (Hin : a ∈ unique String.eqb answers) by (apply Hu, Ha; by exists r).
    destruct (unique String.eqb answers); [by apply elem_of_nil in Hin |].
    simpl in Hlen. lia.
  - intros Hnone.
    assert (unique String.eqb answers = []) as ->; [| done].
    apply elem_of_nil_inv. intros a (r & Hr & Hq & Ea)%Hu%Ha.
    by rewrite (Hnone r Hr Hq) in Ea.
Qed.

(** ** Prevalence estimator: accuracy of the percentage *)

(** X16.  For a count that does not exceed the denominator, on a table of
    fewer than [2^53] respondents, the percentage of an estimate is a finite
    number within the relative error [margin] (two roundings, below
    [2^-50]) of the exact [100 * count / denominator]. *)
Theorem prevalence_percentage_accuracy (df : SurveyTable) (q1 q2 : Z)
    (r : PrevalenceEstimate) :
  r ∈ create_prevalence_barplot df q1 q2 →
  (p_count r ≤ respondents_in 2016 df q1)%nat →
  Z.of_nat (respondents_in 2016 df q1) < 2 ^ 53 →
  let exact := (100 * (IZR (Z.of_nat (p_count r))
                       / IZR (Z.of_nat (respondents_in 2016 df q1))))%R in
  F64.is_finite (p_Percentage r) = true
  ∧ (Rabs (F64.to_R (p_Percentage r) - exact) <= margin * exact)%R.
Proof.
  intros Hr Hle Hd. cbv zeta.
  unfold create_prevalence_barplot in Hr.
  rewrite map_fmap, list_elem_of_fmap in Hr. destruct Hr as ([k n] & -> & Hin).
  set (d := respondents_in 2016 df q1) in *.
  change (p_count (prevalence_row z_90 d (k, n))) with n in *.
  change (p_Percentage (prevalence_row z_90 d (k, n))) with (percentage n d).
  assert (Hn : (0 < n)%nat).
  { apply elem_of_take in Hin as (i & Hi & _). apply list_elem_of_lookup_2 in Hi.
    apply elem_of_value_counts in Hi as [Hk ->]. by apply occurrences_pos. }
  destruct (percentage_finite_error n d) as [(m & e & ->) Herr]; [lia | done |].
  by split.
Qed.

Lemma prevalence_percentage_accuracy_witness :
  ∃ r, create_prevalence_barplot example_prevalence 1 2 = [r]
       ∧ F64.is_finite (p_Percentage r) = true.
Proof.
  set (r := prevalence_row z_90 100 ("Anxiety", 30%nat)).
  assert (E : create_prevalence_barplot example_prevalence 1 2 = [r]) by (by vm_compute).
  assert (Hd : respondents_in 2016 example_prevalence 1 = 100%nat) by (by vm_compute).
  exists r. split; [exact E |].
  apply (prevalence_percentage_accuracy example_prevalence 1 2 r).
  - rewrite E. by left.
  - rewrite Hd. simpl. lia.
  - rewrite Hd. simpl. lia.
Defined.

(** ** Correlation builder: the frame handed to the correlation *)

(** X17.  When [create_correlation_heatmap] gets as far as the correlation,
    the frame it hands over has the columns of the input, under the same
    names and in the same order, each with as many cells as before, and no
    cell of it is a text: every column holds whole numbers of 64 bits and
    missing cells only, or floats and missing cells only. *)
Theorem correlation_frame_shape `{Pandas} `{Builtins} (df out : Frame) :
  create_correlation_heatmap df = Some out →
  map fst out = map fst df
  ∧ map (λ c, length c.2) out = map (λ c, length c.2) df
  ∧ Forall (λ c,
        Forall (λ r, (∃ z, r = Int z ∧ - 2 ^ 63 ≤ z < 2 ^ 63) ∨ r = Null) c.2
        ∨ Forall (λ r, (∃ x, r = Num x) ∨ r = Null) c.2) out.
Proof.
  intros [_ Hf]%create_correlation_heatmap_Some.
  induction Hf as [| c r df out [Hn Hc] _ (IH1 & IH2 & IH3)]; [done |].
  cbn [map]. split_and!.
  - by rewrite Hn, IH1.
  - rewrite IH2. f_equal. apply coerce_column_Some in Hc.
    destruct (convert_dtypes _); [destruct Hc as [_ Hc] |];
      symmetry; by eapply Forall2_length.
  - constructor; [| done]. by eapply coerce_column_dtype.
Qed.

Lemma correlation_frame_shape_witness :
  create_correlation_heatmap (H := Reference.pandas) (H0 := Reference.builtins)
    [("a", [Text "Yes"; Text "7"; Null]); ("b", [Text "Maybe"; Int 2; Num F64.nan])]
  = Some [("a", [Int 1; Int 7; Null]);
          ("b", [Num (F64.decimal 5 1); Num (F64.of_Z 2); Null])]
  ∧ map fst [("a", [Int 1; Int 7; Null]);
             ("b", [Num (F64.decimal 5 1); Num (F64.of_Z 2); Null])]
    = ["a"; "b"].
Proof.
  assert (E : create_correlation_heatmap (H := Reference.pandas)
                (H0 := Reference.builtins)
                [("a", [Text "Yes"; Text "7"; Null]);
                 ("b", [Text "Maybe"; Int 2; Num F64.nan])]
              = Some [("a", [Int 1; Int 7; Null]);
                      ("b", [Num (F64.decimal 5 1); Num (F64.of_Z 2); Null])])
    by (by vm_compute).
  split; [exact E |].
  apply (correlation_frame_shape (H := Reference.pandas) (H0 := Reference.builtins)
           _ _ E).
Defined.

(** ** Violin comparison: the ordinal scale, missing questions *)

Lemma map_answer_values a :
  map_answer a = F64.of_Z 0 ∨ map_answer a = F64.decimal 5 1
  ∨ map_answer a = F64.of_Z 1 ∨ map_answer a = F64.nan.
Proof.
  unfold map_answer.
  destruct (text_to_num_mapping !! a) as [[v |] |] eqn:E; [| by auto | by auto].
  unfold text_to_num_mapping in E. apply elem_of_list_to_map_2 in E.
  repeat (apply elem_of_cons in E as [E | E]; [simplify_eq; by auto |]).
  by apply elem_of_nil in E.
Qed.

(** X18.  When the answers of a question pair are not all numeric, every
    value plotted is 0, 0.5, 1 or missing: the values the axis is labelled
    with ("No", "Some", "Yes"). *)
Theorem ordinal_values_on_scale `{Pandas} (answers : list (option string)) :
  (violin_y answers).1 = y_AnswerNumeric →
  Forall (λ y, y = F64.of_Z 0 ∨ y = F64.decimal 5 1 ∨ y = F64.of_Z 1 ∨ y = F64.nan)
    (violin_y answers).2.
Proof.
  unfold violin_y. destruct (all_isnumeric answers); [done |]. intros _. simpl.
  rewrite map_fmap, Forall_fmap. apply Forall_forall. intros a _.
  apply map_answer_values.
Qed.

Lemma ordinal_values_on_scale_witness :
  (violin_y (H := Reference.pandas) [Some "Yes"; Some "7"; None; Some "Maybe"]).1
  = y_AnswerNumeric
  ∧ Forall (λ y, y = F64.of_Z 0 ∨ y = F64.decimal 5 1 ∨ y = F64.of_Z 1 ∨ y = F64.nan)
      (violin_y (H := Reference.pandas) [Some "Yes"; Some "7"; None; Some "Maybe"]).2.
Proof.
  assert (E : (violin_y (H := Reference.pandas)
                 [Some "Yes"; Some "7"; None; Some "Maybe"]).1 = y_AnswerNumeric)
    by reflexivity.
  split; [exact E |].
  apply (ordinal_values_on_scale (H := Reference.pandas) _ E).
Defined.

Section ViolinFrames.
Context `{Pandas}.

(** The melted frame of a pair whose questions are columns. *)
Lemma violin_frame_known (question_labels : gmap Z string)
    (df : gmap Z (list (option string))) (p : Z * Z) c1 c2 :
  df !! p.1 = Some c1 → df !! p.2 = Some c2 →
  ∃ fr, violin_frame df question_labels p = Some fr
      ∧ v_AnswerText fr = (if decide (p.1 = p.2) then c1 else c1 ++ c2)
      ∧ v_QuestionID fr
        = (if decide (p.1 = p.2) then replicate (length c1) p.1
           else replicate (length c1) p.1 ++ replicate (length c2) p.2)
      ∧ length (v_Label fr) = length (v_AnswerText fr)
      ∧ length (v_y fr) = length (v_AnswerText fr).
Proof.
  intros E1 E2. unfold violin_frame, value_vars.
  assert (Hy : ∀ answers, length (violin_y answers).2 = length answers).
  { intros answers. unfold violin_y.
    destruct (all_isnumeric answers); simpl; by rewrite length_map. }
  destruct (decide (p.1 = p.2)) as [Heq | Hne]; simpl; rewrite E1; simpl.
  - eexists. split; [reflexivity |]. simpl. rewrite !app_nil_r.
    split_and!; [done | done | by rewrite length_map, length_replicate | apply Hy].
  - rewrite E2. simpl. eexists. split; [reflexivity |]. simpl. rewrite !app_nil_r.
    split_and!; [done | done | | apply Hy].
    by rewrite length_map, !length_app, !length_replicate.
Qed.

Lemma violin_frame_unknown (question_labels : gmap Z string)
    (df : gmap Z (list (option string))) (p : Z * Z) :
  ¬ (is_Some (df !! p.1) ∧ is_Some (df !! p.2)) →
  violin_frame df question_labels p = None.
Proof.
  intros Hnot. unfold violin_frame, value_vars.
  destruct (decide (p.1 = p.2)) as [Heq | Hne]; simpl.
  - destruct (df !! p.1) as [c1 |] eqn:E1; [| done].
    destruct Hnot. rewrite <- Heq, E1. by split.
  - destruct (df !! p.1) as [c1 |] eqn:E1; [| done]. simpl.
    destruct (df !! p.2) as [c2 |] eqn:E2; [| done].
    destruct Hnot. by split.
Qed.

End ViolinFrames.

(** X19.  Without a pair [create_violin_subplots] raises at once, from
    [plt.subplots].  Otherwise it builds the melted frames of the pairs in
    order.  At the first pair that names a question without a column it
    raises [KeyError], after the frames of the pairs before it have been
    built and plotted; without such a pair it builds one frame for each
    pair and raises nothing.  The frame of a pair stacks the answers of
    the first question on those of the second, or holds the answers once
    when the pair names one question twice, with one question id, one
    label and one plotted value for each answer. *)
Theorem violin_frames `{Pandas} (question_pairs : list (Z * Z))
    (question_labels : gmap Z string) (df : gmap Z (list (option string))) :
  let known := λ p : Z * Z, is_Some (df !! p.1) ∧ is_Some (df !! p.2) in
  let melted := λ (p : Z * Z) (fr : ViolinFrame),
    ∃ c1 c2, df !! p.1 = Some c1 ∧ df !! p.2 = Some c2
      ∧ v_AnswerText fr = (if decide (p.1 = p.2) then c1 else c1 ++ c2)
      ∧ v_QuestionID fr
        = (if decide (p.1 = p.2) then replicate (length c1) p.1
           else replicate (length c1) p.1 ++ replicate (length c2) p.2)
      ∧ length (v_Label fr) = length (v_AnswerText fr)
      ∧ length (v_y fr) = length (v_AnswerText fr) in
  create_violin_subplots [] question_labels df = ([], Some SubplotsError)
  ∧ (question_pairs ≠ [] → Forall known question_pairs →
     ∃ frames,
       create_violin_subplots question_pairs question_labels df = (frames, None)
       ∧ Forall2 melted question_pairs frames)
  ∧ (∀ good bad rest,
       question_pairs = good ++ bad :: rest → Forall known good → ¬ known bad →
       ∃ frames,
         create_violin_subplots question_pairs question_labels df
         = (frames, Some KeyError)
         ∧ Forall2 melted good frames).
Proof.
  cbv zeta.
  assert (Hloop : ∀ good tail,
            Forall (λ p : Z * Z, is_Some (df !! p.1) ∧ is_Some (df !! p.2)) good →
            ∃ frames,
              violin_loop df question_labels (good ++ tail)
              = (frames ++ (violin_loop df question_labels tail).1,
                 (violin_loop df question_labels tail).2)
              ∧ Forall2 (λ (p : Z * Z) (fr : ViolinFrame),
                  ∃ c1 c2, df !! p.1 = Some c1 ∧ df !! p.2 = Some c2
                    ∧ v_AnswerText fr = (if decide (p.1 = p.2) then c1 else c1 ++ c2)
                    ∧ v_QuestionID fr
                      = (if decide (p.1 = p.2) then replicate (length c1) p.1
                         else replicate (length c1) p.1 ++ replicate (length c2) p.2)
                    ∧ length (v_Label fr) = length (v_AnswerText fr)
                    ∧ length (v_y fr) = length (v_AnswerText fr)) good frames).
  { intros good tail Hgood.
    induction Hgood as [| p good [[c1 E1] [c2 E2]] _ (frames & Hl & Hf)].
    - exists []. split; [| constructor]. simpl.
      by destruct (violin_loop _ _ tail).
    - destruct (violin_frame_known question_labels df p c1 c2 E1 E2)
        as (fr & Hfr & Hm).
      exists (fr :: frames). split.
      + simpl. by rewrite Hfr, Hl.
      + constructor; [by exists c1, c2 | done]. }
  split_and!.
  - done.
  - intros Hne Hknown.
    destruct (Hloop question_pairs [] Hknown) as (frames & Hl & Hf).
    rewrite !app_nil_r in Hl. simpl in Hl.
    exists frames. split; [| done].
    unfold create_violin_subplots. by destruct question_pairs.
  - intros good bad rest -> Hgood Hbad.
    destruct (Hloop good (bad :: rest) Hgood) as (frames & Hl & Hf).
    simpl in Hl. rewrite (violin_frame_unknown _ _ _ Hbad) in Hl.
    simpl in Hl. rewrite app_nil_r in Hl.
    exists frames. split; [| done].
    unfold create_violin_subplots. by destruct good.
Qed.

Lemma violin_frames_witness :
  ∃ frames,
    create_violin_subplots (H := Reference.pandas) [(1, 2); (1, 9)] ∅
      (list_to_map [(1, [Some "Yes"]); (2, [Some "No"])])
    = (frames, Some KeyError)
    ∧ length frames = 1%nat.
Proof.
  destruct (violin_frames (H := Reference.pandas) [(1, 2); (1, 9)] ∅
              (list_to_map [(1, [Some "Yes"]); (2, [Some "No"])]))
    as (_ & _ & Hbad).
  destruct (Hbad [(1, 2)] (1, 9) []) as (frames & Hrun & Hframes).
  - reflexivity.
  - repeat constructor; eexists; reflexivity.
  - intros [_ [c Hc]]. vm_compute in Hc. discriminate Hc.
  - exists frames. split; [exact Hrun |].
    apply Forall2_length in Hframes. by rewrite <- Hframes.
Defined.
